(** * ironxyz/mcp-server: the OpenAPI lookup layer and the invocation gateway

    A shallow embedding of [src/index.ts] (spec processing, reference
    resolution, endpoint index, tool handlers), [src/types.ts] (type guards)
    and [src/formatters/apiResponse.ts], followed by the properties the
    specification states about them.  The configuration, the loading of
    the document, the tool dispatcher and the matching done by
    [src/prompts/findEndpoint.ts] come after, with further properties of
    the code.

    Conventions of the embedding.
    - A JavaScript object is the list of its own enumerable string-keyed
      properties in insertion order, with pairwise distinct keys
      ([NoDup] on the keys is the representation invariant).
    - [undefined] is [None] in an [option].
    - Strings are sequences of code units; case mapping is the ASCII one,
      which is what JavaScript does on ASCII text and not beyond (it maps
      some letters outside ASCII, to more than one letter at times).
    - Numbers are integers, printed in decimal: what [String] prints for
      the integers a double holds exactly, those of magnitude below 2^53.
      Fractions and larger numbers are outside the embedding.
    - A read [o[k]] on a plain object that finds no own property falls
      through to [Object.prototype]; such reads are told apart ([js_get]),
      and a run whose continuation depends on the internals of an inherited
      member ends in [Unmodelled]. *)

From Stdlib Require Import ZArith NArith List String Ascii Bool Lia.
From Stdlib Require Import DecimalString Decimal.
From stdpp Require Import base gmap strings list.

Local Open Scope string_scope.
Local Open Scope list_scope.

(* ===================================================================== *)
(** ** Strings *)
(* ===================================================================== *)

Module JsString.

Definition is_lower (c : ascii) : bool :=
  let n := nat_of_ascii c in (97 <=? n)%nat && (n <=? 122)%nat.

Definition is_upper (c : ascii) : bool :=
  let n := nat_of_ascii c in (65 <=? n)%nat && (n <=? 90)%nat.

Definition upper_char (c : ascii) : ascii :=
  if is_lower c then ascii_of_nat (nat_of_ascii c - 32) else c.

Definition lower_char (c : ascii) : ascii :=
  if is_upper c then ascii_of_nat (nat_of_ascii c + 32) else c.

Fixpoint map_chars (f : ascii -> ascii) (s : string) : string :=
  match s with
  | EmptyString => EmptyString
  | String c s' => String (f c) (map_chars f s')
  end.

(** [s.toUpperCase()] and [s.toLowerCase()] on ASCII text: the letters
    [a] to [z] and [A] to [Z] are mapped, every other code unit is left
    as it is. *)
Definition toUpperCase : string -> string := map_chars upper_char.
Definition toLowerCase : string -> string := map_chars lower_char.

(** [s.split(sep)] for a one-character separator. *)
Fixpoint split_acc (sep : ascii) (cur : string) (s : string) : list string :=
  match s with
  | EmptyString => [cur]
  | String c s' =>
      if Ascii.eqb c sep then cur :: split_acc sep EmptyString s'
      else split_acc sep (cur +:+ String c EmptyString) s'
  end.

Definition split (sep : ascii) (s : string) : list string :=
  split_acc sep EmptyString s.

Fixpoint join (sep : string) (l : list string) : string :=
  match l with
  | [] => ""
  | [x] => x
  | x :: rest => x +:+ sep +:+ join sep rest
  end.

(** Decimal text of an integer, as [String(n)] prints it. *)
Definition of_Z (n : Z) : string := NilZero.string_of_int (Z.to_int n).
Definition of_N (n : N) : string := NilZero.string_of_uint (N.to_uint n).

(** A key is an array index when it is the canonical decimal text of an
    integer in [0, 2^32 - 2]. *)
Definition array_index (k : string) : option N :=
  match NilZero.uint_of_string k with
  | Some u =>
      let n := N.of_uint u in
      if String.eqb (of_N n) k && (n <=? 4294967294)%N then Some n else None
  | None => None
  end.

End JsString.

(* ===================================================================== *)
(** ** Values, objects and property reads *)
(* ===================================================================== *)

(** [JsonValue] of [types.ts]:
    string | number | boolean | null | JsonValue[] | {[key]: JsonValue}. *)
#[warnings="-register-all"]
Inductive JsonValue : Type :=
| JNull
| JBool (b : bool)
| JNum (n : Z)
| JStr (s : string)
| JArr (items : list JsonValue)
| JObj (props : list (string * JsonValue)).

Abbreviation Obj A := (list (string * A)) (only parsing).

(** The error codes of the protocol SDK that the program uses. *)
Inductive ErrorCode : Type :=
| InvalidRequest
| InvalidParams
| MethodNotFound
| InternalError.

Inductive JsError : Type :=
| TypeError (message : string)
| McpError (code : ErrorCode) (message : string).

(** What a run of a function of the program ends in. *)
Inductive Outcome (A : Type) : Type :=
| Returned (a : A)
| Thrown (e : JsError)
| Unmodelled.
Arguments Returned {A} a.
Arguments Thrown {A} e.
Arguments Unmodelled {A}.

Definition bindO {A B} (m : Outcome A) (f : A -> Outcome B) : Outcome B :=
  match m with
  | Returned a => f a
  | Thrown e => Thrown e
  | Unmodelled => Unmodelled
  end.

Module Js.

(** Own property lookup. *)
Fixpoint own_get {A} (o : Obj A) (k : string) : option A :=
  match o with
  | [] => None
  | (k', a) :: o' => if String.eqb k' k then Some a else own_get o' k
  end.

Definition keys {A} (o : Obj A) : list string := map fst o.

(** The property names every plain object inherits from
    [Object.prototype]. *)
Definition Object_prototype_names : list string :=
  [ "constructor"; "__defineGetter__"; "__defineSetter__"; "hasOwnProperty";
    "__lookupGetter__"; "__lookupSetter__"; "isPrototypeOf";
    "propertyIsEnumerable"; "toString"; "valueOf"; "__proto__";
    "toLocaleString" ].

Definition inherited_name (k : string) : bool :=
  existsb (String.eqb k) Object_prototype_names.

(** The result of [o[k]] on a plain object. *)
Inductive JsRead (A : Type) : Type :=
| Own (a : A)
| Inherited (member : string)
| Undefined.
Arguments Own {A} a.
Arguments Inherited {A} member.
Arguments Undefined {A}.

Definition js_get {A} (o : Obj A) (k : string) : JsRead A :=
  match own_get o k with
  | Some a => Own a
  | None => if inherited_name k then Inherited k else Undefined
  end.

(** [o[k] = a]: overwrite in place, or add as the last property. *)
Fixpoint obj_set {A} (o : Obj A) (k : string) (a : A) : Obj A :=
  match o with
  | [] => [(k, a)]
  | (k', a') :: o' =>
      if String.eqb k' k then (k', a) :: o' else (k', a') :: obj_set o' k a
  end.

(** Own property enumeration ([Object.entries], [Object.keys], spread):
    array-index keys first, in ascending numeric order, then the other
    keys in insertion order. *)
Fixpoint insert_index {A} (n : N) (kv : string * A)
    (l : list (N * (string * A))) : list (N * (string * A)) :=
  match l with
  | [] => [(n, kv)]
  | (m, kv') :: l' =>
      if (n <? m)%N then (n, kv) :: l else (m, kv') :: insert_index n kv l'
  end.

Fixpoint index_entries {A} (o : Obj A) : list (N * (string * A)) :=
  match o with
  | [] => []
  | (k, a) :: o' =>
      match JsString.array_index k with
      | Some n => insert_index n (k, a) (index_entries o')
      | None => index_entries o'
      end
  end.

Definition is_index {A} (kv : string * A) : bool :=
  match JsString.array_index (fst kv) with Some _ => true | None => false end.

Definition Object_entries {A} (o : Obj A) : Obj A :=
  map snd (index_entries o) ++ List.filter (fun kv => negb (is_index kv)) o.

(** Truthiness. *)
Definition truthy (v : JsonValue) : bool :=
  match v with
  | JNull => false
  | JBool b => b
  | JNum n => negb (n =? 0)%Z
  | JStr s => negb (String.eqb s "")
  | JArr _ | JObj _ => true
  end.

(** [typeof v === "object"] ([null] and arrays included). *)
Definition typeof_object (v : JsonValue) : bool :=
  match v with
  | JNull | JArr _ | JObj _ => true
  | _ => false
  end.

Definition is_null (v : JsonValue) : bool :=
  match v with JNull => true | _ => false end.

(** [k in v] for an object-typed [v] and a name [k] that neither
    [Object.prototype] nor [Array.prototype] defines (every name the
    program tests: [responses], [summary], [description], [operationId],
    [$ref]): an own-key test on an object, false on an array, whose own
    keys are its indices and [length]. *)
Definition js_in (k : string) (v : JsonValue) : bool :=
  match v with
  | JObj o => match own_get o k with Some _ => true | None => false end
  | _ => false
  end.

(** [v.name] for a name that no prototype defines (the operation fields
    [summary], [description], [operationId], [parameters], [requestBody],
    [responses], [tags]): the own property of an object, [undefined] on
    anything else. *)
Definition field (v : JsonValue) (name : string) : option JsonValue :=
  match v with
  | JObj o => own_get o name
  | _ => None
  end.

(** [String(v)] and the coercion of a template literal or a property key.
    A number is an integer and prints as its decimal digits, as [String]
    prints the integers of magnitude below 2^53.  An array joins its elements with a comma, [null] elements as the empty
    string.  A plain object prints as [[object Object]] through the
    inherited [toString]; an own [toString] property parsed from JSON is
    not callable, and the fallback [valueOf] returns no primitive, which
    is a [TypeError]. *)
Fixpoint ToString (v : JsonValue) : Outcome string :=
  match v with
  | JNull => Returned "null"
  | JBool true => Returned "true"
  | JBool false => Returned "false"
  | JNum n => Returned (JsString.of_Z n)
  | JStr s => Returned s
  | JArr items =>
      let fix go (l : list JsonValue) : Outcome (list string) :=
        match l with
        | [] => Returned []
        | x :: l' =>
            bindO (match x with JNull => Returned "" | _ => ToString x end)
              (fun s => bindO (go l') (fun ss => Returned (s :: ss)))
        end in
      bindO (go items) (fun ss => Returned (JsString.join "," ss))
  | JObj o =>
      match own_get o "toString" with
      | Some _ => Thrown (TypeError "Cannot convert object to primitive value")
      | None => Returned "[object Object]"
      end
  end.

End Js.

(* ===================================================================== *)
(** ** types.ts: documents, records and type guards *)
(* ===================================================================== *)

(** [OpenAPISpec]: [paths] maps a path template to a path item, itself an
    object whose property values are whatever the document holds (the
    program tests them with [isOpenAPIOperation]); [schemas] is
    [components?.schemas]. *)
Record OpenAPISpec : Type := {
  info : option JsonValue;
  paths : list (string * list (string * JsonValue));
  schemas : option (list (string * JsonValue))
}.

Record EndpointSummary : Type := {
  es_path : string;
  es_method : string;
  es_summary : option JsonValue;
  es_description : option JsonValue;
  es_operationId : option JsonValue;
  es_tags : option JsonValue
}.

Record ApiSummary : Type := {
  as_info : option JsonValue;
  totalEndpoints : nat;
  endpointsByTag : list (string * list EndpointSummary)
}.

Record EndpointDetails : Type := {
  ed_summary : option JsonValue;
  ed_description : option JsonValue;
  ed_operationId : option JsonValue;
  ed_parameters : option JsonValue;
  ed_requestBody : option JsonValue;
  ed_responses : option JsonValue;
  ed_tags : option JsonValue
}.

(** The four property names the operation check looks for. *)
Definition operation_keys : list string :=
  ["responses"; "summary"; "description"; "operationId"].

(** [isOpenAPIOperation(value: unknown)]. *)
Definition isOpenAPIOperation (value : option JsonValue) : bool :=
  match value with
  | None => false
  | Some v =>
      Js.typeof_object v && negb (Js.is_null v) &&
      (Js.js_in "responses" v || Js.js_in "summary" v ||
       Js.js_in "description" v || Js.js_in "operationId" v)
  end.

(** [isJsonValue(value)]. *)
Fixpoint isJsonValue (v : JsonValue) : bool :=
  match v with
  | JNull => true
  | JStr _ | JNum _ | JBool _ => true
  | JArr items => forallb isJsonValue items
  | JObj o => forallb (fun kv => isJsonValue (snd kv)) o
  end.

(* ===================================================================== *)
(** ** The endpoint index *)
(* ===================================================================== *)

Definition summary_entry (path method : string) (operation : JsonValue)
  : EndpointSummary :=
  {| es_path := path;
     es_method := JsString.toUpperCase method;
     es_summary := Js.field operation "summary";
     es_description := Js.field operation "description";
     es_operationId := Js.field operation "operationId";
     es_tags := Js.field operation "tags" |}.

(** [extractEndpointSummaries(spec)]: the two nested loops over
    [Object.entries], pushing one summary per recognised operation. *)
Definition extractEndpointSummaries (spec : OpenAPISpec) : list EndpointSummary :=
  flat_map
    (fun '(path, pathItem) =>
       flat_map
         (fun '(method, operation) =>
            if isOpenAPIOperation (Some operation)
            then [summary_entry path method operation]
            else [])
         (Js.Object_entries pathItem))
    (Js.Object_entries (paths spec)).

(** [endpoint.tags?.[0]]. *)
Definition first_tag (tags : option JsonValue) : option JsonValue :=
  match tags with
  | None | Some JNull => None
  | Some (JArr items) => head items
  | Some (JStr (String c _)) => Some (JStr (String c EmptyString))
  | Some (JObj o) => Js.own_get o "0"
  | Some _ => None
  end.

(** [endpoint.tags?.[0] || "default"], as the property key it is used for. *)
Definition grouping_key (endpoint : EndpointSummary) : Outcome string :=
  match first_tag (es_tags endpoint) with
  | Some t => if Js.truthy t then Js.ToString t else Returned "default"
  | None => Returned "default"
  end.

(** One round of the [forEach] of [createSummary].  When [tag] names a
    member of [Object.prototype] the bucket test finds that member, no
    array is created, and [push] is not a function. *)
Definition group_endpoint (groupedByTag : list (string * list EndpointSummary))
    (endpoint : EndpointSummary) : Outcome (list (string * list EndpointSummary)) :=
  bindO (grouping_key endpoint) (fun tag =>
    match Js.js_get groupedByTag tag with
    | Js.Own bucket => Returned (Js.obj_set groupedByTag tag (bucket ++ [endpoint]))
    | Js.Undefined => Returned (Js.obj_set groupedByTag tag [endpoint])
    | Js.Inherited _ => Thrown (TypeError "groupedByTag[tag].push is not a function")
    end).

Fixpoint group_endpoints (groupedByTag : list (string * list EndpointSummary))
    (endpoints : list EndpointSummary) : Outcome (list (string * list EndpointSummary)) :=
  match endpoints with
  | [] => Returned groupedByTag
  | endpoint :: rest =>
      bindO (group_endpoint groupedByTag endpoint) (fun g => group_endpoints g rest)
  end.

(** [createSummary(spec)]. *)
Definition createSummary (spec : OpenAPISpec) : Outcome ApiSummary :=
  let endpoints := extractEndpointSummaries spec in
  bindO (group_endpoints [] endpoints) (fun groupedByTag =>
    Returned {| as_info := info spec;
                totalEndpoints := length endpoints;
                endpointsByTag := groupedByTag |}).

Definition details_of (operation : JsonValue) : EndpointDetails :=
  {| ed_summary := Js.field operation "summary";
     ed_description := Js.field operation "description";
     ed_operationId := Js.field operation "operationId";
     ed_parameters := Js.field operation "parameters";
     ed_requestBody := Js.field operation "requestBody";
     ed_responses := Js.field operation "responses";
     ed_tags := Js.field operation "tags" |}.

(** The record built from a value that has none of the seven fields. *)
Definition undefined_details : EndpointDetails :=
  {| ed_summary := None; ed_description := None; ed_operationId := None;
     ed_parameters := None; ed_requestBody := None; ed_responses := None;
     ed_tags := None |}.

(** [getEndpointDetails(spec, path, method)]; [null] is [None].  Under a
    path item, the lower-cased key can reach [Object.prototype] (at
    [constructor] and [__proto__]): the member found is truthy and has none
    of the seven fields.  When [path] itself names an inherited member, the
    second read is a read of that member's own layout. *)
Definition getEndpointDetails (spec : OpenAPISpec) (path method : string)
  : Outcome (option EndpointDetails) :=
  match Js.js_get (paths spec) path with
  | Js.Undefined => Returned None
  | Js.Inherited _ => Unmodelled
  | Js.Own pathItem =>
      match Js.js_get pathItem (JsString.toLowerCase method) with
      | Js.Undefined => Returned None
      | Js.Inherited _ => Returned (Some undefined_details)
      | Js.Own operation =>
          if Js.truthy operation then Returned (Some (details_of operation))
          else Returned None
      end
  end.

(** The [length] property of the members of [Object.prototype]: the arity
    of the eleven functions; [__proto__] reads as the prototype object,
    which has none. *)
Definition inherited_length (member : string) : option nat :=
  if String.eqb member "__proto__" then None
  else if existsb (String.eqb member) ["toString"; "valueOf"; "toLocaleString"] then Some 0
  else if existsb (String.eqb member) ["__defineGetter__"; "__defineSetter__"] then Some 2
  else Some 1.

(** The [result] object of [handleListAllEndpoints]: a summary, or, when
    [filterByTag] names a member of [Object.prototype], an object whose only
    bucket is that member and whose [totalEndpoints] is the member's
    [length]. *)
Inductive ListReply : Type :=
| Summary (result : ApiSummary)
| InheritedBucket (result_info : option JsonValue) (member : string)
    (total : option nat).

(** [handleListAllEndpoints(args)] after the document is loaded: the
    [result] object whose JSON text is the reply. *)
Definition handleListAllEndpoints (spec : OpenAPISpec) (filterByTag : option string)
  : Outcome ListReply :=
  bindO (createSummary spec) (fun result =>
    match filterByTag with
    | None => Returned (Summary result)
    | Some tag =>
        if String.eqb tag "" then Returned (Summary result)
        else
          match Js.js_get (endpointsByTag result) tag with
          | Js.Own filteredEndpoints =>
              Returned (Summary
                {| as_info := as_info result;
                   totalEndpoints := length filteredEndpoints;
                   endpointsByTag := [(tag, filteredEndpoints)] |})
          | Js.Undefined =>
              Returned (Summary
                {| as_info := as_info result;
                   totalEndpoints := 0;
                   endpointsByTag := [] |})
          | Js.Inherited member =>
              Returned (InheritedBucket (as_info result) member
                          (inherited_length member))
          end
    end).

(* ===================================================================== *)
(** ** formatters/apiResponse.ts *)
(* ===================================================================== *)

Record RequestInfo : Type := { ri_path : string; ri_method : string }.

Record ApiResponse : Type := {
  status : Z;
  statusText : string;
  data : option JsonValue;
  headers : option (list (string * string))
}.

Record ApiErrorResponse : Type := {
  aer_status : Z;
  aer_statusText : string;
  aer_data : option JsonValue
}.

(** [ApiError]: {message, code?, response?: {status, statusText, data?}}. *)
Record ApiError : Type := {
  message : string;
  code : option string;
  response : option ApiErrorResponse
}.

Definition nl : string := String (ascii_of_nat 10) EmptyString.

Definition truthy_opt (v : option JsonValue) : bool :=
  match v with Some x => Js.truthy x | None => false end.

Definition truthy_string (s : option string) : bool :=
  match s with Some x => negb (String.eqb x "") | None => false end.

Section Formatters.

(** [JSON.stringify(value, null, 2)], a built-in of the host. *)
Variable JSON_stringify_pretty : JsonValue -> string.

Definition json_block (v : option JsonValue) : string :=
  "```json" +:+ nl +:+
  match v with Some x => JSON_stringify_pretty x | None => "undefined" end
  +:+ nl +:+ "```" +:+ nl +:+ nl.

(** [formatApiResponse(response, endpointDetails, url, requestInfo)].
    The summary and the operation id are interpolated as the document
    holds them. *)
Definition formatApiResponse (response : ApiResponse)
    (endpointDetails : EndpointDetails) (url : string)
    (requestInfo : RequestInfo) : Outcome string :=
  let success := (200 <=? status response)%Z && (status response <? 300)%Z in
  let client := (400 <=? status response)%Z && (status response <? 500)%Z in
  let statusEmoji := if success then "✅" else if client then "⚠️" else "❌" in
  bindO (match ed_summary endpointDetails with
         | Some s => if Js.truthy s then Js.ToString s else Returned "N/A"
         | None => Returned "N/A"
         end) (fun operation =>
  bindO (match ed_operationId endpointDetails with
         | Some i =>
             if Js.truthy i
             then bindO (Js.ToString i) (fun t =>
                    Returned ("- **Operation ID**: `" +:+ t +:+ "`" +:+ nl))
             else Returned ""
         | None => Returned ""
         end) (fun operationIdLine =>
  Returned (
    "# API Response: " +:+ ri_method requestInfo +:+ " " +:+ ri_path requestInfo
      +:+ nl +:+ nl +:+
    "## 📋 Request Summary" +:+ nl +:+
    "- **Endpoint**: `" +:+ ri_method requestInfo +:+ " " +:+ ri_path requestInfo
      +:+ "`" +:+ nl +:+
    "- **Operation**: " +:+ operation +:+ nl +:+
    "- **URL**: " +:+ url +:+ nl +:+
    operationIdLine +:+
    nl +:+
    "## " +:+ statusEmoji +:+ " Response Status" +:+ nl +:+
    "**" +:+ JsString.of_Z (status response) +:+ " " +:+ statusText response
      +:+ "**" +:+ nl +:+ nl +:+
    (if success
     then "✅ **Success** - The request completed successfully." +:+ nl +:+ nl
     else if client
     then "⚠️ **Client Error** - There was an issue with the request." +:+ nl +:+ nl
     else "❌ **Server Error** - The server encountered an error." +:+ nl +:+ nl) +:+
    (if truthy_opt (data response)
     then "## 📄 Response Data" +:+ nl +:+ nl +:+ json_block (data response)
     else "")))).

(** [formatApiError(error, requestInfo, url)]. *)
Definition formatApiError (error : ApiError) (requestInfo : RequestInfo)
    (url : string) : string :=
  "# API Error: " +:+ ri_method requestInfo +:+ " " +:+ ri_path requestInfo
    +:+ nl +:+ nl +:+
  "## ❌ Request Failed" +:+ nl +:+
  "- **Endpoint**: `" +:+ ri_method requestInfo +:+ " " +:+ ri_path requestInfo
    +:+ "`" +:+ nl +:+
  "- **URL**: " +:+ url +:+ nl +:+
  "- **Error**: " +:+ message error +:+ nl +:+ nl +:+
  match response error with
  | Some r =>
      "## 📋 Error Details" +:+ nl +:+
      "- **Status**: " +:+ JsString.of_Z (aer_status r) +:+ " "
        +:+ aer_statusText r +:+ nl +:+
      (if truthy_opt (aer_data r)
       then "- **Server Response**:" +:+ nl +:+ json_block (aer_data r)
       else "")
  | None =>
      if truthy_string (code error) then
        let c := default "" (code error) in
        "## 🔧 Technical Details" +:+ nl +:+
        "- **Error Code**: `" +:+ c +:+ "`" +:+ nl +:+
        (if String.eqb c "ECONNABORTED"
         then "- **Likely Cause**: Request timeout (30 seconds)" +:+ nl
         else if String.eqb c "ENOTFOUND"
         then "- **Likely Cause**: Network connectivity issue" +:+ nl
         else "") +:+
        nl
      else ""
  end +:+
  "## 💡 Troubleshooting" +:+ nl +:+
  "- Check if the endpoint path is correct" +:+ nl +:+
  "- Verify required parameters are provided" +:+ nl +:+
  "- Ensure API key is valid (if required)" +:+ nl +:+
  "- Check network connectivity" +:+ nl +:+ nl.

End Formatters.

(* ===================================================================== *)
(** ** The invocation gateway *)
(* ===================================================================== *)

Inductive Environment : Type := sandbox | production.

Record ServerConfig : Type := {
  environment : Environment;
  openApiSpecUrl : option string;
  localSpecPath : option string;
  apiKey : option string;
  readOnlyMode : bool;
  baseUrl : option string
}.

Record InvokeApiEndpointArgs : Type := {
  arg_path : string;
  arg_method : string;
  arg_parameters : option (list (string * JsonValue));
  arg_body : option (list (string * JsonValue));
  arg_headers : option (list (string * string))
}.

(** The argument of the [axios(requestConfig)] call. *)
Record RequestConfig : Type := {
  rc_method : string;
  rc_url : string;
  rc_headers : list (string * string);
  rc_data : option string;
  rc_timeout : Z
}.

(** What the transport hands back. *)
Record AxiosResponse : Type := {
  ar_status : Z;
  ar_statusText : string;
  ar_data : option JsonValue;
  ar_headers : option (list (string * JsonValue))
}.

Record AxiosError : Type := {
  ae_message : string;
  ae_code : option string;
  ae_response : option AxiosResponse
}.

(** A value caught by the [catch] clause: an axios error, another [Error]
    object (with its message), or any other thrown value (with its
    [String(...)] text). *)
Inductive Caught : Type :=
| CaughtAxios (e : AxiosError)
| CaughtError (message : string)
| CaughtOther (text : string).

Inductive AxiosResult : Type :=
| Fulfilled (r : AxiosResponse)
| Rejected (c : Caught).

(** The two I/O boundaries of the gateway: loading the document (cached or
    fetched) and the outbound call. *)
Record World : Type := {
  loadOpenApiSpec : Outcome OpenAPISpec;
  axios : RequestConfig -> AxiosResult
}.

Inductive Event : Type :=
| SpecLoad
| HttpCall (request : RequestConfig).

(** An interpolated optional string: [undefined] prints as its name. *)
Definition template (s : option string) : string := default "undefined" s.

Module URLSearchParams.

Definition hex_digit (n : nat) : ascii :=
  ascii_of_nat (if (n <? 10)%nat then 48 + n else 55 + n).

(** The bytes the form-urlencoded serialiser leaves alone: ASCII letters
    and digits, [*], [-], [.] and [_]. *)
Definition unreserved (c : ascii) : bool :=
  let n := nat_of_ascii c in
  ((48 <=? n) && (n <=? 57) || (65 <=? n) && (n <=? 90) ||
   (97 <=? n) && (n <=? 122) ||
   (n =? 42) || (n =? 45) || (n =? 46) || (n =? 95))%nat.

Definition encode_char (c : ascii) : string :=
  let n := nat_of_ascii c in
  if unreserved c then String c EmptyString
  else if (n =? 32)%nat then "+"
  else String "%" (String (hex_digit (n / 16)) (String (hex_digit (n mod 16)) EmptyString)).

Fixpoint encode (s : string) : string :=
  match s with
  | EmptyString => EmptyString
  | String c s' => encode_char c +:+ encode s'
  end.

(** [urlParams.toString()] on the list of appended pairs. *)
Definition toString (urlParams : list (string * string)) : string :=
  JsString.join "&" (map (fun '(k, v) => encode k +:+ "=" +:+ encode v) urlParams).

End URLSearchParams.

(** The [forEach] over [Object.entries(parameters)]: a pair is appended
    for every value that is neither [undefined] nor [null]. *)
Fixpoint append_parameters (urlParams : list (string * string))
    (entries : list (string * JsonValue)) : Outcome (list (string * string)) :=
  match entries with
  | [] => Returned urlParams
  | (key, value) :: rest =>
      if Js.is_null value then append_parameters urlParams rest
      else bindO (Js.ToString value) (fun s =>
             append_parameters (urlParams ++ [(key, s)]) rest)
  end.

(** The URL of the request, query string included. *)
Definition build_url (config : ServerConfig) (path : string)
    (parameters : option (list (string * JsonValue))) : Outcome string :=
  let url := template (baseUrl config) +:+ path in
  match parameters with
  | Some ps =>
      if (0 <? length (Js.Object_entries ps))%nat then
        bindO (append_parameters [] (Js.Object_entries ps)) (fun urlParams =>
          let queryString := URLSearchParams.toString urlParams in
          if negb (String.eqb queryString "")
          then Returned (url +:+ "?" +:+ queryString)
          else Returned url)
      else Returned url
  | None => Returned url
  end.

(** [{"X-API-key": key, "Content-Type": "application/json", ...headers}]. *)
Definition build_headers (key : string) (hs : option (list (string * string)))
  : list (string * string) :=
  fold_left (fun acc '(k, v) => Js.obj_set acc k v)
    (Js.Object_entries (default [] hs))
    [("X-API-key", key); ("Content-Type", "application/json")].

(** [acc[key] = s] for a string [s]: assigning a primitive to [__proto__]
    stores nothing. *)
Definition set_header (acc : list (string * string)) (key s : string)
  : list (string * string) :=
  if String.eqb key "__proto__" then acc else Js.obj_set acc key s.

(** The conversion of the response headers to strings. *)
Fixpoint convert_headers (acc : list (string * string))
    (entries : list (string * JsonValue)) : Outcome (list (string * string)) :=
  match entries with
  | [] => Returned acc
  | (key, JStr s) :: rest => convert_headers (set_header acc key s) rest
  | (key, JNull) :: rest => convert_headers acc rest
  | (key, value) :: rest =>
      bindO (Js.ToString value) (fun s => convert_headers (set_header acc key s) rest)
  end.

(** What the [try] block ends in: the text it returns, or the value it
    throws, which the [catch] clause receives. *)
Inductive Attempt (A : Type) : Type :=
| Completed (a : A)
| Throws (thrown : Caught)
| NotModelled.
Arguments Completed {A} a.
Arguments Throws {A} thrown.
Arguments NotModelled {A}.

(** Every [JsError] is an [Error] object. *)
Definition of_outcome {A} (o : Outcome A) : Attempt A :=
  match o with
  | Returned a => Completed a
  | Thrown (TypeError m) => Throws (CaughtError m)
  | Thrown (McpError _ m) => Throws (CaughtError m)
  | Unmodelled => NotModelled
  end.

Section Gateway.

(** [JSON.stringify], compact and with an indent of two. *)
Variable JSON_stringify : JsonValue -> string.
Variable JSON_stringify_pretty : JsonValue -> string.

Definition build_request (config : ServerConfig) (key : string)
    (args : InvokeApiEndpointArgs) : Outcome RequestConfig :=
  bindO (build_url config (arg_path args) (arg_parameters args)) (fun url =>
    Returned {| rc_method := arg_method args;
                rc_url := url;
                rc_headers := build_headers key (arg_headers args);
                rc_data := (fun b => JSON_stringify (JObj b)) <$> arg_body args;
                rc_timeout := 30000 |}).

(** The [try] block of [handleInvokeApiEndpoint]. *)
Definition try_invoke (config : ServerConfig) (world : World) (key : string)
    (endpointDetails : EndpointDetails) (args : InvokeApiEndpointArgs)
  : list Event * Attempt string :=
  match of_outcome (build_request config key args) with
  | Throws thrown => ([], Throws thrown)
  | NotModelled => ([], NotModelled)
  | Completed requestConfig =>
      match axios world requestConfig with
      | Rejected thrown => ([HttpCall requestConfig], Throws thrown)
      | Fulfilled r =>
          ([HttpCall requestConfig],
           of_outcome
             (bindO (convert_headers [] (Js.Object_entries (default [] (ar_headers r))))
                (fun hs =>
                   formatApiResponse JSON_stringify_pretty
                     {| status := ar_status r; statusText := ar_statusText r;
                        data := ar_data r; headers := Some hs |}
                     endpointDetails (rc_url requestConfig)
                     {| ri_path := arg_path args; ri_method := arg_method args |})))
      end
  end.

(** The record the [catch] clause builds from what it caught. *)
Definition api_error_of (thrown : Caught) : ApiError :=
  match thrown with
  | CaughtAxios e =>
      {| message := ae_message e;
         code := ae_code e;
         response :=
           (fun r => {| aer_status := ar_status r;
                        aer_statusText := ar_statusText r;
                        aer_data := ar_data r |}) <$> ae_response e |}
  | CaughtError m => {| message := m; code := None; response := None |}
  | CaughtOther t => {| message := t; code := None; response := None |}
  end.

Definition catch_invoke (config : ServerConfig) (args : InvokeApiEndpointArgs)
    (thrown : Caught) : string :=
  formatApiError JSON_stringify_pretty (api_error_of thrown)
    {| ri_path := arg_path args; ri_method := arg_method args |}
    (template (baseUrl config) +:+ arg_path args).

(** [handleInvokeApiEndpoint(args)]: the I/O events in order, and the
    text of the reply or the error thrown to the caller. *)
Definition handleInvokeApiEndpoint (config : ServerConfig) (world : World)
    (args : InvokeApiEndpointArgs) : list Event * Outcome string :=
  if readOnlyMode config then
    ([], Thrown (McpError InvalidRequest
       "API calls are disabled in read-only mode. Use environment variable IRON_READ_ONLY_MODE=false to enable."))
  else if negb (truthy_string (apiKey config)) then
    ([], Thrown (McpError InvalidRequest
       "API key is required. Set the IRON_API_KEY environment variable."))
  else
    let key := default "" (apiKey config) in
    match loadOpenApiSpec world with
    | Thrown e => ([SpecLoad], Thrown e)
    | Unmodelled => ([SpecLoad], Unmodelled)
    | Returned spec =>
        match getEndpointDetails spec (arg_path args) (arg_method args) with
        | Thrown e => ([SpecLoad], Thrown e)
        | Unmodelled => ([SpecLoad], Unmodelled)
        | Returned None =>
            ([SpecLoad], Thrown (McpError InvalidRequest
               ("Endpoint not found: " +:+ arg_method args +:+ " " +:+ arg_path args)))
        | Returned (Some endpointDetails) =>
            let '(events, attempt) :=
              try_invoke config world key endpointDetails args in
            (SpecLoad :: events,
             match attempt with
             | Completed text => Returned text
             | Throws thrown => Returned (catch_invoke config args thrown)
             | NotModelled => Unmodelled
             end)
        end
    end.

End Gateway.

(* ===================================================================== *)
(** ** The reference resolver *)
(* ===================================================================== *)

(** What a run of the resolver ends in.  A run that returns also leaves
    the [visited] set, a mutable [Set] shared by the whole recursion, in a
    new state. *)
Inductive Resolution (A : Type) : Type :=
| Resolved (a : A) (visited : gset string)
| Failed (e : JsError)
| BeyondModel
| OutOfFuel.
Arguments Resolved {A} a visited.
Arguments Failed {A} e.
Arguments BeyondModel {A}.
Arguments OutOfFuel {A}.

Definition bindR {A B} (m : Resolution A)
    (f : A -> gset string -> Resolution B) : Resolution B :=
  match m with
  | Resolved a visited => f a visited
  | Failed e => Failed e
  | BeyondModel => BeyondModel
  | OutOfFuel => OutOfFuel
  end.

(** [ref.split("/")], the test of the first three parts, and [parts[3]] as
    the property key it is used for. *)
Definition schema_name_of_ref (ref : string) : option string :=
  match JsString.split "/" ref with
  | p0 :: p1 :: p2 :: rest =>
      if String.eqb p0 "#" && String.eqb p1 "components" && String.eqb p2 "schemas"
      then Some (match rest with [] => "undefined" | schemaName :: _ => schemaName end)
      else None
  | _ => None
  end.

(** [obj.map(item => f(item))] with the shared set threaded through. *)
Fixpoint map_items (f : JsonValue -> gset string -> Resolution JsonValue)
    (items : list JsonValue) (visited : gset string)
  : Resolution (list JsonValue) :=
  match items with
  | [] => Resolved [] visited
  | item :: rest =>
      bindR (f item visited) (fun item' visited1 =>
      bindR (map_items f rest visited1) (fun rest' visited2 =>
      Resolved (item' :: rest') visited2))
  end.

(** The loop [resolved[key] = f(value)] over the entries.  Assigning to
    [__proto__] stores no property: a primitive is ignored, an object or
    [null] replaces the prototype of [resolved]. *)
Fixpoint assign_entries (f : JsonValue -> gset string -> Resolution JsonValue)
    (entries : list (string * JsonValue)) (resolved : list (string * JsonValue))
    (visited : gset string) : Resolution (list (string * JsonValue)) :=
  match entries with
  | [] => Resolved resolved visited
  | (key, value) :: rest =>
      if isJsonValue value then
        bindR (f value visited) (fun value' visited1 =>
          if String.eqb key "__proto__" then
            if Js.typeof_object value' then BeyondModel
            else assign_entries f rest resolved visited1
          else assign_entries f rest (Js.obj_set resolved key value') visited1)
      else assign_entries f rest resolved visited
  end.

(** The body of [resolveSchemaReferences(obj, spec, visited)], its
    recursive calls going to [self].  A reference whose schema name is
    found only on [Object.prototype] resolves to a built-in, which is no
    [JsonValue]. *)
Definition resolve_body (self : JsonValue -> gset string -> Resolution JsonValue)
    (spec : OpenAPISpec) (obj : JsonValue) (visited : gset string)
  : Resolution JsonValue :=
  match obj with
  | JNull | JBool _ | JNum _ | JStr _ => Resolved obj visited
  | JArr items =>
      bindR (map_items self items visited)
        (fun items' visited' => Resolved (JArr items') visited')
  | JObj o =>
      match Js.own_get o "$ref" with
      | Some (JStr ref) =>
          if decide (ref ∈ visited) then
            Resolved (JObj [("$ref", JStr ref)]) visited
          else
            let visited' := {[ref]} ∪ visited in
            match schema_name_of_ref ref with
            | Some schemaName =>
                match schemas spec with
                | Some table =>
                    match Js.js_get table schemaName with
                    | Js.Own referencedSchema =>
                        if Js.truthy referencedSchema
                        then self referencedSchema visited'
                        else Resolved obj visited'
                    | Js.Inherited _ => BeyondModel
                    | Js.Undefined => Resolved obj visited'
                    end
                | None => Resolved obj visited'
                end
            | None => Resolved obj visited'
            end
      | Some JNull =>
          Failed (TypeError "Cannot read properties of null (reading 'split')")
      | Some _ => Failed (TypeError "ref.split is not a function")
      | None =>
          bindR (assign_entries self (Js.Object_entries o) [] visited)
            (fun resolved visited' => Resolved (JObj resolved) visited')
      end
  end.

(** [resolveSchemaReferences], with [fuel] bounding the depth of the
    recursion. *)
Fixpoint resolveSchemaReferences (fuel : nat) (spec : OpenAPISpec)
    (obj : JsonValue) (visited : gset string) : Resolution JsonValue :=
  match fuel with
  | O => OutOfFuel
  | S fuel' => resolve_body (resolveSchemaReferences fuel' spec) spec obj visited
  end.

(** A top-level call: the default argument creates a new empty set. *)
Definition resolve (fuel : nat) (spec : OpenAPISpec) (obj : JsonValue)
  : Resolution JsonValue :=
  resolveSchemaReferences fuel spec obj ∅.

(* ===================================================================== *)
(** ** The reference resolver over a store of mutable objects *)
(* ===================================================================== *)

(** The resolver again, with JavaScript's objects as they are: cells of a
    store, held by reference, so that what the function allocates and what
    it writes can be told apart from what it was given. *)
Module Store.

Abbreviation loc := nat (only parsing).

(** A value: a primitive, or a reference to a cell. *)
Inductive Value : Type :=
| VNull
| VBool (b : bool)
| VNum (n : Z)
| VStr (s : string)
| VRef (l : loc).

#[global] Instance Value_eq_dec : EqDecision Value.
Proof. solve_decision. Defined.

(** A cell: an array, a plain object, or a [Set] with its members in
  insertion order. *)
Inductive Cell : Type :=
| CArray (items : list Value)
| CObject (props : list (string * Value))
| CSet (members : list Value).

Abbreviation store := (gmap nat Cell) (only parsing).

Inductive Outcome (A : Type) : Type :=
| Returned (a : A)
| Thrown (e : JsError)
| BeyondModel
| OutOfFuel.
Arguments Returned {A} a.
Arguments Thrown {A} e.
Arguments BeyondModel {A}.
Arguments OutOfFuel {A}.

(** A computation reads and writes the store; the store it leaves is kept
  whatever the outcome. *)
Definition Run (A : Type) : Type := store -> Outcome A * store.

Definition ret {A} (a : A) : Run A := fun h => (Returned a, h).

Definition stop {A} (o : Outcome A) : Run A := fun h => (o, h).

Definition bind {A B} (m : Run A) (f : A -> Run B) : Run B :=
fun h =>
  match m h with
  | (Returned a, h') => f a h'
  | (Thrown e, h') => (Thrown e, h')
  | (BeyondModel, h') => (BeyondModel, h')
  | (OutOfFuel, h') => (OutOfFuel, h')
  end.

(** A new cell, at a location the store does not use. *)
Definition alloc (c : Cell) : Run loc :=
fun h => let l := fresh (dom h) in (Returned l, <[l := c]> h).

Definition read (l : loc) : Run Cell :=
fun h => match h !! l with
         | Some c => (Returned c, h)
         | None => (BeyondModel, h)
         end.

Definition write (l : loc) (c : Cell) : Run unit :=
fun h => (Returned tt, <[l := c]> h).

Definition truthy (v : Value) : bool :=
match v with
| VNull => false
| VBool b => b
| VNum n => negb (n =? 0)%Z
| VStr s => negb (String.eqb s "")
| VRef _ => true
end.

(** [value.every(f)]: stops at the first [false]. *)
Fixpoint every (f : Value -> Run bool) (l : list Value) : Run bool :=
match l with
| [] => ret true
| x :: rest => bind (f x) (fun b => if b then every f rest else ret false)
end.

(** [isJsonValue(value)]. *)
Fixpoint isJsonValue (fuel : nat) (value : Value) : Run bool :=
match fuel with
| O => stop OutOfFuel
| S fuel' =>
    match value with
    | VRef l =>
        bind (read l) (fun c =>
          match c with
          | CArray items => every (isJsonValue fuel') items
          | CObject props => every (isJsonValue fuel') (map snd (Js.Object_entries props))
          | CSet _ => ret true
          end)
    | _ => ret true
    end
end.

(** [obj.map(item => self(item))]: the callbacks run in order, then the
  new array exists. *)
Fixpoint map_items (self : Value -> Run Value) (items : list Value)
: Run (list Value) :=
match items with
| [] => ret []
| item :: rest =>
    bind (self item) (fun item' =>
    bind (map_items self rest) (fun rest' => ret (item' :: rest')))
end.

(** The loop [resolved[key] = self(value)] over the entries read when the
  loop starts; each assignment is a write to the cell of [resolved]. *)
Fixpoint assign_entries (fuel : nat) (self : Value -> Run Value)
  (entries : list (string * Value)) (resolved : loc) : Run unit :=
match entries with
| [] => ret tt
| (key, value) :: rest =>
    bind (isJsonValue fuel value) (fun ok =>
      if ok then
        bind (self value) (fun value' =>
          if String.eqb key "__proto__" then
            match value' with
            | VRef _ | VNull => stop BeyondModel
            | _ => assign_entries fuel self rest resolved
            end
          else
            bind (read resolved) (fun c =>
              match c with
              | CObject props =>
                  bind (write resolved (CObject (Js.obj_set props key value')))
                    (fun _ => assign_entries fuel self rest resolved)
              | _ => stop BeyondModel
              end))
      else assign_entries fuel self rest resolved)
end.

(** The body of [resolveSchemaReferences(obj, spec, visited)]; [table] is
  the location of [spec.components?.schemas] when there is one, and
  [visited] that of the [Set]. *)
Definition resolve_body (fuel : nat) (self : Value -> Run Value)
  (table : option loc) (visited : loc) (obj : Value) : Run Value :=
match obj with
| VRef l =>
    bind (read l) (fun c =>
      match c with
      | CArray items =>
          bind (map_items self items) (fun items' =>
          bind (alloc (CArray items')) (fun l' => ret (VRef l')))
      | CObject props =>
          match Js.own_get props "$ref" with
          | Some ref =>
              bind (read visited) (fun s =>
                match s with
                | CSet members =>
                    if decide (ref ∈ members) then
                      bind (alloc (CObject [("$ref", ref)])) (fun l' => ret (VRef l'))
                    else
                      bind (write visited (CSet (members ++ [ref]))) (fun _ =>
                        match ref with
                        | VStr r =>
                            match schema_name_of_ref r, table with
                            | Some schemaName, Some t =>
                                bind (read t) (fun tc =>
                                  match tc with
                                  | CObject schemas =>
                                      match Js.js_get schemas schemaName with
                                      | Js.Own referencedSchema =>
                                          if truthy referencedSchema
                                          then self referencedSchema
                                          else ret obj
                                      | Js.Inherited _ => stop BeyondModel
                                      | Js.Undefined => ret obj
                                      end
                                  | _ => stop BeyondModel
                                  end)
                            | _, _ => ret obj
                            end
                        | VNull =>
                            stop (Thrown (TypeError
                              "Cannot read properties of null (reading 'split')"))
                        | _ => stop (Thrown (TypeError "ref.split is not a function"))
                        end)
                | _ => stop (Thrown (TypeError "visited.has is not a function"))
                end)
          | None =>
              bind (alloc (CObject [])) (fun resolved =>
              bind (assign_entries fuel self (Js.Object_entries props) resolved)
                (fun _ => ret (VRef resolved)))
          end
      | CSet _ =>
          bind (alloc (CObject [])) (fun resolved => ret (VRef resolved))
      end)
| _ => ret obj
end.

Fixpoint resolveSchemaReferences (fuel : nat) (table : option loc)
  (visited : loc) (obj : Value) : Run Value :=
match fuel with
| O => stop OutOfFuel
| S fuel' =>
    resolve_body fuel' (resolveSchemaReferences fuel' table visited)
      table visited obj
end.

(** A top-level call: the default argument [new Set()] is evaluated at the
  call. *)
Definition resolve (fuel : nat) (table : option loc) (obj : Value) : Run Value :=
bind (alloc (CSet [])) (fun visited =>
  resolveSchemaReferences fuel table visited obj).

(** Laying a value out in the store, and reading one back. *)
Fixpoint store_value (v : JsonValue) : Run Value :=
match v with
| JNull => ret VNull
| JBool b => ret (VBool b)
| JNum n => ret (VNum n)
| JStr s => ret (VStr s)
| JArr items =>
    bind ((fix go (l : list JsonValue) : Run (list Value) :=
             match l with
             | [] => ret []
             | x :: l' => bind (store_value x) (fun x' =>
                          bind (go l') (fun r => ret (x' :: r)))
             end) items)
      (fun items' => bind (alloc (CArray items')) (fun l => ret (VRef l)))
| JObj o =>
    bind ((fix go (l : list (string * JsonValue)) : Run (list (string * Value)) :=
             match l with
             | [] => ret []
             | (k, x) :: l' => bind (store_value x) (fun x' =>
                               bind (go l') (fun r => ret ((k, x') :: r)))
             end) o)
      (fun props => bind (alloc (CObject props)) (fun l => ret (VRef l)))
end.

Fixpoint load_value (fuel : nat) (h : store) (v : Value) : option JsonValue :=
match fuel with
| O => None
| S fuel' =>
    match v with
    | VNull => Some JNull
    | VBool b => Some (JBool b)
    | VNum n => Some (JNum n)
    | VStr s => Some (JStr s)
    | VRef l =>
        match h !! l with
        | Some (CArray items) => JArr <$> mapM (load_value fuel' h) items
        | Some (CObject props) =>
            JObj <$> mapM (fun kv => pair (fst kv) <$> load_value fuel' h (snd kv)) props
        | _ => None
        end
    end
end.

End Store.

(* ===================================================================== *)
(** ** index.ts: argument guards, configuration, loading, tool dispatch *)
(* ===================================================================== *)

(** [typeof v === "string"] of a property read. *)
Definition is_string (v : option JsonValue) : bool :=
  match v with Some (JStr _) => true | _ => false end.

(** [typeof args === "object" && args !== null], on the arguments of a
    request ([undefined] when the request has none). *)
Definition isListAllEndpointsArgs (args : option JsonValue) : bool :=
  match args with
  | Some v => Js.typeof_object v && negb (Js.is_null v)
  | None => false
  end.

(** The guards read properties that no prototype defines ([path],
    [method], [goal], [response_data], [endpoint_path],
    [endpoint_method]): [name in args] is an own-key test, and a property
    that is a string is an own property. *)
Definition has_strings (names : list string) (args : option JsonValue) : bool :=
  match args with
  | Some v =>
      Js.typeof_object v && negb (Js.is_null v) &&
      forallb (fun name => Js.js_in name v) names &&
      forallb (fun name => is_string (Js.field v name)) names
  | None => false
  end.

Definition isGetApiSpecsArgs : option JsonValue -> bool :=
  has_strings ["path"; "method"].

Definition isInvokeApiEndpointArgs : option JsonValue -> bool :=
  has_strings ["path"; "method"].

Definition isFindEndpointPromptArgs : option JsonValue -> bool :=
  has_strings ["goal"].

Definition isTestEndpointPromptArgs : option JsonValue -> bool :=
  has_strings ["path"; "method"].

Definition isAnalyzeResponsePromptArgs : option JsonValue -> bool :=
  has_strings ["response_data"; "endpoint_path"; "endpoint_method"].

(** A string property of guarded arguments. *)
Definition string_field (args : option JsonValue) (name : string) : string :=
  match args with
  | Some v => match Js.field v name with Some (JStr s) => s | _ => "" end
  | None => ""
  end.

(** What the transport hands back for the document: a text, or a body the
    transport has parsed already. *)
Inductive ResponseData : Type :=
| TextData (text : string)
| ParsedData (value : JsonValue).

(** The host as the server sees it.  A failure carries the text
    [String(error)] of what was thrown.  A parsed document is taken to have
    the shape the cast [as OpenAPISpec] asserts. *)
Record Host : Type := {
  axios_get : string -> ResponseData + string;
  readFileSync : option string -> string + string;
  yaml_load : string -> OpenAPISpec + string;
  JSON_parse : string -> OpenAPISpec + string;
  axios_request : RequestConfig -> AxiosResult
}.

Inductive Effect : Type :=
| ConsoleError (text : string)
| AxiosGet (url : string)
| ReadFile (path : option string)
| AxiosRequest (request : RequestConfig).

Definition environment_name (e : Environment) : string :=
  match e with sandbox => "sandbox" | production => "production" end.

(** The JSON view of the records the handlers print: a property whose
    value is [undefined] is left out by [JSON.stringify]. *)
Definition optional_property (name : string) (v : option JsonValue)
  : list (string * JsonValue) :=
  match v with Some x => [(name, x)] | None => [] end.

Definition endpoint_json (e : EndpointSummary) : JsonValue :=
  JObj ([("path", JStr (es_path e)); ("method", JStr (es_method e))]
        ++ optional_property "summary" (es_summary e)
        ++ optional_property "description" (es_description e)
        ++ optional_property "operationId" (es_operationId e)
        ++ optional_property "tags" (es_tags e)).

Definition summary_json (result : ApiSummary) : JsonValue :=
  JObj (optional_property "info" (as_info result)
        ++ [("totalEndpoints", JNum (Z.of_nat (totalEndpoints result)));
            ("endpointsByTag",
             JObj (map (fun tb => (fst tb, JArr (map endpoint_json (snd tb))))
                       (endpointsByTag result)))]).

Definition details_json (d : EndpointDetails) : JsonValue :=
  JObj (optional_property "summary" (ed_summary d)
        ++ optional_property "description" (ed_description d)
        ++ optional_property "operationId" (ed_operationId d)
        ++ optional_property "parameters" (ed_parameters d)
        ++ optional_property "requestBody" (ed_requestBody d)
        ++ optional_property "responses" (ed_responses d)
        ++ optional_property "tags" (ed_tags d)).

Module Server.

(** [process.env]. *)
Definition Env : Type := string -> option string.

(** [a || b] on optional strings. *)
Definition or_else (a b : option string) : option string :=
if truthy_string a then a else b.

(** The object [loadConfig] returns.  The environment is whatever
  [IRON_ENVIRONMENT] holds: the cast to the two declared names checks
  nothing. *)
Record Configuration : Type := {
cfg_environment : string;
cfg_openApiSpecUrl : option string;
cfg_localSpecPath : option string;
cfg_apiKey : option string;
cfg_readOnlyMode : bool;
cfg_baseUrl : option string
}.

Definition defaultSpecUrls : list (string * string) :=
[("sandbox", "https://api.sandbox.iron.xyz/spec");
 ("production", "https://api.iron.xyz/spec")].

Definition defaultBaseUrls : list (string * string) :=
[("sandbox", "https://api.sandbox.iron.xyz/api");
 ("production", "https://api.iron.xyz/api")].

(** [process.env.NAME || defaults[environment]]: the table is read only
  when the variable is unset or empty; a name found on
  [Object.prototype] gives a value that is no string. *)
Definition variable_or_default (variable : option string)
  (defaults : list (string * string)) (environment : string)
: Outcome (option string) :=
if truthy_string variable then Returned variable
else match Js.js_get defaults environment with
     | Js.Own url => Returned (Some url)
     | Js.Undefined => Returned None
     | Js.Inherited _ => Unmodelled
     end.

(** [loadConfig()]; [bundledSpecPath] is
  [path.join(__dirname, "..", "ironxyz-openapi-spec.yaml")]. *)
Definition loadConfig (env : Env) (bundledSpecPath : string) : Outcome Configuration :=
let environment := default "production" (or_else (env "IRON_ENVIRONMENT") (Some "production")) in
bindO (variable_or_default (env "IRON_OPENAPI_SPEC_URL") defaultSpecUrls environment)
  (fun specUrl =>
bindO (variable_or_default (env "IRON_BASE_URL") defaultBaseUrls environment)
  (fun base =>
Returned
  {| cfg_environment := environment;
     cfg_openApiSpecUrl := specUrl;
     cfg_localSpecPath := or_else (env "IRON_LOCAL_SPEC_PATH") (Some bundledSpecPath);
     cfg_apiKey := env "IRON_API_KEY";
     cfg_readOnlyMode :=
       match env "IRON_READ_ONLY_MODE" with
       | Some v => String.eqb v "true"
       | None => false
       end;
     cfg_baseUrl := base |})).

(** The configuration as [ServerConfig] types it, when the environment is
  one of the two declared names. *)
Definition declared_environment (name : string) : option Environment :=
if String.eqb name "sandbox" then Some sandbox
else if String.eqb name "production" then Some production
else None.

Definition server_config (c : Configuration) : option ServerConfig :=
(fun e =>
   {| environment := e;
      openApiSpecUrl := cfg_openApiSpecUrl c;
      localSpecPath := cfg_localSpecPath c;
      apiKey := cfg_apiKey c;
      readOnlyMode := cfg_readOnlyMode c;
      baseUrl := cfg_baseUrl c |}) <$> declared_environment (cfg_environment c).

Section Handlers.

(** [JSON.stringify], compact and with an indent of two. *)
Variable JSON_stringify : JsonValue -> string.
Variable JSON_stringify_pretty : JsonValue -> string.

Variable config : ServerConfig.
Variable host : Host.

(** [fs.readFileSync(this.config.localSpecPath!, "utf8")]. *)
Definition read_local : list Effect * (string + string) :=
([ReadFile (localSpecPath config)], readFileSync host (localSpecPath config)).

(** The text of the document: fetched when a URL is configured, read from
the local file when there is none or the fetch fails. *)
Definition spec_content : list Effect * (string + string) :=
if truthy_string (openApiSpecUrl config) then
let url := template (openApiSpecUrl config) in
match axios_get host url with
| inl responseData =>
    ([ConsoleError ("Loading OpenAPI spec from: " +:+ url); AxiosGet url],
     inl (match responseData with
          | TextData text => text
          | ParsedData value => JSON_stringify value
          end))
| inr fetchError =>
    ([ConsoleError ("Loading OpenAPI spec from: " +:+ url); AxiosGet url;
      ConsoleError ("Failed to fetch OpenAPI spec from URL: " +:+ fetchError);
      ConsoleError ("Falling back to local spec file: "
                    +:+ template (localSpecPath config))]
     ++ fst read_local,
     snd read_local)
end
else read_local.

(** [yaml.load(specContent)], and [JSON.parse(specContent)] when that
throws. *)
Definition parse_spec (specContent : string) : OpenAPISpec + string :=
match yaml_load host specContent with
| inl spec => inl spec
| inr _ => JSON_parse host specContent
end.

(** [loadOpenApiSpec()]: what it does, what it ends in, and
[this.openApiSpec] afterwards. *)
Definition loadOpenApiSpec (openApiSpec : option OpenAPISpec)
: list Effect * Outcome OpenAPISpec * option OpenAPISpec :=
match openApiSpec with
| Some spec => ([], Returned spec, openApiSpec)
| None =>
  let failed (error : string) : Outcome OpenAPISpec :=
    Thrown (McpError InternalError ("Failed to load OpenAPI spec: " +:+ error)) in
  match snd spec_content with
  | inr error => (fst spec_content, failed error, None)
  | inl specContent =>
      match parse_spec specContent with
      | inr error => (fst spec_content, failed error, None)
      | inl spec =>
          (fst spec_content ++
           [ConsoleError ("Successfully loaded OpenAPI spec for "
                          +:+ environment_name (environment config)
                          +:+ " environment")],
           Returned spec, Some spec)
      end
  end
end.

(** [handleGetApiSpecs(args)] once the document is loaded. *)
Definition handleGetApiSpecs (spec : OpenAPISpec) (path method : string)
: Outcome string :=
bindO (getEndpointDetails spec path method) (fun endpointDetails =>
match endpointDetails with
| None =>
    Thrown (McpError InvalidRequest
              ("Endpoint not found: " +:+ method +:+ " " +:+ path))
| Some d => Returned (JSON_stringify_pretty (details_json d))
end).

(** The text [handleListAllEndpoints] returns.  A [filterByTag] that is
falsy is no filter; one that is truthy and no string is not
modelled, nor is the printing of a bucket found on
[Object.prototype]. *)
Definition list_all_endpoints (spec : OpenAPISpec) (args : JsonValue)
: Outcome string :=
let reply (filterByTag : option string) :=
bindO (handleListAllEndpoints spec filterByTag) (fun r =>
  match r with
  | Summary result => Returned (JSON_stringify_pretty (summary_json result))
  | InheritedBucket _ _ _ => Unmodelled
  end) in
match Js.field args "filterByTag" with
| None => reply None
| Some (JStr tag) => reply (Some tag)
| Some v => if Js.truthy v then Unmodelled else reply None
end.

(** The optional arguments of [invoke-api-endpoint], which the guard does
not look at, as [InvokeApiEndpointArgs] declares them: objects, the
header values strings.  [null] does what a missing argument does;
other values are not modelled. *)
Definition object_argument (v : option JsonValue)
: option (option (list (string * JsonValue))) :=
match v with
| None | Some JNull => Some None
| Some (JObj o) => Some (Some o)
| Some _ => None
end.

Fixpoint string_values (o : list (string * JsonValue))
: option (list (string * string)) :=
match o with
| [] => Some []
| (k, JStr s) :: rest => (fun r => (k, s) :: r) <$> string_values rest
| _ => None
end.

Definition invoke_arguments (args : option JsonValue) : option InvokeApiEndpointArgs :=
match args with
| Some v =>
  match object_argument (Js.field v "parameters"),
        object_argument (Js.field v "body"),
        object_argument (Js.field v "headers") with
  | Some parameters, Some body, Some headers =>
      match headers with
      | None =>
          Some {| arg_path := string_field args "path";
                  arg_method := string_field args "method";
                  arg_parameters := parameters;
                  arg_body := body;
                  arg_headers := None |}
      | Some hs =>
          (fun typed =>
             {| arg_path := string_field args "path";
                arg_method := string_field args "method";
                arg_parameters := parameters;
                arg_body := body;
                arg_headers := Some typed |}) <$> string_values hs
      end
  | _, _, _ => None
  end
| None => None
end.

(** A handler that starts with [await this.loadOpenApiSpec()]. *)
Definition with_spec (openApiSpec : option OpenAPISpec)
(handler : OpenAPISpec -> Outcome string)
: list Effect * Outcome string * option OpenAPISpec :=
let '(effects, loaded, openApiSpec') := loadOpenApiSpec openApiSpec in
(effects, bindO loaded handler, openApiSpec').

(** [handleInvokeApiEndpoint(args)] on this server: the document comes
from [loadOpenApiSpec], the call goes to the transport. *)
Definition invoke (openApiSpec : option OpenAPISpec) (args : InvokeApiEndpointArgs)
: list Effect * Outcome string * option OpenAPISpec :=
let '(effects, loaded, openApiSpec') := loadOpenApiSpec openApiSpec in
let '(events, outcome) :=
handleInvokeApiEndpoint JSON_stringify JSON_stringify_pretty config
  (Build_World loaded (axios_request host)) args in
(flat_map (fun e => match e with
                  | SpecLoad => effects
                  | HttpCall request => [AxiosRequest request]
                  end) events,
outcome,
if existsb (fun e => match e with SpecLoad => true | _ => false end) events
then openApiSpec' else openApiSpec).

(** The [catch] clause of the two request handlers: an [McpError] goes
through, anything else is wrapped. *)
Definition wrap_error (what : string) (e : JsError) : JsError :=
match e with
| McpError code message => McpError code message
| TypeError message => McpError InternalError (what +:+ message)
end.

Definition rethrow {S} (what : string)
(run : list Effect * Outcome string * S) : list Effect * Outcome string * S :=
match run with
| (effects, Thrown e, s) => (effects, Thrown (wrap_error what e), s)
| _ => run
end.

(** The handler of [CallToolRequestSchema]: [name] and [arguments] of the
request, and [this.openApiSpec] before and after. *)
Definition callTool (name : string) (args : option JsonValue)
(openApiSpec : option OpenAPISpec)
: list Effect * Outcome string * option OpenAPISpec :=
let invalid (tool : string) : list Effect * Outcome string * option OpenAPISpec :=
([], Thrown (McpError InvalidParams ("Invalid arguments for " +:+ tool)),
 openApiSpec) in
rethrow "Tool execution failed: "
(if String.eqb name "list-all-endpoints" then
   match args with
   | Some v =>
       if isListAllEndpointsArgs args
       then with_spec openApiSpec (fun spec => list_all_endpoints spec v)
       else invalid "list-all-endpoints"
   | None => invalid "list-all-endpoints"
   end
 else if String.eqb name "get-api-specs" then
   if isGetApiSpecsArgs args
   then with_spec openApiSpec (fun spec =>
          handleGetApiSpecs spec (string_field args "path")
            (string_field args "method"))
   else invalid "get-api-specs"
 else if String.eqb name "invoke-api-endpoint" then
   if isInvokeApiEndpointArgs args
   then match invoke_arguments args with
        | Some typed => invoke openApiSpec typed
        | None => ([], Unmodelled, openApiSpec)
        end
   else invalid "invoke-api-endpoint"
 else
   ([], Thrown (McpError MethodNotFound ("Unknown tool: " +:+ name)),
    openApiSpec)).

End Handlers.

End Server.

(* ===================================================================== *)
(** ** prompts/findEndpoint.ts: what the prompt recommends *)
(* ===================================================================== *)

Module FindEndpoint.

(** [s.includes(sub)]. *)
Fixpoint includes (s sub : string) : bool :=
String.prefix sub s ||
match s with
| EmptyString => false
| String _ s' => includes s' sub
end.

(** A value interpolated in a template literal. *)
Definition interpolated (v : option JsonValue) : Outcome string :=
match v with
| Some x => Js.ToString x
| None => Returned "undefined"
end.

(** The text the keywords are looked for in: summary, description, path
  and operation id, lower-cased.  The method is not part of it. *)
Definition searchText (endpoint : EndpointSummary) : Outcome string :=
bindO (interpolated (es_summary endpoint)) (fun summary =>
bindO (interpolated (es_description endpoint)) (fun description =>
bindO (interpolated (es_operationId endpoint)) (fun operationId =>
Returned (JsString.toLowerCase
  (summary +:+ " " +:+ description +:+ " " +:+ es_path endpoint
     +:+ " " +:+ operationId))))).

(** The callback of [filter]: the chain of keyword tests. *)
Definition relevant (goalLower : string) (endpoint : EndpointSummary) : Outcome bool :=
bindO (searchText endpoint) (fun text =>
  let goal := includes goalLower in
  let found := includes text in
  Returned
    (if goal "create" && (found "create" || found "post") then true
     else if goal "get" && found "get" then true
     else if goal "list" && (found "list" || found "get all") then true
     else if goal "update" && (found "update" || found "put") then true
     else if goal "delete" && found "delete" then true
     else if goal "customer" && found "customer" then true
     else if goal "transaction" && found "transaction" then true
     else if goal "autoramp" && found "autoramp" then true
     else if goal "payment" && found "payment" then true
     else if goal "address" && found "address" then true
     else if goal "webhook" && found "webhook" then true
     else false)).

(** [endpoints.filter(...)]. *)
Fixpoint relevantEndpoints (goalLower : string) (endpoints : list EndpointSummary)
: Outcome (list EndpointSummary) :=
match endpoints with
| [] => Returned []
| endpoint :: rest =>
    bindO (relevant goalLower endpoint) (fun keep =>
    bindO (relevantEndpoints goalLower rest) (fun kept =>
    Returned (if keep then endpoint :: kept else kept)))
end.

(** The loop over the categories: a category is pushed when it has a
  relevant endpoint. *)
Fixpoint collect (goalLower : string)
  (entries : list (string * list EndpointSummary))
: Outcome (list (string * list EndpointSummary)) :=
match entries with
| [] => Returned []
| (category, endpoints) :: rest =>
    bindO (relevantEndpoints goalLower endpoints) (fun kept =>
    bindO (collect goalLower rest) (fun matches =>
    Returned (if (0 <? length kept)%nat then (category, kept) :: matches
              else matches)))
end.

(** [matches], for a goal and the summary of the document. *)
Definition matches (goal : string) (summary : ApiSummary)
: Outcome (list (string * list EndpointSummary)) :=
collect (JsString.toLowerCase goal) (Js.Object_entries (endpointsByTag summary)).

(** What the text shows of them: [matches.slice(0, 2)], and of each
  [match.endpoints.slice(0, 2)]. *)
Definition shown (matches : list (string * list EndpointSummary))
: list (string * list EndpointSummary) :=
map (fun m => (fst m, firstn 2 (snd m))) (firstn 2 matches).

(** [matches[0]?.endpoints[0]], the endpoint of the worked example. *)
Definition exampleEndpoint (matches : list (string * list EndpointSummary))
: option EndpointSummary :=
match matches with
| [] => None
| m :: _ => head (snd m)
end.

End FindEndpoint.
(* ===================================================================== *)
(** ** Induction over values, through arrays and objects *)
(* ===================================================================== *)

Section JsonValueInduction.
Variable P : JsonValue -> Prop.
Hypothesis Hnull : P JNull.
Hypothesis Hbool : forall b, P (JBool b).
Hypothesis Hnum : forall n, P (JNum n).
Hypothesis Hstr : forall s, P (JStr s).
Hypothesis Harr : forall items, Forall P items -> P (JArr items).
Hypothesis Hobj : forall props, Forall (fun kv => P (snd kv)) props -> P (JObj props).

Lemma JsonValue_nested_ind (v : JsonValue) : P v.
Proof.
  revert v. fix IH 1. intros [ | b | n | s | items | props ].
  - exact Hnull.
  - apply Hbool.
  - apply Hnum.
  - apply Hstr.
  - apply Harr. induction items as [|x l IHl]; constructor; [apply IH | exact IHl].
  - apply Hobj. induction props as [|kv l IHl]; constructor; [apply IH | exact IHl].
Qed.
End JsonValueInduction.

(* ===================================================================== *)
(** ** Facts about strings *)
(* ===================================================================== *)

(** Text on which the case mapping of the embedding is JavaScript's. *)
Definition ascii_text (s : string) : Prop :=
  Forall (fun c => nat_of_ascii c < 128) (list_ascii_of_string s).

(** ASCII text without upper-case letters. *)
Definition lowercase_ascii (s : string) : bool :=
  forallb (fun c => (nat_of_ascii c <? 128)%nat && negb (JsString.is_upper c))
    (list_ascii_of_string s).

Lemma lower_upper_char (c : ascii) :
  JsString.lower_char (JsString.upper_char c) = JsString.lower_char c.
Proof.
  destruct c as [[] [] [] [] [] [] [] []]; reflexivity.
Qed.

Lemma lower_upper (s : string) :
  JsString.toLowerCase (JsString.toUpperCase s) = JsString.toLowerCase s.
Proof.
  induction s as [|c s IH]; simpl; [reflexivity|].
  unfold JsString.toLowerCase, JsString.toUpperCase in *. simpl.
  rewrite lower_upper_char, IH. reflexivity.
Qed.

Lemma lower_upper_char_fixed (c : ascii) :
  JsString.is_upper c = false ->
  JsString.lower_char (JsString.upper_char c) = c.
Proof.
  destruct c as [[] [] [] [] [] [] [] []]; intros H; try reflexivity; discriminate H.
Qed.

(** Upper-casing then lower-casing gives back a text that has no
    upper-case letter. *)
Lemma lowercase_ascii_round_trip (s : string) :
  lowercase_ascii s = true ->
  JsString.toLowerCase (JsString.toUpperCase s) = s.
Proof.
  unfold lowercase_ascii, JsString.toLowerCase, JsString.toUpperCase.
  induction s as [|c s IH]; simpl; [reflexivity|].
  intros H. apply andb_prop in H as [Hc Hs]. apply andb_prop in Hc as [_ Hc].
  apply negb_true_iff in Hc.
  rewrite (lower_upper_char_fixed c Hc), (IH Hs). reflexivity.
Qed.

(* ===================================================================== *)
(** ** Facts about objects *)
(* ===================================================================== *)

Section ObjectFacts.
Context {A : Type}.
Implicit Types (o : list (string * A)) (k : string) (a : A).

Lemma own_get_In o k a : Js.own_get o k = Some a -> In (k, a) o.
Proof.
  induction o as [|[k' a'] o IH]; simpl; [discriminate|].
  destruct (String.eqb k' k) eqn:E.
  - apply String.eqb_eq in E. intros [= ->]. left. congruence.
  - intros H. right. auto.
Qed.

Lemma own_get_None o k : Js.own_get o k = None <-> ~ In k (Js.keys o).
Proof.
  induction o as [|[k' a'] o IH]; simpl; [tauto|].
  destruct (String.eqb k' k) eqn:E.
  - apply String.eqb_eq in E. split; [discriminate | intros H; exfalso; apply H; auto].
  - apply String.eqb_neq in E. rewrite IH. tauto.
Qed.

Lemma In_own_get o k a :
  NoDup (Js.keys o) -> In (k, a) o -> Js.own_get o k = Some a.
Proof.
  induction o as [|[k' a'] o IH]; simpl; [tauto|].
  intros Hnd [Heq | Hin].
  - inversion Heq; subst. rewrite String.eqb_refl. reflexivity.
  - apply NoDup_cons in Hnd as [Hk Hnd].
    destruct (String.eqb k' k) eqn:E.
    + apply String.eqb_eq in E. subst k'. exfalso. apply Hk.
      apply list_elem_of_In. unfold Js.keys. apply in_map_iff.
      exists (k, a). auto.
    + auto.
Qed.

Lemma own_get_js_get o k a : Js.own_get o k = Some a -> Js.js_get o k = Js.Own a.
Proof. unfold Js.js_get. intros ->. reflexivity. Qed.

Lemma In_insert_index (n : N) (kv : string * A) l x :
  In x (Js.insert_index n kv l) <-> x = (n, kv) \/ In x l.
Proof.
  induction l as [|[m kv'] l IH]; simpl.
  - intuition.
  - destruct (n <? m)%N; simpl; [intuition | rewrite IH; intuition].
Qed.

Lemma In_index_entries o n kv :
  In (n, kv) (Js.index_entries o) <->
  In kv o /\ JsString.array_index (fst kv) = Some n.
Proof.
  induction o as [|[k a] o IH]; simpl; [tauto|].
  destruct (JsString.array_index k) as [m|] eqn:E.
  - rewrite In_insert_index, IH. split.
    + intros [[= -> ->] | [H1 H2]]; [split; [left; reflexivity | exact E] | tauto].
    + intros [[<- | H1] H2]; simpl in H2.
      * left. congruence.
      * right. tauto.
  - rewrite IH. split; [tauto|].
    intros [[<- | H1] H2]; simpl in H2; [congruence | tauto].
Qed.

(** Enumeration reorders the own properties, it neither drops nor adds
    one. *)
Lemma In_Object_entries o kv : In kv (Js.Object_entries o) <-> In kv o.
Proof.
  unfold Js.Object_entries. rewrite in_app_iff, in_map_iff, filter_In.
  split.
  - intros [[[n kv'] [Heq H]] | [H _]]; [|exact H].
    simpl in Heq. subst kv'. apply In_index_entries in H. tauto.
  - intros H. destruct (JsString.array_index (fst kv)) as [n|] eqn:E.
    + left. exists (n, kv). split; [reflexivity|]. apply In_index_entries. auto.
    + right. split; [exact H|]. unfold Js.is_index. rewrite E. reflexivity.
Qed.


End ObjectFacts.

(* ===================================================================== *)
(** ** Facts about the endpoint index *)
(* ===================================================================== *)

Lemma isOpenAPIOperation_object (v : JsonValue) :
  isOpenAPIOperation (Some v) = true ->
  exists o, v = JObj o.
Proof.
  destruct v; simpl; try discriminate; eauto.
Qed.

Lemma isOpenAPIOperation_truthy (v : JsonValue) :
  isOpenAPIOperation (Some v) = true -> Js.truthy v = true.
Proof.
  intros H. apply isOpenAPIOperation_object in H as [o ->]. reflexivity.
Qed.

Lemma In_extractEndpointSummaries (spec : OpenAPISpec) (e : EndpointSummary) :
  In e (extractEndpointSummaries spec) <->
  exists path pathItem method operation,
    In (path, pathItem) (paths spec) /\
    In (method, operation) pathItem /\
    isOpenAPIOperation (Some operation) = true /\
    e = summary_entry path method operation.
Proof.
  unfold extractEndpointSummaries. rewrite in_flat_map. split.
  - intros [[path pathItem] [Hp He]]. apply (proj1 (In_Object_entries _ _)) in Hp.
    apply in_flat_map in He as [[method operation] [Hm He]].
    apply (proj1 (In_Object_entries _ _)) in Hm.
    destruct (isOpenAPIOperation (Some operation)) eqn:Hop; simpl in He; [|tauto].
    destruct He as [<- | []]. exists path, pathItem, method, operation.
    repeat split; assumption.
  - intros (path & pathItem & method & operation & Hp & Hm & Hop & ->).
    exists (path, pathItem). split; [apply In_Object_entries; exact Hp|].
    apply in_flat_map. exists (method, operation).
    split; [apply In_Object_entries; exact Hm|].
    rewrite Hop. left. reflexivity.
Qed.

(* ===================================================================== *)
(** ** Properties of the endpoint index *)
(* ===================================================================== *)

(** A value is a non-null object when [typeof] says [object] and it is not
    [null]; it carries a key when that key is one of its own properties. *)
Definition non_null_object (value : option JsonValue) : Prop :=
  exists v, value = Some v /\ Js.typeof_object v = true /\ v <> JNull.

Definition carries (value : option JsonValue) (k : string) : Prop :=
  exists o, value = Some (JObj o) /\ In k (Js.keys o).

Lemma js_in_carries (v : JsonValue) (k : string) :
  Js.js_in k v = true <-> carries (Some v) k.
Proof.
  unfold carries. destruct v as [ | | | | | o]; simpl;
    try (split; [discriminate | intros (o' & [=] & _)]).
  destruct (Js.own_get o k) as [a|] eqn:E.
  - split; [|reflexivity]. intros _. exists o. split; [reflexivity|].
    apply own_get_In in E. unfold Js.keys. apply in_map_iff. exists (k, a). auto.
  - split; [discriminate|]. intros (o' & [= <-] & Hin).
    apply own_get_None in E. contradiction.
Qed.

(** C8. The operation check accepts a value exactly when it is a non-null
    object carrying one of [responses], [summary], [description],
    [operationId]; and [extractEndpointSummaries] holds an entry exactly
    for the (path, method key) pairs whose value passes the check, that
    entry being the summary built from the key and the value. *)
Theorem isOpenAPIOperation_boundary :
  (forall value : option JsonValue,
     isOpenAPIOperation value = true <->
     non_null_object value /\ exists k, In k operation_keys /\ carries value k)
  /\
  (forall (spec : OpenAPISpec) (e : EndpointSummary),
     In e (extractEndpointSummaries spec) <->
     exists path pathItem method operation,
       In (path, pathItem) (paths spec) /\
       In (method, operation) pathItem /\
       isOpenAPIOperation (Some operation) = true /\
       e = summary_entry path method operation).
Proof.
  split; [|exact In_extractEndpointSummaries].
  intros [v|]; simpl.
  2:{ split; [discriminate|]. intros [(v & [=] & _) _]. }
  rewrite !andb_true_iff, !orb_true_iff, !js_in_carries, negb_true_iff.
  unfold non_null_object, operation_keys. split.
  - intros [[Hobj Hnn] Hk]. split.
    + exists v. repeat split; [exact Hobj|]. intros ->. discriminate.
    + simpl. destruct Hk as [[[H|H]|H]|H]; eauto 10.
  - intros [(v' & [= <-] & Hobj & Hnn) (k & Hin & Hc)]. split.
    + split; [exact Hobj|]. destruct v; simpl; congruence.
    + simpl in Hin. destruct Hin as [<-|[<-|[<-|[<-|[]]]]]; tauto.
Qed.

(** C10. [getEndpointDetails] runs no operation check: under a path of the
    document, any truthy value stored at the lower-cased method key yields
    a record.  A path-level [parameters] list is such a value although the
    operation check rejects it, and the record then has every field
    undefined. *)
Theorem getEndpointDetails_unchecked :
  (forall (spec : OpenAPISpec) (path method : string) pathItem (v : JsonValue),
     Js.own_get (paths spec) path = Some pathItem ->
     Js.own_get pathItem (JsString.toLowerCase method) = Some v ->
     Js.truthy v = true ->
     getEndpointDetails spec path method = Returned (Some (details_of v)))
  /\
  (forall (spec : OpenAPISpec) (path : string) pathItem (ps : list JsonValue),
     Js.own_get (paths spec) path = Some pathItem ->
     Js.own_get pathItem "parameters" = Some (JArr ps) ->
     isOpenAPIOperation (Some (JArr ps)) = false /\
     getEndpointDetails spec path "PARAMETERS" = Returned (Some undefined_details)).
Proof.
  split.
  - intros spec path method pathItem v Hp Hm Ht. unfold getEndpointDetails.
    rewrite (own_get_js_get _ _ _ Hp), (own_get_js_get _ _ _ Hm), Ht. reflexivity.
  - intros spec path pathItem ps Hp Hm. split; [reflexivity|].
    unfold getEndpointDetails. rewrite (own_get_js_get _ _ _ Hp).
    change (JsString.toLowerCase "PARAMETERS") with "parameters".
    rewrite (own_get_js_get _ _ _ Hm). reflexivity.
Qed.

Definition sample_path_item : list (string * JsonValue) :=
  [ ("parameters", JArr [JObj [("name", JStr "id"); ("in", JStr "path")]]);
    ("get", JObj [("summary", JStr "List customers");
                  ("operationId", JStr "listCustomers");
                  ("tags", JArr [JStr "Customer"])]) ].

Definition sample_spec : OpenAPISpec :=
  {| info := None; paths := [("/customers", sample_path_item)]; schemas := None |}.

Lemma getEndpointDetails_unchecked_witness :
  getEndpointDetails sample_spec "/customers" "GET"
    = Returned (Some (details_of
        (JObj [("summary", JStr "List customers");
               ("operationId", JStr "listCustomers");
               ("tags", JArr [JStr "Customer"])])))
  /\ (isOpenAPIOperation
        (Some (JArr [JObj [("name", JStr "id"); ("in", JStr "path")]])) = false
      /\ getEndpointDetails sample_spec "/customers" "PARAMETERS"
           = Returned (Some undefined_details)).
Proof.
  split.
  - apply (proj1 getEndpointDetails_unchecked sample_spec "/customers" "GET"
             sample_path_item); reflexivity.
  - apply (proj2 getEndpointDetails_unchecked sample_spec "/customers"
             sample_path_item); reflexivity.
Defined.

(** The keys of every object of the document are pairwise distinct. *)
Definition distinct_keys (spec : OpenAPISpec) : Prop :=
  NoDup (Js.keys (paths spec)) /\
  forall path pathItem, In (path, pathItem) (paths spec) -> NoDup (Js.keys pathItem).

(** A method key survives the upper-casing done by the listing followed by
    the lower-casing done by the lookup. *)
Definition case_stable (k : string) : Prop :=
  JsString.toLowerCase (JsString.toUpperCase k) = k.

Definition method_keys_case_stable (spec : OpenAPISpec) : Prop :=
  forall path pathItem method operation,
    In (path, pathItem) (paths spec) ->
    In (method, operation) pathItem ->
    isOpenAPIOperation (Some operation) = true ->
    case_stable method.

Lemma lowercase_case_stable (k : string) :
  JsString.toLowerCase k = k -> case_stable k.
Proof. unfold case_stable. rewrite lower_upper. auto. Qed.

(** The data model of the specification: a path item maps lower-case
    HTTP method names to operations.  The keys that hold an operation are
    ASCII text without upper-case letters. *)
Definition lowercase_method_keys (spec : OpenAPISpec) : Prop :=
  forall path pathItem method operation,
    In (path, pathItem) (paths spec) ->
    In (method, operation) pathItem ->
    isOpenAPIOperation (Some operation) = true ->
    lowercase_ascii method = true.

(** The method names [OpenAPIPathItem] declares are such keys. *)
Lemma declared_methods_lowercase :
  forallb lowercase_ascii
    ["get"; "post"; "put"; "delete"; "patch"; "head"; "options"] = true.
Proof. reflexivity. Qed.

Lemma lowercase_keys_case_stable (spec : OpenAPISpec) :
  lowercase_method_keys spec -> method_keys_case_stable spec.
Proof.
  intros H path pathItem method operation Hp Hm Hop.
  apply lowercase_ascii_round_trip. exact (H _ _ _ _ Hp Hm Hop).
Qed.

(** C5.  For every document of the data model (the keys of an object are
    distinct; the method keys are lower-case), every (path, method) pair
    listed by [extractEndpointSummaries] is found by [getEndpointDetails]:
    the lookup returns a record, not [null], and its [operationId] and
    [summary] are those of the entry listed. *)
Theorem listed_endpoints_have_details
    (spec : OpenAPISpec) (e : EndpointSummary) :
  distinct_keys spec ->
  lowercase_method_keys spec ->
  In e (extractEndpointSummaries spec) ->
  exists d,
    getEndpointDetails spec (es_path e) (es_method e) = Returned (Some d) /\
    ed_operationId d = es_operationId e /\
    ed_summary d = es_summary e.
Proof.
  intros [Hnd Hnd'] Hkeys Hin.
  pose proof (lowercase_keys_case_stable spec Hkeys) as Hcase.
  apply In_extractEndpointSummaries in Hin
    as (path & pathItem & method & operation & Hp & Hm & Hop & ->).
  exists (details_of operation). simpl. split; [|split; reflexivity].
  unfold getEndpointDetails.
  rewrite (own_get_js_get _ _ _ (In_own_get _ _ _ Hnd Hp)).
  rewrite (Hcase _ _ _ _ Hp Hm Hop).
  rewrite (own_get_js_get _ _ _ (In_own_get _ _ _ (Hnd' _ _ Hp) Hm)).
  rewrite (isOpenAPIOperation_truthy _ Hop). reflexivity.
Qed.

Lemma sample_spec_distinct_keys : distinct_keys sample_spec.
Proof.
  split.
  - unfold sample_spec; simpl. apply NoDup_singleton.
  - intros path pathItem [[= <- <-] | []]. simpl.
    apply NoDup_cons. split; [|apply NoDup_singleton].
    intros H. apply list_elem_of_In in H. simpl in H. intuition discriminate.
Defined.

Lemma sample_spec_lowercase_keys : lowercase_method_keys sample_spec.
Proof.
  intros path pathItem method operation [[= <- <-] | []] Hm Hop.
  simpl in Hm. destruct Hm as [[= <- <-] | [[= <- <-] | []]]; reflexivity.
Defined.

Lemma listed_endpoints_have_details_witness :
  exists d,
    getEndpointDetails sample_spec "/customers" "GET" = Returned (Some d) /\
    ed_operationId d = Some (JStr "listCustomers") /\
    ed_summary d = Some (JStr "List customers").
Proof.
  apply (listed_endpoints_have_details sample_spec
           (summary_entry "/customers" "get"
              (JObj [("summary", JStr "List customers");
                     ("operationId", JStr "listCustomers");
                     ("tags", JArr [JStr "Customer"])]))).
  - exact sample_spec_distinct_keys.
  - exact sample_spec_lowercase_keys.
  - vm_compute. left. reflexivity.
Defined.

(** A document whose method key is written in upper case. *)
Definition upper_case_spec : OpenAPISpec :=
  {| info := None;
     paths := [("/customers",
                [("GET", JObj [("summary", JStr "List customers");
                               ("operationId", JStr "listCustomers")])])];
     schemas := None |}.

(** The hypothesis on the method keys is needed.  Outside the data model,
    for a document whose key is written [GET], the listing reports
    [GET /customers] and the lookup, which lower-cases, finds nothing. *)
Remark listed_endpoint_without_details :
  ~ (forall (spec : OpenAPISpec) (e : EndpointSummary),
       distinct_keys spec ->
       In e (extractEndpointSummaries spec) ->
       exists d,
         getEndpointDetails spec (es_path e) (es_method e) = Returned (Some d) /\
         ed_operationId d = es_operationId e /\
         ed_summary d = es_summary e).
Proof.
  intros H.
  destruct (H upper_case_spec
              (summary_entry "/customers" "GET"
                 (JObj [("summary", JStr "List customers");
                        ("operationId", JStr "listCustomers")])))
    as (d & Hd & _).
  - split.
    + simpl. apply NoDup_singleton.
    + intros path pathItem [[= <- <-] | []]. simpl. apply NoDup_singleton.
  - vm_compute. left. reflexivity.
  - discriminate Hd.
Qed.

(* ===================================================================== *)
(** ** Grouping by tag and the tag filter *)
(* ===================================================================== *)

(** The endpoint is grouped under [tag]. *)
Definition grouped_under (tag : string) (e : EndpointSummary) : bool :=
  match grouping_key e with
  | Returned t => String.eqb t tag
  | _ => false
  end.

Lemma own_get_obj_set {A} (o : list (string * A)) (k k' : string) (a : A) :
  Js.own_get (Js.obj_set o k a) k' =
  if String.eqb k k' then Some a else Js.own_get o k'.
Proof.
  induction o as [|[k0 a0] o IH]; simpl.
  - reflexivity.
  - destruct (String.eqb k0 k) eqn:E0; simpl.
    + apply String.eqb_eq in E0. subst k0.
      destruct (String.eqb k k'); reflexivity.
    + rewrite IH. destruct (String.eqb k0 k') eqn:E1; [|reflexivity].
      apply String.eqb_eq in E1. subst k0.
      rewrite String.eqb_sym, E0. reflexivity.
Qed.

(** What the grouping loop leaves under each tag: the endpoints grouped
    under it, in listing order, appended to what was there. *)
Lemma group_endpoints_buckets (endpoints : list EndpointSummary) :
  forall g0 g, group_endpoints g0 endpoints = Returned g ->
  forall tag,
    Js.own_get g tag =
    match Js.own_get g0 tag, List.filter (grouped_under tag) endpoints with
    | Some b, es => Some (b ++ es)
    | None, [] => None
    | None, es => Some es
    end.
Proof.
  induction endpoints as [|e rest IH]; intros g0 g H tag.
  - simpl in H. injection H as <-. simpl.
    destruct (Js.own_get g0 tag); [rewrite app_nil_r|]; reflexivity.
  - simpl in H. unfold group_endpoint in H at 1.
    destruct (grouping_key e) as [t| |] eqn:Hk; simpl in H; try discriminate.
    assert (Hg : grouped_under tag e = String.eqb t tag)
      by (unfold grouped_under; rewrite Hk; reflexivity).
    simpl List.filter. rewrite Hg.
    unfold Js.js_get in H.
    destruct (Js.own_get g0 t) as [bucket|] eqn:Hb; simpl in H.
    + rewrite (IH _ _ H tag), own_get_obj_set.
      destruct (String.eqb t tag) eqn:E.
      * apply String.eqb_eq in E. subst t. rewrite Hb, <- app_assoc. reflexivity.
      * reflexivity.
    + destruct (Js.inherited_name t); simpl in H; [discriminate|].
      rewrite (IH _ _ H tag), own_get_obj_set.
      destruct (String.eqb t tag) eqn:E.
      * apply String.eqb_eq in E. subst t. rewrite Hb. reflexivity.
      * reflexivity.
Qed.

Lemma createSummary_buckets (spec : OpenAPISpec) (summary : ApiSummary) :
  createSummary spec = Returned summary ->
  as_info summary = info spec /\
  totalEndpoints summary = length (extractEndpointSummaries spec) /\
  forall tag,
    Js.own_get (endpointsByTag summary) tag =
    match List.filter (grouped_under tag) (extractEndpointSummaries spec) with
    | [] => None
    | es => Some es
    end.
Proof.
  unfold createSummary.
  destruct (group_endpoints [] (extractEndpointSummaries spec)) as [g| |] eqn:Hg;
    simpl; try discriminate.
  intros [= <-]. simpl. repeat split.
  intros tag. apply (group_endpoints_buckets _ _ _ Hg tag).
Qed.

(** C7, as amended.  Provided the summary of the document can be built:
    an empty [filterByTag] is no filter and the reply is the whole summary;
    for a tag that is neither empty nor the name of a member of
    [Object.prototype], when no endpoint is grouped under the tag the
    reply has [totalEndpoints = 0] and no bucket, and is not an error;
    otherwise it holds that one bucket, the endpoints grouped under the tag
    in listing order, and [totalEndpoints] is its length. *)
Theorem filterByTag_single_bucket
    (spec : OpenAPISpec) (summary : ApiSummary) :
  createSummary spec = Returned summary ->
  handleListAllEndpoints spec (Some "") = Returned (Summary summary)
  /\
  forall tag : string,
    tag <> "" ->
    Js.inherited_name tag = false ->
    let bucket := List.filter (grouped_under tag) (extractEndpointSummaries spec) in
    (bucket = [] ->
     handleListAllEndpoints spec (Some tag) =
       Returned (Summary {| as_info := info spec; totalEndpoints := 0;
                            endpointsByTag := [] |}))
    /\
    (bucket <> [] ->
     handleListAllEndpoints spec (Some tag) =
       Returned (Summary {| as_info := info spec;
                            totalEndpoints := length bucket;
                            endpointsByTag := [(tag, bucket)] |})).
Proof.
  intros Hs. split.
  { unfold handleListAllEndpoints. rewrite Hs. reflexivity. }
  intros tag Hne Hinh bucket.
  destruct (createSummary_buckets _ _ Hs) as (Hinfo & _ & Hb).
  specialize (Hb tag). fold bucket in Hb.
  unfold handleListAllEndpoints. rewrite Hs. simpl.
  apply String.eqb_neq in Hne. rewrite Hne.
  unfold Js.js_get. rewrite Hb, Hinfo. split.
  - intros ->. rewrite Hinh. reflexivity.
  - intros Hnil. destruct bucket; [contradiction|]. reflexivity.
Qed.

(** The end-to-end scenario of the specification. *)
Definition operation_tagged (summary tag : string) : JsonValue :=
  JObj [("summary", JStr summary); ("tags", JArr [JStr tag]);
        ("responses", JObj [])].

Definition scenario_spec : OpenAPISpec :=
  {| info := Some (JObj [("title", JStr "Iron API - Test")]);
     paths := [ ("/customers",
                 [ ("post", operation_tagged "Create a new customer" "Customer");
                   ("get", operation_tagged "List customers" "Customer") ]);
                ("/addresses",
                 [ ("post", operation_tagged "Create address" "Addresses") ]) ];
     schemas := None |}.

Example scenario_unfiltered :
  exists s, handleListAllEndpoints scenario_spec None = Returned (Summary s) /\
    totalEndpoints s = 3 /\
    (length <$> Js.own_get (endpointsByTag s) "Customer") = Some 2 /\
    (length <$> Js.own_get (endpointsByTag s) "Addresses") = Some 1.
Proof. eexists. split; [vm_compute; reflexivity|]. repeat split. Qed.

Definition scenario_summary : ApiSummary :=
  {| as_info := info scenario_spec;
     totalEndpoints := 3;
     endpointsByTag :=
       [("Customer",
         [summary_entry "/customers" "post"
            (operation_tagged "Create a new customer" "Customer");
          summary_entry "/customers" "get"
            (operation_tagged "List customers" "Customer")]);
        ("Addresses",
         [summary_entry "/addresses" "post"
            (operation_tagged "Create address" "Addresses")])] |}.

Lemma filterByTag_single_bucket_witness :
  handleListAllEndpoints scenario_spec (Some "") = Returned (Summary scenario_summary)
  /\
  handleListAllEndpoints scenario_spec (Some "Payments") =
    Returned (Summary {| as_info := info scenario_spec; totalEndpoints := 0;
                         endpointsByTag := [] |})
  /\
  handleListAllEndpoints scenario_spec (Some "Addresses") =
    Returned (Summary
      {| as_info := info scenario_spec;
         totalEndpoints := 1;
         endpointsByTag :=
           [("Addresses",
             [summary_entry "/addresses" "post"
                (operation_tagged "Create address" "Addresses")])] |}).
Proof.
  assert (Hs : createSummary scenario_spec = Returned scenario_summary)
    by (vm_compute; reflexivity).
  destruct (filterByTag_single_bucket scenario_spec scenario_summary Hs) as [Hempty Htag].
  split; [exact Hempty|]. split.
  - apply (Htag "Payments"); [discriminate | reflexivity | reflexivity].
  - apply (Htag "Addresses"); [discriminate | reflexivity | discriminate].
Defined.

(** C7 as stated fails at the empty tag: it labels no endpoint, the filter
    is then skipped, and the reply is the whole summary. *)
Lemma filterByTag_empty_tag_unfiltered :
  ~ (forall (spec : OpenAPISpec) (tag : string),
       (exists s, createSummary spec = Returned s) ->
       List.filter (grouped_under tag) (extractEndpointSummaries spec) = [] ->
       exists r, handleListAllEndpoints spec (Some tag) = Returned (Summary r) /\
                 totalEndpoints r = 0 /\ endpointsByTag r = []).
Proof.
  intros H.
  destruct (H scenario_spec "") as (r & Hr & H0 & _).
  - eexists. vm_compute. reflexivity.
  - vm_compute. reflexivity.
  - vm_compute in Hr. injection Hr as <-. discriminate H0.
Qed.

(** A tag that names a member of [Object.prototype] labels no endpoint
    either; the reply then reports the arity of that member as the total. *)
Example filterByTag_constructor :
  handleListAllEndpoints scenario_spec (Some "constructor") =
  Returned (InheritedBucket (info scenario_spec) "constructor" (Some 1)).
Proof. vm_compute. reflexivity. Qed.

(* ===================================================================== *)
(** ** Properties of the invocation gateway *)
(* ===================================================================== *)

Definition modelled {A} (o : Outcome A) : Prop := o <> Unmodelled.

Lemma bindO_modelled {A B} (m : Outcome A) (f : A -> Outcome B) :
  modelled m -> (forall a, modelled (f a)) -> modelled (bindO m f).
Proof.
  unfold modelled. destruct m; simpl; auto; discriminate.
Qed.

(** String coercion reads no inherited member's internals. *)
Lemma ToString_modelled (v : JsonValue) : modelled (Js.ToString v).
Proof.
  induction v as [ | [] | n | s | items IH | o _ ] using JsonValue_nested_ind;
    simpl; try discriminate.
  - apply bindO_modelled; [|discriminate].
    induction IH as [|x l Hx _ IHl]; [discriminate|].
    apply bindO_modelled.
    + destruct x; try exact Hx. discriminate.
    + intros s. apply bindO_modelled; [exact IHl | discriminate].
  - destruct (Js.own_get o "toString"); discriminate.
Qed.

Lemma append_parameters_modelled entries :
  forall urlParams, modelled (append_parameters urlParams entries).
Proof.
  induction entries as [|[k v] rest IH]; intros acc; simpl; [discriminate|].
  destruct (Js.is_null v); [apply IH|].
  apply bindO_modelled; [apply ToString_modelled | intros s; apply IH].
Qed.

Lemma build_url_modelled config path parameters :
  modelled (build_url config path parameters).
Proof.
  unfold build_url. destruct parameters as [ps|]; [|discriminate].
  destruct (0 <? _)%nat; [|discriminate].
  apply bindO_modelled; [apply append_parameters_modelled|].
  intros ps'. destruct (negb _); discriminate.
Qed.

Lemma convert_headers_modelled entries :
  forall acc, modelled (convert_headers acc entries).
Proof.
  induction entries as [|[k v] rest IH]; intros acc; [discriminate|].
  destruct v as [ | b | n | s | items | o ];
    cbn [convert_headers]; try apply IH;
    (apply bindO_modelled; [apply ToString_modelled | intros t; apply IH]).
Qed.

Lemma formatApiResponse_modelled pretty response details url requestInfo :
  modelled (formatApiResponse pretty response details url requestInfo).
Proof.
  unfold formatApiResponse.
  apply bindO_modelled.
  - destruct (ed_summary details) as [s|]; [|discriminate].
    destruct (Js.truthy s); [apply ToString_modelled | discriminate].
  - intros op. apply bindO_modelled; [|discriminate].
    destruct (ed_operationId details) as [i|]; [|discriminate].
    destruct (Js.truthy i); [|discriminate].
    apply bindO_modelled; [apply ToString_modelled | discriminate].
Qed.

Section GatewayProperties.

Variable JSON_stringify : JsonValue -> string.
Variable JSON_stringify_pretty : JsonValue -> string.

Local Abbreviation handle := (handleInvokeApiEndpoint JSON_stringify JSON_stringify_pretty).
Local Abbreviation attempt := (try_invoke JSON_stringify JSON_stringify_pretty).

(** C3. In read-only mode every invocation, whatever its path and method,
    is rejected with the configuration error, and neither the loading of
    the document nor an HTTP call takes place. *)
Theorem read_only_rejects_all
    (config : ServerConfig) (world : World) (args : InvokeApiEndpointArgs) :
  readOnlyMode config = true ->
  handle config world args =
    ([], Thrown (McpError InvalidRequest
       "API calls are disabled in read-only mode. Use environment variable IRON_READ_ONLY_MODE=false to enable.")).
Proof.
  intros H. unfold handleInvokeApiEndpoint. rewrite H. reflexivity.
Qed.

Lemma try_invoke_modelled config world key details args :
  snd (attempt config world key details args) <> NotModelled.
Proof.
  unfold try_invoke.
  pose proof (build_url_modelled config (arg_path args) (arg_parameters args)) as Hu.
  unfold build_request.
  destruct (build_url config (arg_path args) (arg_parameters args)) as [url|[]|];
    simpl; try discriminate; [|contradiction].
  match goal with |- context [axios world ?rc] => destruct (axios world rc) as [r|c] end;
    simpl; [|discriminate].
  match goal with |- of_outcome ?o <> _ =>
    assert (Hm : modelled o); [|destruct o as [?|[]|]; simpl; try discriminate; contradiction]
  end.
  apply bindO_modelled; [apply convert_headers_modelled|].
  intros hs. apply formatApiResponse_modelled.
Qed.

(** C4. Once the preconditions hold (not read-only, a key configured, the
    document loaded and the endpoint found), the handler returns a text
    and throws nothing.  Whatever the [try] block throws, be it the
    rejection of the transport call or a fault raised while the request
    is built or the response formatted, the text is [formatApiError] of
    the record built from it: [{message, code, response}] for an axios
    error, [{message}] alone for anything else. *)
Theorem invoke_never_throws
    (config : ServerConfig) (world : World) (args : InvokeApiEndpointArgs)
    (spec : OpenAPISpec) (endpointDetails : EndpointDetails) :
  readOnlyMode config = false ->
  truthy_string (apiKey config) = true ->
  loadOpenApiSpec world = Returned spec ->
  getEndpointDetails spec (arg_path args) (arg_method args)
    = Returned (Some endpointDetails) ->
  let requestInfo := {| ri_path := arg_path args; ri_method := arg_method args |} in
  let url := template (baseUrl config) +:+ arg_path args in
  let key := default "" (apiKey config) in
  (exists text, snd (handle config world args) = Returned text)
  /\
  (forall thrown,
     snd (attempt config world key endpointDetails args) = Throws thrown ->
     snd (handle config world args) =
       Returned (formatApiError JSON_stringify_pretty
                   (api_error_of thrown) requestInfo url))
  /\
  (forall requestConfig e,
     build_request JSON_stringify config key args = Returned requestConfig ->
     axios world requestConfig = Rejected (CaughtAxios e) ->
     snd (handle config world args) =
       Returned (formatApiError JSON_stringify_pretty
                   {| message := ae_message e;
                      code := ae_code e;
                      response :=
                        (fun r => {| aer_status := ar_status r;
                                     aer_statusText := ar_statusText r;
                                     aer_data := ar_data r |}) <$> ae_response e |}
                   requestInfo url))
  /\
  (forall requestConfig m,
     build_request JSON_stringify config key args = Returned requestConfig ->
     (axios world requestConfig = Rejected (CaughtError m) \/
      axios world requestConfig = Rejected (CaughtOther m)) ->
     snd (handle config world args) =
       Returned (formatApiError JSON_stringify_pretty
                   {| message := m; code := None; response := None |}
                   requestInfo url)).
Proof.
  intros Hro Hkey Hload Hfound requestInfo url key.
  assert (Hh : snd (handle config world args) =
               match snd (attempt config world key endpointDetails args) with
               | Completed text => Returned text
               | Throws thrown => Returned (catch_invoke JSON_stringify_pretty config args thrown)
               | NotModelled => Unmodelled
               end).
  { unfold handleInvokeApiEndpoint. rewrite Hro, Hkey, Hload, Hfound. simpl.
    fold key. destruct (attempt config world key endpointDetails args). reflexivity. }
  pose proof (try_invoke_modelled config world key endpointDetails args) as Hm.
  repeat split.
  - rewrite Hh. destruct (snd (attempt _ _ _ _ _)); eauto. contradiction.
  - intros thrown Ht. rewrite Hh, Ht. reflexivity.
  - intros rc e Hrc Hax. rewrite Hh. unfold try_invoke. rewrite Hrc. simpl.
    rewrite Hax. reflexivity.
  - intros rc m Hrc [Hax|Hax]; rewrite Hh; unfold try_invoke; rewrite Hrc; simpl;
      rewrite Hax; reflexivity.
Qed.

End GatewayProperties.

Definition scenario_config (readOnly : bool) : ServerConfig :=
  {| environment := production;
     openApiSpecUrl := Some "https://api.iron.xyz/spec";
     localSpecPath := None;
     apiKey := Some "test-api-key-123";
     readOnlyMode := readOnly;
     baseUrl := Some "https://api.iron.xyz/api" |}.

Definition get_customers (parameters : option (list (string * JsonValue)))
  : InvokeApiEndpointArgs :=
  {| arg_path := "/customers"; arg_method := "GET";
     arg_parameters := parameters; arg_body := None; arg_headers := None |}.

(** A transport that times out on every call. *)
Definition timeout_world : World :=
  {| loadOpenApiSpec := Returned scenario_spec;
     axios := fun _ =>
       Rejected (CaughtAxios {| ae_message := "timeout of 30000ms exceeded";
                                ae_code := Some "ECONNABORTED";
                                ae_response := None |}) |}.

Lemma read_only_rejects_all_witness :
  handleInvokeApiEndpoint (fun _ => "") (fun _ => "")
    (scenario_config true) timeout_world (get_customers None) =
  ([], Thrown (McpError InvalidRequest
     "API calls are disabled in read-only mode. Use environment variable IRON_READ_ONLY_MODE=false to enable.")).
Proof.
  apply (read_only_rejects_all (fun _ => "") (fun _ => "")
           (scenario_config true) timeout_world (get_customers None)).
  reflexivity.
Defined.

Lemma invoke_never_throws_witness :
  exists text,
    snd (handleInvokeApiEndpoint (fun _ => "") (fun _ => "")
           (scenario_config false) timeout_world (get_customers None))
    = Returned text.
Proof.
  eapply (invoke_never_throws (fun _ => "") (fun _ => "")
            (scenario_config false) timeout_world (get_customers None)
            scenario_spec); reflexivity.
Defined.

(* ===================================================================== *)
(** ** The query string *)
(* ===================================================================== *)












(** Null values leave no trace, and reserved bytes are escaped. *)
Example query_string_skips_null :
  build_url (scenario_config false) "/customers"
    (Some [("status", JNull); ("name", JStr "a b&c"); ("active", JBool true)]) =
  Returned "https://api.iron.xyz/api/customers?name=a+b%26c&active=true".
Proof. vm_compute. reflexivity. Qed.

Example query_string_all_null :
  build_url (scenario_config false) "/customers" (Some [("status", JNull)]) =
  Returned "https://api.iron.xyz/api/customers".
Proof. vm_compute. reflexivity. Qed.


(* ===================================================================== *)
(** ** Properties of the reference resolver *)
(* ===================================================================== *)

Definition ref_to (name : string) : JsonValue :=
  JObj [("$ref", JStr ("#/components/schemas/" +:+ name))].

(** Two properties refer to one schema that refers to nothing. *)
Definition diamond_spec : OpenAPISpec :=
  {| info := None; paths := [];
     schemas := Some [("Address", JObj [("type", JStr "string")])] |}.

Definition diamond_node : JsonValue :=
  JObj [("billing", ref_to "Address"); ("shipping", ref_to "Address")].

Definition value_of (r : Resolution JsonValue) : option JsonValue :=
  match r with Resolved v _ => Some v | _ => None end.

Example diamond_once :
  value_of (resolve 10 diamond_spec diamond_node) =
  Some (JObj [("billing", JObj [("type", JStr "string")]);
              ("shipping", ref_to "Address")]).
Proof. vm_compute. reflexivity. Qed.

(** *** The shared set only grows *)

Definition grows (f : JsonValue -> gset string -> Resolution JsonValue) : Prop :=
  forall v visited v' visited',
    f v visited = Resolved v' visited' -> visited ⊆ visited'.

Lemma map_items_grows f items :
  grows f ->
  forall visited items' visited',
    map_items f items visited = Resolved items' visited' -> visited ⊆ visited'.
Proof.
  intros Hf. induction items as [|x rest IH]; intros vis l' vis'; simpl.
  - intros [= _ <-]. reflexivity.
  - destruct (f x vis) as [x' vis1| | |] eqn:Hx; simpl; try discriminate.
    destruct (map_items f rest vis1) as [r' vis2| | |] eqn:Hr; simpl; try discriminate.
    intros [= _ <-]. etrans; [exact (Hf _ _ _ _ Hx) | exact (IH _ _ _ Hr)].
Qed.

Lemma assign_entries_grows f entries :
  grows f ->
  forall resolved visited resolved' visited',
    assign_entries f entries resolved visited = Resolved resolved' visited' ->
    visited ⊆ visited'.
Proof.
  intros Hf. induction entries as [|[k v] rest IH]; intros acc vis acc' vis'; simpl.
  - intros [= _ <-]. reflexivity.
  - destruct (isJsonValue v); [|apply IH].
    destruct (f v vis) as [v' vis1| | |] eqn:Hv; simpl; try discriminate.
    pose proof (Hf _ _ _ _ Hv) as Hsub.
    destruct (String.eqb k "__proto__").
    + destruct (Js.typeof_object v'); [discriminate|].
      intros H. etrans; [exact Hsub | exact (IH _ _ _ _ H)].
    + intros H. etrans; [exact Hsub | exact (IH _ _ _ _ H)].
Qed.

Lemma resolve_body_grows f spec : grows f -> grows (resolve_body f spec).
Proof.
  intros IH v vis v' vis'. unfold resolve_body.
  destruct v as [ | b | n | s | items | o ];
    try (intros [= _ <-]; reflexivity).
  - destruct (map_items _ items vis) as [l vis1| | |] eqn:Hm; simpl; try discriminate.
    intros [= _ <-]. exact (map_items_grows _ _ IH _ _ _ Hm).
  - destruct (Js.own_get o "$ref") as [[ | | | ref | | ]|]; try discriminate.
    + destruct (decide (ref ∈ vis)); [intros [= _ <-]; reflexivity|].
      assert (Hstep : vis ⊆ {[ref]} ∪ vis) by set_solver.
      destruct (schema_name_of_ref ref) as [name|];
        [|intros [= _ <-]; exact Hstep].
      destruct (schemas spec) as [table|]; [|intros [= _ <-]; exact Hstep].
      destruct (Js.js_get table name) as [s| |]; try discriminate;
        [|intros [= _ <-]; exact Hstep].
      destruct (Js.truthy s); [|intros [= _ <-]; exact Hstep].
      intros H. etrans; [exact Hstep | exact (IH _ _ _ _ H)].
    + destruct (assign_entries _ _ [] vis) as [r vis1| | |] eqn:Ha; simpl; try discriminate.
      intros [= _ <-]. exact (assign_entries_grows _ _ IH _ _ _ _ Ha).
Qed.

Lemma resolve_grows fuel spec : grows (resolveSchemaReferences fuel spec).
Proof.
  induction fuel as [|fuel IH]; [intros v vis v' vis'; discriminate|].
  exact (resolve_body_grows _ spec IH).
Qed.

(** *** More fuel changes nothing once a run has ended *)

Definition ended {A} (r : Resolution A) : Prop := r <> OutOfFuel.

Definition extends (f g : JsonValue -> gset string -> Resolution JsonValue) : Prop :=
  forall v visited, ended (f v visited) -> g v visited = f v visited.

Lemma map_items_extends f g items :
  extends f g ->
  forall visited, ended (map_items f items visited) ->
                  map_items g items visited = map_items f items visited.
Proof.
  intros Hfg. induction items as [|x rest IH]; intros vis; simpl; [reflexivity|].
  destruct (f x vis) as [x' vis1| | |] eqn:Hx; simpl; intros He;
    try (rewrite (Hfg x vis), Hx by (rewrite Hx; discriminate); reflexivity);
    [|contradiction].
  rewrite (Hfg x vis), Hx by (rewrite Hx; discriminate). simpl.
  rewrite IH; [reflexivity|].
  destruct (map_items f rest vis1); try discriminate. contradiction.
Qed.

Lemma assign_entries_extends f g entries :
  extends f g ->
  forall resolved visited,
    ended (assign_entries f entries resolved visited) ->
    assign_entries g entries resolved visited = assign_entries f entries resolved visited.
Proof.
  intros Hfg. induction entries as [|[k v] rest IH]; intros acc vis; simpl; [reflexivity|].
  destruct (isJsonValue v); [|apply IH].
  destruct (f v vis) as [v' vis1| | |] eqn:Hv; simpl; intros He;
    try (rewrite (Hfg v vis), Hv by (rewrite Hv; discriminate); reflexivity);
    [|contradiction].
  rewrite (Hfg v vis), Hv by (rewrite Hv; discriminate). simpl.
  destruct (String.eqb k "__proto__"); [destruct (Js.typeof_object v'); [reflexivity|]|];
    apply IH; exact He.
Qed.

Lemma resolve_body_extends f g spec :
  extends f g -> extends (resolve_body f spec) (resolve_body g spec).
Proof.
  intros IH v vis. unfold resolve_body.
  destruct v as [ | b | n | s | items | o ]; try reflexivity.
  - intros He. rewrite (map_items_extends _ _ items IH); [reflexivity|].
    destruct (map_items _ items vis); try discriminate. contradiction.
  - destruct (Js.own_get o "$ref") as [[ | | | ref | | ]|]; try reflexivity.
    + destruct (decide (ref ∈ vis)); [reflexivity|]. cbv zeta.
      destruct (schema_name_of_ref ref) as [name|]; [|reflexivity].
      destruct (schemas spec) as [table|]; [|reflexivity].
      destruct (Js.js_get table name) as [s| |]; try reflexivity.
      destruct (Js.truthy s); [|reflexivity].
      intros He. apply IH. exact He.
    + intros He. rewrite (assign_entries_extends _ _ _ IH); [reflexivity|].
      destruct (assign_entries _ _ [] vis); try discriminate. contradiction.
Qed.

Lemma resolve_fuel_step fuel spec :
  extends (resolveSchemaReferences fuel spec) (resolveSchemaReferences (S fuel) spec).
Proof.
  induction fuel as [|fuel IH]; [intros v vis He; contradiction He; reflexivity|].
  exact (resolve_body_extends _ _ spec IH).
Qed.

Lemma resolve_fuel_mono spec fuel fuel' :
  fuel <= fuel' ->
  extends (resolveSchemaReferences fuel spec) (resolveSchemaReferences fuel' spec).
Proof.
  induction 1 as [|m Hle IH]; intros v vis He; [reflexivity|].
  rewrite <- (IH v vis He). apply resolve_fuel_step. rewrite (IH v vis He). exact He.
Qed.

(** *** Termination *)

(** Nesting depth of a value. *)
Fixpoint height (v : JsonValue) : nat :=
  match v with
  | JArr items => S (max_list (map height items))
  | JObj o => S (max_list (map (fun kv => height (snd kv)) o))
  | _ => 1
  end.

(** The reference strings a value holds, at any depth. *)
Fixpoint refs (v : JsonValue) : gset string :=
  match v with
  | JArr items => ⋃ (map refs items)
  | JObj o =>
      match Js.own_get o "$ref" with Some (JStr r) => {[r]} | _ => ∅ end
      ∪ ⋃ (map (fun kv => refs (snd kv)) o)
  | _ => ∅
  end.

Definition table_of (spec : OpenAPISpec) : list (string * JsonValue) :=
  default [] (schemas spec).

(** Every reference string of the schema table and of the node. *)
Definition universe (spec : OpenAPISpec) (v : JsonValue) : gset string :=
  refs v ∪ ⋃ (map (fun kv => refs (snd kv)) (table_of spec)).

Definition table_height (spec : OpenAPISpec) : nat :=
  max_list (map (fun kv => height (snd kv)) (table_of spec)).

Lemma subseteq_union_list (X : gset string) (Xs : list (gset string)) :
  X ∈ Xs -> X ⊆ ⋃ Xs.
Proof. intros H x Hx. apply elem_of_union_list. exists X. auto. Qed.

Lemma height_item x items : In x items -> height x < height (JArr items).
Proof.
  intros H. simpl. apply Nat.lt_succ_r, max_list_elem_of_le.
  apply list_elem_of_In, in_map. exact H.
Qed.

Lemma height_prop kv o : In kv o -> height (snd kv) < height (JObj o).
Proof.
  intros H. simpl. apply Nat.lt_succ_r, max_list_elem_of_le.
  apply list_elem_of_In. apply (in_map (fun kv => height (snd kv))). exact H.
Qed.

Lemma refs_item x items : In x items -> refs x ⊆ refs (JArr items).
Proof.
  intros H. simpl. apply subseteq_union_list. by apply list_elem_of_In, in_map.
Qed.

Lemma refs_prop kv o : In kv o -> refs (snd kv) ⊆ refs (JObj o).
Proof.
  intros H. simpl. apply union_subseteq_r'. apply subseteq_union_list.
  apply list_elem_of_In. apply (in_map (fun kv => refs (snd kv))). exact H.
Qed.

Lemma own_get_table spec name s :
  Js.own_get (table_of spec) name = Some s ->
  refs s ⊆ ⋃ (map (fun kv => refs (snd kv)) (table_of spec)) /\
  height s <= table_height spec.
Proof.
  intros H. apply own_get_In in H. split.
  - apply subseteq_union_list. apply list_elem_of_In.
    apply (in_map (fun kv => refs (snd kv)) _ _ H).
  - apply max_list_elem_of_le. apply list_elem_of_In.
    apply (in_map (fun kv => height (snd kv)) _ _ H).
Qed.

Section Termination.

Variable spec : OpenAPISpec.
Variable U : gset string.
Hypothesis table_in_U : ⋃ (map (fun kv => refs (snd kv)) (table_of spec)) ⊆ U.

(** At most [n] reference strings are still unvisited. *)
Definition budget (n : nat) (visited : gset string) : Prop :=
  size (U ∖ visited) <= n.

Lemma budget_mono n visited visited' :
  visited ⊆ visited' -> budget n visited -> budget n visited'.
Proof.
  unfold budget. intros Hsub Hb.
  etrans; [apply subseteq_size|exact Hb].
  intros x. rewrite !elem_of_difference. intros [Hx Hn]. split; [exact Hx|].
  intros Hv. apply Hn, Hsub, Hv.
Qed.

Lemma budget_spend n visited ref :
  ref ∈ U -> ref ∉ visited -> budget n visited ->
  exists m, n = S m /\ budget m ({[ref]} ∪ visited).
Proof.
  unfold budget. intros HU Hv Hb.
  assert (Heq : U ∖ visited = {[ref]} ∪ U ∖ ({[ref]} ∪ visited)).
  { apply set_eq. intros x. rewrite !elem_of_union, !elem_of_difference,
      elem_of_union, elem_of_singleton.
    destruct (decide (x = ref)) as [->|]; tauto. }
  rewrite Heq in Hb.
  rewrite size_union, size_singleton in Hb
    by (intros x; rewrite elem_of_singleton, elem_of_difference, elem_of_union,
          elem_of_singleton; tauto).
  destruct n as [|m]; [lia|]. exists m. split; [reflexivity|lia].
Qed.

(** A function that ends on every value of a list ends on the list. *)
Lemma map_items_ended f n items :
  grows f ->
  (forall x visited, In x items -> budget n visited -> ended (f x visited)) ->
  forall visited, budget n visited -> ended (map_items f items visited).
Proof.
  intros Hg. induction items as [|x rest IH]; intros Hf vis Hb; simpl; [discriminate|].
  pose proof (Hf x vis (or_introl eq_refl) Hb) as Hx.
  destruct (f x vis) as [x' vis1| | |] eqn:Ex; simpl; try discriminate; [|contradiction].
  assert (Hb1 : budget n vis1) by (eapply budget_mono; [exact (Hg _ _ _ _ Ex)|exact Hb]).
  assert (Hr : ended (map_items f rest vis1)).
  { apply IH; [|exact Hb1]. intros y v Hy. apply Hf. right. exact Hy. }
  destruct (map_items f rest vis1); simpl; try discriminate. contradiction.
Qed.

Lemma assign_entries_ended f n entries :
  grows f ->
  (forall kv visited, In kv entries -> budget n visited -> ended (f (snd kv) visited)) ->
  forall resolved visited,
    budget n visited -> ended (assign_entries f entries resolved visited).
Proof.
  intros Hg. induction entries as [|[k v] rest IH]; intros Hf acc vis Hb; simpl;
    [discriminate|].
  assert (Hrest : forall kv visited, In kv rest -> budget n visited ->
                                     ended (f (snd kv) visited))
    by (intros kv w Hin; apply Hf; right; exact Hin).
  destruct (isJsonValue v); [|apply IH; assumption].
  pose proof (Hf (k, v) vis (or_introl eq_refl) Hb) as Hv. simpl in Hv.
  destruct (f v vis) as [v' vis1| | |] eqn:Ev; simpl; try discriminate; [|contradiction].
  assert (Hb1 : budget n vis1) by (eapply budget_mono; [exact (Hg _ _ _ _ Ev)|exact Hb]).
  destruct (String.eqb k "__proto__"); [destruct (Js.typeof_object v'); [discriminate|]|];
    apply IH; assumption.
Qed.

(** With [n] unvisited reference strings left, a walk from [v] needs a
    recursion depth of at most [n] schema bodies plus the height of
    [v]. *)
Lemma resolve_ended_within n :
  forall v visited fuel,
    budget n visited ->
    refs v ⊆ U ->
    n * S (table_height spec) + height v <= fuel ->
    ended (resolveSchemaReferences fuel spec v visited).
Proof.
  induction n as [n IHn] using lt_wf_ind.
  induction v as [ | b | z | s | items IH | o IH ] using JsonValue_nested_ind;
    intros vis fuel Hb Hrefs Hfuel;
    (destruct fuel as [|fuel]; [simpl in Hfuel; lia|]);
    cbn [resolveSchemaReferences]; unfold resolve_body; try discriminate.
  - assert (He : ended (map_items (resolveSchemaReferences fuel spec) items vis)).
    { apply (map_items_ended _ n); [apply resolve_grows| |exact Hb].
      intros x w Hin Hw. rewrite Forall_forall in IH.
      apply (IH x (proj2 (list_elem_of_In _ _) Hin)); [exact Hw| |].
      - etrans; [apply refs_item; exact Hin|exact Hrefs].
      - pose proof (height_item x items Hin). lia. }
    destruct (map_items _ items vis); simpl; try discriminate. contradiction.
  - destruct (Js.own_get o "$ref") as [[ | | | ref | | ]|] eqn:Eref; try discriminate.
    + destruct (decide (ref ∈ vis)); [discriminate|]. cbv zeta.
      destruct (schema_name_of_ref ref) as [name|]; [|discriminate].
      destruct (schemas spec) as [table|] eqn:Etab; [|discriminate].
      unfold Js.js_get.
      destruct (Js.own_get table name) as [s|] eqn:Es;
        [|destruct (Js.inherited_name name); discriminate].
      destruct (Js.truthy s); [|discriminate].
      assert (HrefU : ref ∈ U).
      { apply Hrefs. simpl. rewrite Eref. set_solver. }
      destruct (budget_spend n vis ref HrefU n0 Hb) as (m & -> & Hm).
      assert (Hs : Js.own_get (table_of spec) name = Some s)
        by (unfold table_of; rewrite Etab; exact Es).
      apply own_get_table in Hs as [HsU Hsh].
      apply (IHn m); [lia|exact Hm|etrans; [exact HsU|exact table_in_U]|].
      simpl in Hfuel. lia.
    + assert (He : ended (assign_entries (resolveSchemaReferences fuel spec)
                            (Js.Object_entries o) [] vis)).
      { apply (assign_entries_ended _ n); [apply resolve_grows| |exact Hb].
        intros kv w Hin Hw. apply (proj1 (In_Object_entries _ _)) in Hin.
        rewrite Forall_forall in IH.
        apply (IH kv (proj2 (list_elem_of_In _ _) Hin)); [exact Hw| |].
        - etrans; [apply refs_prop; exact Hin|exact Hrefs].
        - pose proof (height_prop kv o Hin). lia. }
      destruct (assign_entries _ _ [] vis); simpl; try discriminate. contradiction.
Qed.

End Termination.

(** Every resolution terminates: some recursion depth suffices, and any
    larger one gives the same result. *)
Lemma resolve_terminates (spec : OpenAPISpec) (v : JsonValue) (visited : gset string) :
  exists fuel,
    ended (resolveSchemaReferences fuel spec v visited) /\
    forall fuel', fuel <= fuel' ->
      resolveSchemaReferences fuel' spec v visited =
      resolveSchemaReferences fuel spec v visited.
Proof.
  set (U := universe spec v).
  exists (size (U ∖ visited) * S (table_height spec) + height v).
  assert (He : ended (resolveSchemaReferences
                        (size (U ∖ visited) * S (table_height spec) + height v)
                        spec v visited)).
  { apply (resolve_ended_within spec U) with (n := size (U ∖ visited)).
    - unfold U, universe. set_solver.
    - unfold budget. reflexivity.
    - unfold U, universe. set_solver.
    - reflexivity. }
  split; [exact He|].
  intros fuel' Hle. apply (resolve_fuel_mono spec _ _ Hle). exact He.
Qed.

(** *** Runs that neither fail nor leave the model *)

(** The reference names a schema of the table, or nothing at all: not a
    member the table inherits. *)
Definition safe_ref (table : option (list (string * JsonValue))) (ref : string) : bool :=
  match schema_name_of_ref ref, table with
  | Some name, Some t =>
      match Js.js_get t name with Js.Inherited _ => false | _ => true end
  | _, _ => true
  end.

(** Every [$ref] is a string (as [OpenAPISchema] declares), none leads to
    an inherited member, and no object has a [__proto__] key. *)
Fixpoint safe_value (table : option (list (string * JsonValue))) (v : JsonValue) : bool :=
  match v with
  | JArr items => forallb (safe_value table) items
  | JObj o =>
      match Js.own_get o "$ref" with
      | Some (JStr ref) => safe_ref table ref
      | Some _ => false
      | None => true
      end
      && forallb (fun kv => negb (String.eqb (fst kv) "__proto__")) o
      && forallb (fun kv => safe_value table (snd kv)) o
  | _ => true
  end.

Definition safe_spec (spec : OpenAPISpec) : bool :=
  forallb (fun kv => safe_value (schemas spec) (snd kv)) (table_of spec).

Definition clean {A} (r : Resolution A) : Prop :=
  match r with Failed _ | BeyondModel => False | _ => True end.

Lemma isJsonValue_true (v : JsonValue) : isJsonValue v = true.
Proof.
  induction v as [ | b | n | s | items IH | o IH ] using JsonValue_nested_ind;
    simpl; try reflexivity.
  - apply forallb_forall. intros x Hx. rewrite Forall_forall in IH.
    apply IH, list_elem_of_In, Hx.
  - apply forallb_forall. intros x Hx. rewrite Forall_forall in IH.
    apply IH, list_elem_of_In, Hx.
Qed.

Lemma map_items_clean f items :
  (forall x visited, In x items -> clean (f x visited)) ->
  forall visited, clean (map_items f items visited).
Proof.
  induction items as [|x rest IH]; intros Hf vis; simpl; [exact I|].
  pose proof (Hf x vis (or_introl eq_refl)) as Hx.
  destruct (f x vis) as [x' vis1| | |]; simpl; try exact Hx.
  assert (Hr : clean (map_items f rest vis1))
    by (apply IH; intros y w Hy; apply Hf; right; exact Hy).
  destruct (map_items f rest vis1); simpl; exact Hr || exact I.
Qed.

Lemma assign_entries_clean f entries :
  (forall kv visited, In kv entries -> clean (f (snd kv) visited)) ->
  (forall kv, In kv entries -> String.eqb (fst kv) "__proto__" = false) ->
  forall resolved visited, clean (assign_entries f entries resolved visited).
Proof.
  induction entries as [|[k v] rest IH]; intros Hf Hk acc vis; simpl; [exact I|].
  assert (IH' : forall acc vis, clean (assign_entries f rest acc vis)).
  { apply IH; intros kv; [intros w Hin; apply Hf|intros Hin; apply Hk]; right; exact Hin. }
  destruct (isJsonValue v); [|apply IH'].
  pose proof (Hf (k, v) vis (or_introl eq_refl)) as Hv. simpl in Hv.
  destruct (f v vis) as [v' vis1| | |]; simpl; try exact Hv.
  pose proof (Hk (k, v) (or_introl eq_refl)) as Hkey. simpl in Hkey.
  rewrite Hkey. apply IH'.
Qed.

Lemma resolve_clean spec :
  safe_spec spec = true ->
  forall fuel v visited,
    safe_value (schemas spec) v = true ->
    clean (resolveSchemaReferences fuel spec v visited).
Proof.
  intros Hspec. induction fuel as [|fuel IH]; intros v vis Hv; [exact I|].
  cbn [resolveSchemaReferences]. unfold resolve_body.
  destruct v as [ | b | n | s | items | o ]; try exact I.
  - simpl in Hv. rewrite forallb_forall in Hv.
    assert (Hm : clean (map_items (resolveSchemaReferences fuel spec) items vis))
      by (apply map_items_clean; intros x w Hx; apply IH, Hv, Hx).
    destruct (map_items _ items vis); simpl; exact Hm || exact I.
  - simpl in Hv. rewrite !andb_true_iff, !forallb_forall in Hv.
    destruct Hv as [[Href Hproto] Hchildren].
    destruct (Js.own_get o "$ref") as [[ | | | ref | | ]|]; try discriminate.
    + destruct (decide (ref ∈ vis)); [exact I|]. cbv zeta.
      unfold safe_ref in Href.
      destruct (schema_name_of_ref ref) as [name|]; [|exact I].
      destruct (schemas spec) as [table|] eqn:Etab; [|exact I].
      unfold Js.js_get in *.
      destruct (Js.own_get table name) as [s|] eqn:Es.
      * destruct (Js.truthy s); [|exact I]. apply IH.
        unfold safe_spec, table_of in Hspec. rewrite Etab in Hspec. simpl in Hspec.
        rewrite forallb_forall in Hspec.
        apply (Hspec (name, s)), (own_get_In _ _ _ Es).
      * destruct (Js.inherited_name name); [discriminate|exact I].
    + assert (Ha : clean (assign_entries (resolveSchemaReferences fuel spec)
                            (Js.Object_entries o) [] vis)).
      { apply assign_entries_clean.
        - intros kv w Hin. apply IH, Hchildren, In_Object_entries, Hin.
        - intros kv Hin. apply (proj1 (In_Object_entries _ _)) in Hin.
          apply negb_true_iff, Hproto, Hin. }
      destruct (assign_entries _ _ [] vis); simpl; exact Ha || exact I.
Qed.

(** A safe resolution returns a value. *)
Lemma resolve_returns spec v visited :
  safe_spec spec = true ->
  safe_value (schemas spec) v = true ->
  exists fuel result visited',
    forall fuel', fuel <= fuel' ->
      resolveSchemaReferences fuel' spec v visited = Resolved result visited'.
Proof.
  intros Hspec Hv.
  destruct (resolve_terminates spec v visited) as (fuel & He & Hmono).
  pose proof (resolve_clean spec Hspec fuel v visited Hv) as Hc.
  destruct (resolveSchemaReferences fuel spec v visited) as [r w| | |] eqn:E;
    try contradiction; try (exfalso; apply He; reflexivity).
  exists fuel, r, w. exact Hmono.
Qed.

(** *** The cycle guard *)

(** A position inside a value: property names and array indices from the
    root. *)
Inductive Step : Type :=
| Key (k : string)
| Index (i : nat).

Fixpoint get_path (v : JsonValue) (p : list Step) : option JsonValue :=
  match p, v with
  | [], _ => Some v
  | Key k :: p', JObj o =>
      match Js.own_get o k with Some c => get_path c p' | None => None end
  | Index i :: p', JArr items =>
      match nth_error items i with Some c => get_path c p' | None => None end
  | _, _ => None
  end.

(** The position exists and the resolver walks down to it: no object on
    the way is itself a reference node. *)
Fixpoint walkable (v : JsonValue) (p : list Step) : Prop :=
  match p, v with
  | [], _ => True
  | Key k :: p', JObj o =>
      Js.own_get o "$ref" = None /\ NoDup (Js.keys o) /\ k <> "__proto__" /\
      match Js.own_get o k with Some c => walkable c p' | None => False end
  | Index i :: p', JArr items =>
      match nth_error items i with Some c => walkable c p' | None => False end
  | _, _ => False
  end.

Lemma map_items_at f items :
  grows f ->
  forall visited items' visited' i c,
    map_items f items visited = Resolved items' visited' ->
    nth_error items i = Some c ->
    exists c' w w', visited ⊆ w /\ f c w = Resolved c' w' /\
                    nth_error items' i = Some c'.
Proof.
  intros Hg. induction items as [|x rest IH]; intros vis l' vis' i c; simpl.
  - destruct i; discriminate.
  - destruct (f x vis) as [x' vis1| | |] eqn:Hx; simpl; try discriminate.
    destruct (map_items f rest vis1) as [r' vis2| | |] eqn:Hr; simpl; try discriminate.
    intros [= <- <-]. destruct i as [|i]; simpl.
    + intros [= <-]. exists x', vis, vis1. auto.
    + intros Hi. destruct (IH _ _ _ _ _ Hr Hi) as (c' & w & w' & Hw & Hf & Hn).
      exists c', w, w'. split; [|auto]. etrans; [exact (Hg _ _ _ _ Hx)|exact Hw].
Qed.

Lemma assign_entries_at f (Q : JsonValue -> Prop) k entries :
  grows f ->
  k <> "__proto__" ->
  forall resolved visited resolved' visited',
    assign_entries f entries resolved visited = Resolved resolved' visited' ->
    (forall v w v' w', In (k, v) entries -> visited ⊆ w ->
                       f v w = Resolved v' w' -> Q v') ->
    (exists v', Js.own_get resolved k = Some v' /\ Q v') \/ (exists v, In (k, v) entries) ->
    exists v', Js.own_get resolved' k = Some v' /\ Q v'.
Proof.
  intros Hg Hk. induction entries as [|[k0 v0] rest IH]; intros acc vis acc' vis'; simpl.
  - intros [= <- _] _ [H | [v []]]. exact H.
  - rewrite isJsonValue_true.
    destruct (f v0 vis) as [v0' vis1| | |] eqn:Hv; simpl; try discriminate.
    pose proof (Hg _ _ _ _ Hv) as Hsub.
    intros Hrun HQ Hinv.
    assert (HQ' : forall v w v' w', In (k, v) rest -> vis1 ⊆ w ->
                                    f v w = Resolved v' w' -> Q v').
    { intros v w v' w' Hin Hw. apply (HQ v w v' w'); [right; exact Hin|].
      etrans; [exact Hsub|exact Hw]. }
    destruct (String.eqb k0 k) eqn:Ek.
    + apply String.eqb_eq in Ek. subst k0.
      apply String.eqb_neq in Hk. rewrite Hk in Hrun.
      apply (IH _ _ _ _ Hrun HQ'). left. exists v0'.
      split; [rewrite own_get_obj_set, String.eqb_refl; reflexivity|].
      apply (HQ v0 vis v0' vis1); [left; reflexivity|reflexivity|exact Hv].
    + assert (Hinv' : forall acc1,
                Js.own_get acc1 k = Js.own_get acc k ->
                (exists v', Js.own_get acc1 k = Some v' /\ Q v') \/
                (exists v, In (k, v) rest)).
      { intros acc1 Heq. rewrite Heq. destruct Hinv as [H | [v [Hin | Hin]]].
        - left. exact H.
        - injection Hin as -> _. rewrite String.eqb_refl in Ek. discriminate.
        - right. exists v. exact Hin. }
      destruct (String.eqb k0 "__proto__").
      * destruct (Js.typeof_object v0'); [discriminate|].
        apply (IH _ _ _ _ Hrun HQ'). apply Hinv'. reflexivity.
      * apply (IH _ _ _ _ Hrun HQ'). apply Hinv'.
        rewrite own_get_obj_set, Ek. reflexivity.
Qed.

Section CycleGuard.

Variable spec : OpenAPISpec.
Variable target : string.
Let marker : JsonValue := JObj [("$ref", JStr target)].

(** Once [target] has been visited, whatever position holds a reference
    to it holds the bare wrapper after resolution. *)
Lemma marker_at_path (p : list Step) :
  forall v fuel visited result visited' inner,
    target ∈ visited ->
    resolveSchemaReferences fuel spec v visited = Resolved result visited' ->
    walkable v p ->
    get_path v p = Some (JObj inner) ->
    Js.own_get inner "$ref" = Some (JStr target) ->
    get_path result p = Some marker.
Proof.
  induction p as [|[k|i] p' IH]; intros v fuel vis r vis' inner Hin Hrun Hw Hget Href;
    (destruct fuel as [|fuel]; [discriminate|]);
    cbn [resolveSchemaReferences] in Hrun; unfold resolve_body in Hrun.
  - simpl in Hget. injection Hget as ->. rewrite Href in Hrun.
    destruct (decide (target ∈ vis)); [|contradiction].
    injection Hrun as <- _. reflexivity.
  - destruct v as [ | | | | | o ]; try discriminate.
    simpl in Hw, Hget. destruct Hw as (Hnoref & Hnd & Hk & Hw).
    rewrite Hnoref in Hrun.
    destruct (Js.own_get o k) as [c|] eqn:Ec; [|discriminate].
    destruct (assign_entries _ _ [] vis) as [res w| | |] eqn:Ha; try discriminate.
    simpl in Hrun. injection Hrun as <- _.
    destruct (assign_entries_at _ (fun v' => get_path v' p' = Some marker) k _
                (resolve_grows fuel spec) Hk _ _ _ _ Ha) as (v' & Hv' & HQ).
    + intros v w0 v' w' Hentry Hsub Hres.
      apply (proj1 (In_Object_entries _ _)) in Hentry.
      rewrite (In_own_get _ _ _ Hnd Hentry) in Ec. injection Ec as ->.
      apply (IH c fuel w0 v' w' inner); auto.
    + right. exists c. apply In_Object_entries, own_get_In, Ec.
    + simpl. rewrite Hv'. exact HQ.
  - destruct v as [ | | | | items | ]; try discriminate.
    simpl in Hw, Hget.
    destruct (nth_error items i) as [c|] eqn:Ec; [|discriminate].
    destruct (map_items _ items vis) as [l w| | |] eqn:Hm; try discriminate.
    simpl in Hrun. injection Hrun as <- _.
    destruct (map_items_at _ _ (resolve_grows fuel spec) _ _ _ _ _ Hm Ec)
      as (c' & w0 & w' & Hsub & Hres & Hn).
    simpl. rewrite Hn. apply (IH c fuel w0 c' w' inner); auto.
Qed.

End CycleGuard.

Definition no_slash (name : string) : bool :=
  forallb (fun c => negb (Ascii.eqb c "/")) (list_ascii_of_string name).

Lemma append_snoc (cur : string) (c : ascii) (s : string) :
  (cur +:+ String c EmptyString) +:+ s = cur +:+ String c s.
Proof.
  induction cur as [|d cur IH]; [reflexivity|].
  change (String d ((cur +:+ String c EmptyString) +:+ s) = String d (cur +:+ String c s)).
  f_equal. exact IH.
Qed.

Lemma append_empty_r (s : string) : s +:+ "" = s.
Proof.
  induction s as [|d s IH]; [reflexivity|].
  change (String d (s +:+ "") = String d s). f_equal. exact IH.
Qed.

Lemma split_acc_no_sep (s : string) :
  no_slash s = true ->
  forall cur, JsString.split_acc "/" cur s = [cur +:+ s].
Proof.
  unfold no_slash. induction s as [|c s IH]; simpl; intros H cur.
  - rewrite append_empty_r. reflexivity.
  - apply andb_true_iff in H as [Hc Hs]. apply negb_true_iff in Hc.
    rewrite Hc, (IH Hs), append_snoc. reflexivity.
Qed.

Lemma split_acc_part (part rest : string) :
  no_slash part = true ->
  forall cur,
    JsString.split_acc "/" cur (part +:+ String "/" rest) =
    (cur +:+ part) :: JsString.split_acc "/" "" rest.
Proof.
  unfold no_slash. induction part as [|c part IH]; intros H cur.
  - change ("" +:+ String "/" rest) with (String "/" rest).
    rewrite append_empty_r. reflexivity.
  - change (String c part +:+ String "/" rest)
      with (String c (part +:+ String "/" rest)).
    simpl in H. apply andb_true_iff in H as [Hc Hs]. apply negb_true_iff in Hc.
    cbn [JsString.split_acc]. rewrite Hc, (IH Hs), append_snoc. reflexivity.
Qed.

Lemma schema_name_of_plain_ref (name : string) :
  no_slash name = true ->
  schema_name_of_ref ("#/components/schemas/" +:+ name) = Some name.
Proof.
  intros H. unfold schema_name_of_ref, JsString.split.
  change ("#/components/schemas/" +:+ name)
    with ("#" +:+ String "/" ("components" +:+ String "/" ("schemas" +:+ String "/" name))).
  rewrite !split_acc_part by reflexivity.
  rewrite (split_acc_no_sep name H). reflexivity.
Qed.

(** C2. A schema [A] that holds, at some position the resolver walks down
    to, a reference to [#/components/schemas/A]: resolving a node that
    refers to [A] terminates and returns a value, and that value holds the
    bare [{$ref}] wrapper at that position.  The schema table is assumed
    well-typed ([safe_spec]) and the name to be free of slashes. *)
Theorem self_reference_terminates
    (spec : OpenAPISpec) (table : list (string * JsonValue)) (A : string)
    (body node inner : list (string * JsonValue)) (p : list Step) :
  let target := "#/components/schemas/" +:+ A in
  schemas spec = Some table ->
  Js.own_get table A = Some (JObj body) ->
  no_slash A = true ->
  safe_spec spec = true ->
  Js.own_get node "$ref" = Some (JStr target) ->
  walkable (JObj body) p ->
  get_path (JObj body) p = Some (JObj inner) ->
  Js.own_get inner "$ref" = Some (JStr target) ->
  exists fuel result visited,
    (forall fuel', fuel <= fuel' ->
       resolve fuel' spec (JObj node) = Resolved result visited) /\
    get_path result p = Some (JObj [("$ref", JStr target)]).
Proof.
  intros target Htab HA Hname Hsafe Hnode Hwalk Hget Hinner.
  assert (Hbody : safe_value (schemas spec) (JObj body) = true).
  { unfold safe_spec, table_of in Hsafe. rewrite Htab in Hsafe. simpl in Hsafe.
    rewrite forallb_forall in Hsafe. rewrite Htab.
    apply (Hsafe (A, JObj body)), (own_get_In _ _ _ HA). }
  destruct (resolve_returns spec (JObj body) ({[target]} ∪ ∅) Hsafe Hbody)
    as (fuel & result & visited & Hrun).
  exists (S fuel), result, visited. split.
  - intros fuel' Hle. destruct fuel' as [|fuel']; [lia|].
    unfold resolve. cbn [resolveSchemaReferences]. unfold resolve_body.
    rewrite Hnode. destruct (decide (target ∈ (∅ : gset string))) as [Hin|_];
      [set_solver|]. cbv zeta.
    unfold target at 1. rewrite (schema_name_of_plain_ref A Hname), Htab.
    rewrite (own_get_js_get _ _ _ HA). simpl Js.truthy. cbv iota.
    apply Hrun. lia.
  - apply (marker_at_path spec target p (JObj body) fuel ({[target]} ∪ ∅)
             result visited inner); auto.
    apply elem_of_union_l, elem_of_singleton. reflexivity.
Qed.

(** A tree node whose [child] property refers back to the node schema. *)
Definition tree_table : list (string * JsonValue) :=
  [("Node",
    JObj [("type", JStr "object");
          ("properties",
           JObj [("value", JObj [("type", JStr "string")]);
                 ("child", ref_to "Node")])])].

Definition tree_spec : OpenAPISpec :=
  {| info := None; paths := []; schemas := Some tree_table |}.

Example tree_resolution :
  value_of (resolve 10 tree_spec (ref_to "Node")) =
  Some (JObj [("type", JStr "object");
              ("properties",
               JObj [("value", JObj [("type", JStr "string")]);
                     ("child", ref_to "Node")])]).
Proof. vm_compute. reflexivity. Qed.

Ltac distinct_strings :=
  repeat (apply NoDup_cons; split;
          [rewrite ?elem_of_cons, ?elem_of_nil; intuition discriminate|]);
  apply NoDup_nil_2.

Lemma self_reference_terminates_witness :
  exists fuel result visited,
    (forall fuel', fuel <= fuel' ->
       resolve fuel' tree_spec (ref_to "Node") = Resolved result visited) /\
    get_path result [Key "properties"; Key "child"] = Some (ref_to "Node").
Proof.
  apply (self_reference_terminates tree_spec tree_table "Node"
           [("type", JStr "object");
            ("properties",
             JObj [("value", JObj [("type", JStr "string")]);
                   ("child", ref_to "Node")])]
           [("$ref", JStr "#/components/schemas/Node")]
           [("$ref", JStr "#/components/schemas/Node")]
           [Key "properties"; Key "child"]);
    try reflexivity.
  simpl. repeat split; try discriminate; distinct_strings.
Defined.

(** *** Repeated references *)

(** The reference graph of the schema table is acyclic: the schemas can be
    ranked so that every reference found in a schema leads to a schema of
    lower rank. *)
Definition acyclic (spec : OpenAPISpec) : Prop :=
  exists rank : string -> nat,
    forall A body r B target,
      In (A, body) (table_of spec) ->
      r ∈ refs body ->
      schema_name_of_ref r = Some B ->
      Js.own_get (table_of spec) B = Some target ->
      rank B < rank A.

Lemma diamond_acyclic : acyclic diamond_spec.
Proof.
  exists (fun _ => 0). intros A body r B target [[= <- <-] | []] Hr.
  exfalso. simpl in Hr.
  rewrite !elem_of_union in Hr.
  destruct Hr as [Hr|[Hr|Hr]]; revert Hr; apply not_elem_of_empty.
Qed.

(** C1 does not hold of the code.  The visited set is one mutable set for
    the whole walk and a reference string is never taken out of it, so the
    second reference to a schema is left unresolved although nothing is
    cyclic; a second resolution, starting from a new set, expands it. *)
Theorem diamond_resolution_not_idempotent :
  acyclic diamond_spec /\
  exists once twice,
    (forall fuel, 4 <= fuel ->
       value_of (resolve fuel diamond_spec diamond_node) = Some once) /\
    (forall fuel, 4 <= fuel ->
       value_of (resolve fuel diamond_spec once) = Some twice) /\
    once = JObj [("billing", JObj [("type", JStr "string")]);
                 ("shipping", ref_to "Address")] /\
    twice = JObj [("billing", JObj [("type", JStr "string")]);
                  ("shipping", JObj [("type", JStr "string")])] /\
    twice <> once.
Proof.
  split; [exact diamond_acyclic|].
  eexists _, _. split; [|split; [|split; [reflexivity|split; [reflexivity|discriminate]]]].
  - intros fuel Hle. unfold resolve.
    rewrite (resolve_fuel_mono diamond_spec 4 fuel Hle);
      [vm_compute; reflexivity | vm_compute; discriminate].
  - intros fuel Hle. unfold resolve.
    rewrite (resolve_fuel_mono diamond_spec 4 fuel Hle);
      [vm_compute; reflexivity | vm_compute; discriminate].
Qed.

(* ===================================================================== *)
(** ** What the resolver writes *)
(* ===================================================================== *)

(** Every cell of [h] outside [X] is the same in [h'], and no cell is
    gone. *)
Definition unchanged_except (X : gset Store.loc) (h h' : Store.store) : Prop :=
  (forall l c, h !! l = Some c -> l ∉ X -> h' !! l = Some c) /\
  dom h ⊆ dom h'.

(** The computation writes to no cell that existed before it, outside
    [X]. *)
Definition frames {A} (X : gset Store.loc) (m : Store.Run A) : Prop :=
  forall h o h', m h = (o, h') -> unchanged_except X h h'.

Lemma unchanged_refl X h : unchanged_except X h h.
Proof. split; [intros l c H _; exact H | reflexivity]. Qed.

Lemma unchanged_trans X h1 h2 h3 :
  unchanged_except X h1 h2 -> unchanged_except X h2 h3 -> unchanged_except X h1 h3.
Proof.
  intros [H12 D12] [H23 D23]. split.
  - intros l c Hl HX. apply H23; [apply H12|]; assumption.
  - etrans; eassumption.
Qed.

Lemma unchanged_insert X (h : Store.store) l c :
  (is_Some (h !! l) -> l ∈ X) -> unchanged_except X h (<[l := c]> h).
Proof.
  intros HX. split.
  - intros l' c' Hl' Hn. rewrite lookup_insert_ne; [exact Hl'|].
    intros ->. apply Hn, HX. eauto.
  - rewrite dom_insert. apply union_subseteq_r.
Qed.

Lemma frames_mono {A} X Y (m : Store.Run A) : X ⊆ Y -> frames X m -> frames Y m.
Proof.
  intros Hsub Hm h o h' Hrun. destruct (Hm h o h' Hrun) as [H D].
  split; [|exact D]. intros l c Hl HY. apply (H l c Hl). intros HX. apply HY, Hsub, HX.
Qed.

Lemma frames_ret {A} X (a : A) : frames X (Store.ret a).
Proof. intros h o h' [= _ <-]. apply unchanged_refl. Qed.

Lemma frames_stop {A} X (o : Store.Outcome A) : frames X (Store.stop o).
Proof. intros h o' h' [= _ <-]. apply unchanged_refl. Qed.

Lemma frames_read X l : frames X (Store.read l).
Proof.
  intros h o h'. unfold Store.read. destruct (h !! l); intros [= _ <-];
    apply unchanged_refl.
Qed.

Lemma frames_write X l c : l ∈ X -> frames X (Store.write l c).
Proof. intros HX h o h' [= _ <-]. apply unchanged_insert. auto. Qed.

Lemma frames_bind {A B} X (m : Store.Run A) (f : A -> Store.Run B) :
  frames X m -> (forall a, frames X (f a)) -> frames X (Store.bind m f).
Proof.
  intros Hm Hf h o h'. unfold Store.bind.
  destruct (m h) as [[a| | |] h1] eqn:E; pose proof (Hm _ _ _ E) as H1.
  - intros Hrun. eapply unchanged_trans; [exact H1|exact (Hf a _ _ _ Hrun)].
  - intros [= _ <-]. exact H1.
  - intros [= _ <-]. exact H1.
  - intros [= _ <-]. exact H1.
Qed.

(** What is done to a newly allocated cell is done to no earlier cell. *)
Lemma frames_alloc {B} X (c : Store.Cell) (f : Store.loc -> Store.Run B) :
  (forall l, frames (X ∪ {[l]}) (f l)) -> frames X (Store.bind (Store.alloc c) f).
Proof.
  intros Hf h o h'. unfold Store.bind, Store.alloc. intros Hrun.
  destruct (Hf _ _ _ _ Hrun) as [H D].
  assert (Hfresh : h !! fresh (dom h) = None) by apply not_elem_of_dom, is_fresh.
  split.
  - intros l0 c0 Hl0 HX.
    assert (Hne : fresh (dom h) <> l0) by (intros <-; congruence).
    apply H.
    + rewrite lookup_insert_ne; [exact Hl0|exact Hne].
    + rewrite elem_of_union, elem_of_singleton. intros [?|?]; [contradiction|congruence].
  - etrans; [|exact D]. rewrite dom_insert. apply union_subseteq_r.
Qed.

Lemma frames_every X f l :
  (forall v, frames X (f v)) -> frames X (Store.every f l).
Proof.
  intros Hf. induction l as [|x rest IH]; simpl; [apply frames_ret|].
  apply frames_bind; [apply Hf|]. intros []; [exact IH|apply frames_ret].
Qed.

Lemma frames_isJsonValue X fuel : forall v, frames X (Store.isJsonValue fuel v).
Proof.
  induction fuel as [|fuel IH]; intros v; simpl; [apply frames_stop|].
  destruct v; try apply frames_ret.
  apply frames_bind; [apply frames_read|].
  intros [items|props|members];
    [apply frames_every, IH | apply frames_every, IH | apply frames_ret].
Qed.

Lemma frames_map_items X self items :
  (forall v, frames X (self v)) -> frames X (Store.map_items self items).
Proof.
  intros Hs. induction items as [|x rest IH]; simpl; [apply frames_ret|].
  apply frames_bind; [apply Hs|]. intros x'.
  apply frames_bind; [exact IH|]. intros r. apply frames_ret.
Qed.

Lemma frames_assign_entries X fuel self entries resolved :
  resolved ∈ X ->
  (forall v, frames X (self v)) ->
  frames X (Store.assign_entries fuel self entries resolved).
Proof.
  intros HX Hs. induction entries as [|[k v] rest IH]; simpl; [apply frames_ret|].
  apply frames_bind; [apply frames_isJsonValue|]. intros []; [|exact IH].
  apply frames_bind; [apply Hs|]. intros v'.
  destruct (String.eqb k "__proto__").
  - destruct v'; (exact IH || apply frames_stop).
  - apply frames_bind; [apply frames_read|].
    intros [items|props|members]; try apply frames_stop.
    apply frames_bind; [apply frames_write, HX|]. intros _. exact IH.
Qed.

Lemma frames_resolve_body fuel self table visited obj :
  (forall v, frames {[visited]} (self v)) ->
  frames {[visited]} (Store.resolve_body fuel self table visited obj).
Proof.
  intros Hs. unfold Store.resolve_body.
  destruct obj as [ | | | | l]; try apply frames_ret.
  apply frames_bind; [apply frames_read|].
  intros [items|props|members].
  - apply frames_bind; [apply frames_map_items, Hs|]. intros items'.
    apply frames_alloc. intros l'. apply frames_ret.
  - destruct (Js.own_get props "$ref") as [ref|].
    + apply frames_bind; [apply frames_read|].
      intros [?|?|members]; try apply frames_stop.
      destruct (decide (ref ∈ members)).
      * apply frames_alloc. intros l'. apply frames_ret.
      * apply frames_bind; [apply frames_write; set_solver|]. intros _.
        destruct ref as [ | | |r| ]; try apply frames_stop.
        destruct (schema_name_of_ref r) as [name|]; [|apply frames_ret].
        destruct table as [t|]; [|apply frames_ret].
        apply frames_bind; [apply frames_read|].
        intros [?|schemas|?]; try apply frames_stop.
        destruct (Js.js_get schemas name) as [s| |];
          [|apply frames_stop|apply frames_ret].
        destruct (Store.truthy s); [apply Hs|apply frames_ret].
    + apply frames_alloc. intros resolved.
      apply frames_bind; [|intros _; apply frames_ret].
      apply frames_assign_entries; [set_solver|].
      intros v. eapply frames_mono; [|apply Hs]. set_solver.
  - apply frames_alloc. intros l'. apply frames_ret.
Qed.

Lemma frames_resolveSchemaReferences fuel table visited :
  forall obj, frames {[visited]} (Store.resolveSchemaReferences fuel table visited obj).
Proof.
  induction fuel as [|fuel IH]; intros obj; simpl; [apply frames_stop|].
  apply frames_resolve_body, IH.
Qed.

(** The [Set] of a top-level call. *)
Definition visited_of (h : Store.store) : Store.loc := fresh (dom h).

(** C9. A top-level resolution, whatever it ends in and however deep it is
    allowed to recurse, leaves every cell that existed before the call as
    it was: the cells of the node, those of the specification and its
    schema table, and any set made by an earlier call.  Its own visited set
    is a cell that did not exist before the call, so two top-level calls
    never use the same set, and the later call leaves the set of the
    earlier one untouched. *)
Theorem resolve_has_no_side_effects
    (fuel : nat) (table : option Store.loc) (obj : Store.Value)
    (h h' : Store.store) (outcome : Store.Outcome Store.Value) :
  Store.resolve fuel table obj h = (outcome, h') ->
  (forall l c, h !! l = Some c -> h' !! l = Some c)
  /\ h !! visited_of h = None
  /\ (forall fuel2 obj2 outcome2 h'',
        Store.resolve fuel2 table obj2 h' = (outcome2, h'') ->
        visited_of h' <> visited_of h /\
        h'' !! visited_of h = h' !! visited_of h).
Proof.
  intros Hrun.
  assert (Htop : forall f o (k k' : Store.store) r,
            Store.resolve f table o k = (r, k') -> unchanged_except ∅ k k').
  { intros f o k k' r. apply (frames_alloc ∅ _ _).
    intros l. eapply frames_mono; [|apply frames_resolveSchemaReferences].
    apply union_subseteq_r. }
  assert (Hnew : forall k : Store.store, k !! visited_of k = None).
  { intros k. unfold visited_of. apply not_elem_of_dom. apply is_fresh. }
  assert (Hset : is_Some (h' !! visited_of h)).
  { unfold Store.resolve, Store.bind, Store.alloc in Hrun. fold (visited_of h) in Hrun.
    destruct (frames_resolveSchemaReferences fuel table (visited_of h) obj _ _ _ Hrun)
      as [_ D].
    apply elem_of_dom, D. rewrite dom_insert.
    apply elem_of_union_l, elem_of_singleton. reflexivity. }
  split; [|split].
  - intros l c Hl. apply (proj1 (Htop _ _ _ _ _ Hrun) l c Hl), not_elem_of_empty.
  - apply Hnew.
  - intros fuel2 obj2 outcome2 h'' Hrun2. split.
    + intros Heq. destruct Hset as [c Hc]. rewrite <- Heq, Hnew in Hc. discriminate.
    + destruct Hset as [c Hc]. rewrite Hc.
      apply (proj1 (Htop _ _ _ _ _ Hrun2) _ c Hc), not_elem_of_empty.
Qed.

(** The schema table and the node of [diamond_spec], laid out in an empty
    store. *)
Definition diamond_layout : (Store.Value * Store.Value) * gmap nat Store.Cell :=
  match Store.store_value (JObj (table_of diamond_spec)) ∅ with
  | (Store.Returned t, h1) =>
      match Store.store_value diamond_node h1 with
      | (Store.Returned n, h2) => ((t, n), h2)
      | (_, h2) => ((t, Store.VNull), h2)
      end
  | (_, h1) => ((Store.VNull, Store.VNull), h1)
  end.

Definition location_of (v : Store.Value) : option nat :=
  match v with Store.VRef l => Some l | _ => None end.

Definition diamond_run : Store.Outcome Store.Value * gmap nat Store.Cell :=
  Store.resolve 10 (location_of (fst (fst diamond_layout)))
    (snd (fst diamond_layout)) (snd diamond_layout).

(** On this input the two embeddings of the resolver agree, and the node
    reads the same before and after. *)
Example diamond_run_agrees :
  match diamond_run with
  | (Store.Returned v, h') =>
      Store.load_value 10 h' v = value_of (resolve 10 diamond_spec diamond_node) /\
      Store.load_value 10 h' (snd (fst diamond_layout)) = Some diamond_node
  | _ => False
  end.
Proof. vm_compute. split; reflexivity. Qed.

Lemma resolve_has_no_side_effects_witness :
  (forall l c, snd diamond_layout !! l = Some c -> snd diamond_run !! l = Some c)
  /\ snd diamond_layout !! visited_of (snd diamond_layout) = None
  /\ (forall fuel2 obj2 outcome2 h'',
        Store.resolve fuel2 (location_of (fst (fst diamond_layout))) obj2
          (snd diamond_run) = (outcome2, h'') ->
        visited_of (snd diamond_run) <> visited_of (snd diamond_layout) /\
        h'' !! visited_of (snd diamond_layout)
          = snd diamond_run !! visited_of (snd diamond_layout)).
Proof.
  apply (resolve_has_no_side_effects 10 (location_of (fst (fst diamond_layout)))
           (snd (fst diamond_layout)) (snd diamond_layout) (snd diamond_run)
           (fst diamond_run)).
  unfold diamond_run. apply surjective_pairing.
Defined.

(* ===================================================================== *)
(** ** The two embeddings of the resolver agree *)
(* ===================================================================== *)

(** The store holds the value [j] at [v], in cells outside [P] (the cells
    of objects still under construction). *)
#[warnings="-register-all"]
Inductive repr (P : gset nat) (h : gmap nat Store.Cell)
  : JsonValue -> Store.Value -> Prop :=
| repr_null : repr P h JNull Store.VNull
| repr_bool b : repr P h (JBool b) (Store.VBool b)
| repr_num n : repr P h (JNum n) (Store.VNum n)
| repr_str s : repr P h (JStr s) (Store.VStr s)
| repr_arr l items js :
    l ∉ P -> h !! l = Some (Store.CArray items) ->
    Forall2 (repr P h) js items ->
    repr P h (JArr js) (Store.VRef l)
| repr_obj l props o :
    l ∉ P -> h !! l = Some (Store.CObject props) ->
    Forall2 (fun kj kv => fst kj = fst kv /\ repr P h (snd kj) (snd kv)) o props ->
    repr P h (JObj o) (Store.VRef l).

Definition repr_props (P : gset nat) (h : gmap nat Store.Cell)
    (o : list (string * JsonValue)) (props : list (string * Store.Value)) : Prop :=
  Forall2 (fun kj kv => fst kj = fst kv /\ repr P h (snd kj) (snd kv)) o props.

Definition is_data (c : Store.Cell) : Prop :=
  match c with Store.CSet _ => False | _ => True end.

(** Every array and object cell of [h] outside [P] is the same in [h']. *)
Definition keeps (P : gset nat) (h h' : gmap nat Store.Cell) : Prop :=
  forall l c, l ∉ P -> h !! l = Some c -> is_data c -> h' !! l = Some c.

Lemma Forall2_items {A B} (R R' : A -> B -> Prop) xs ys :
  Forall (fun x => forall y, R x y -> R' x y) xs ->
  Forall2 R xs ys -> Forall2 R' xs ys.
Proof.
  intros HF H2. induction H2 as [|x y xs ys Hxy _ IH]; constructor;
    inversion HF; subst; auto.
Qed.

Lemma Forall2_props {K A B} (R R' : A -> B -> Prop)
    (xs : list (K * A)) (ys : list (K * B)) :
  Forall (fun x => forall y, R (snd x) y -> R' (snd x) y) xs ->
  Forall2 (fun x y => fst x = fst y /\ R (snd x) (snd y)) xs ys ->
  Forall2 (fun x y => fst x = fst y /\ R' (snd x) (snd y)) xs ys.
Proof.
  intros HF H2. induction H2 as [|x y xs ys [Hk Hxy] _ IH]; constructor;
    inversion HF; subst; auto.
Qed.

Lemma repr_keeps P h h' j :
  keeps P h h' -> forall v, repr P h j v -> repr P h' j v.
Proof.
  intros Hk.
  induction j as [ | b | n | s | items IH | o IH ] using JsonValue_nested_ind;
    intros v Hr; inversion Hr; subst; try solve [constructor].
  - econstructor; [assumption | apply Hk; eauto; exact I |].
    eapply Forall2_items; eassumption.
  - econstructor; [assumption | apply Hk; eauto; exact I |].
    eapply Forall2_props; eassumption.
Qed.

Lemma repr_weaken P Q h j :
  Q ⊆ P -> forall v, repr P h j v -> repr Q h j v.
Proof.
  intros Hsub.
  induction j as [ | b | n | s | items IH | o IH ] using JsonValue_nested_ind;
    intros v Hr; inversion Hr; subst; try solve [constructor].
  - econstructor; [intros Hin; eauto | eassumption |].
    eapply Forall2_items; eassumption.
  - econstructor; [intros Hin; eauto | eassumption |].
    eapply Forall2_props; eassumption.
Qed.

(** A value held by the store does not reach a cell that does not exist
    yet. *)
Lemma repr_fresh P h j r :
  h !! r = None -> forall v, repr P h j v -> repr (P ∪ {[r]}) h j v.
Proof.
  intros Hr.
  assert (Hout : forall l c, l ∉ P -> h !! l = Some c -> l ∉ P ∪ {[r]}).
  { intros l c Hl Hc. rewrite elem_of_union, elem_of_singleton.
    intros [Hp | ->]; [contradiction|congruence]. }
  induction j as [ | b | n | s | items IH | o IH ] using JsonValue_nested_ind;
    intros v Hv; inversion Hv; subst; try solve [constructor].
  - econstructor; [eapply Hout; eassumption | eassumption |].
    eapply Forall2_items; eassumption.
  - econstructor; [eapply Hout; eassumption | eassumption |].
    eapply Forall2_props; eassumption.
Qed.

Lemma repr_truthy P h j v : repr P h j v -> Store.truthy v = Js.truthy j.
Proof. intros H. inversion H; reflexivity. Qed.

Section Represented.

Variable P : gset nat.
Variable h : gmap nat Store.Cell.

Lemma repr_props_own_get o props k :
  repr_props P h o props ->
  match Js.own_get o k, Js.own_get props k with
  | Some j, Some v => repr P h j v
  | None, None => True
  | _, _ => False
  end.
Proof.
  induction 1 as [|[k1 j] [k2 v] o props [Hk Hr] _ IH]; simpl; [exact I|].
  simpl in Hk. subst k2. destruct (String.eqb k1 k); [exact Hr|exact IH].
Qed.

Lemma repr_props_obj_set o props k j v :
  repr_props P h o props -> repr P h j v ->
  repr_props P h (Js.obj_set o k j) (Js.obj_set props k v).
Proof.
  intros H Hjv. induction H as [|[k1 j1] [k2 v1] o props [Hk Hr] Hrest IH]; simpl.
  - constructor; [split; [reflexivity|exact Hjv]|constructor].
  - simpl in Hk. subst k2. destruct (String.eqb k1 k).
    + constructor; [split; [reflexivity|exact Hjv]|exact Hrest].
    + constructor; [split; [reflexivity|exact Hr]|exact IH].
Qed.

Lemma repr_props_insert_index n kj kv xs ys :
  fst kj = fst kv /\ repr P h (snd kj) (snd kv) ->
  Forall2 (fun x y => fst x = fst y /\
                      fst (snd x) = fst (snd y) /\
                      repr P h (snd (snd x)) (snd (snd y))) xs ys ->
  Forall2 (fun x y => fst x = fst y /\
                      fst (snd x) = fst (snd y) /\
                      repr P h (snd (snd x)) (snd (snd y)))
    (Js.insert_index n kj xs) (Js.insert_index n kv ys).
Proof.
  intros [Hk Hr] H. induction H as [|[m1 x] [m2 y] xs ys (Hm & Hxy) Hrest IH]; simpl.
  - constructor; [simpl; auto|constructor].
  - simpl in Hm. subst m2. destruct (n <? m1)%N.
    + constructor; [simpl; auto|]. constructor; [simpl; auto|assumption].
    + constructor; [simpl; auto|exact IH].
Qed.

Lemma repr_props_index_entries o props :
  repr_props P h o props ->
  Forall2 (fun x y => fst x = fst y /\
                      fst (snd x) = fst (snd y) /\
                      repr P h (snd (snd x)) (snd (snd y)))
    (Js.index_entries o) (Js.index_entries props).
Proof.
  induction 1 as [|[k1 j] [k2 v] o props [Hk Hr] _ IH]; simpl; [constructor|].
  simpl in Hk. subst k2. destruct (JsString.array_index k1); [|exact IH].
  apply repr_props_insert_index; [split; [reflexivity|exact Hr]|exact IH].
Qed.

Lemma repr_props_Object_entries o props :
  repr_props P h o props ->
  repr_props P h (Js.Object_entries o) (Js.Object_entries props).
Proof.
  intros H. unfold Js.Object_entries. apply Forall2_app.
  - pose proof (repr_props_index_entries _ _ H) as Hi.
    induction Hi as [|x y xs ys (_ & Hk & Hr) _ IH]; simpl; constructor; auto.
  - induction H as [|[k1 j] [k2 v] o props [Hk Hr] _ IH]; simpl; [constructor|].
    simpl in Hk. subst k2. unfold Js.is_index. simpl.
    destruct (JsString.array_index k1); simpl; [exact IH|].
    constructor; [split; [reflexivity|exact Hr]|exact IH].
Qed.

Lemma repr_props_js_get o props k :
  repr_props P h o props ->
  match Js.js_get o k, Js.js_get props k with
  | Js.Own j, Js.Own v => repr P h j v
  | Js.Inherited m, Js.Inherited m' => m = m'
  | Js.Undefined, Js.Undefined => True
  | _, _ => False
  end.
Proof.
  intros H. pose proof (repr_props_own_get o props k H) as Hg.
  unfold Js.js_get.
  destruct (Js.own_get o k), (Js.own_get props k); try contradiction; [exact Hg|].
  destruct (Js.inherited_name k); [reflexivity|exact I].
Qed.

(** The store holds some value at [v]. *)
Definition represented (v : Store.Value) : Prop := exists j, repr P h j v.

Lemma represented_items js items :
  Forall2 (repr P h) js items -> Forall represented items.
Proof. induction 1; constructor; [eexists; eassumption|assumption]. Qed.

Lemma represented_props o props :
  repr_props P h o props -> Forall represented (map snd props).
Proof.
  induction 1 as [|x y o props [_ Hr] _ IH]; simpl; constructor;
    [eexists; eassumption|assumption].
Qed.

Lemma every_represented (f : Store.Value -> Store.Run bool) (l : list Store.Value) :
  Forall (fun x => f x h = (Store.Returned true, h) \/ f x h = (Store.OutOfFuel, h)) l ->
  Store.every f l h = (Store.Returned true, h) \/
  Store.every f l h = (Store.OutOfFuel, h).
Proof.
  induction 1 as [|x rest Hx _ IH]; simpl; [left; reflexivity|].
  unfold Store.bind. destruct Hx as [-> | ->]; [exact IH|right; reflexivity].
Qed.

(** The store version of [isJsonValue] accepts every value the store
    holds, unless it runs out of fuel; it writes nothing. *)
Lemma isJsonValue_represented fuel :
  forall v, represented v ->
    Store.isJsonValue fuel v h = (Store.Returned true, h) \/
    Store.isJsonValue fuel v h = (Store.OutOfFuel, h).
Proof.
  induction fuel as [|fuel IH]; intros v [j Hr]; [right; reflexivity|].
  inversion Hr as [ | | | | l items js Hl Hc Hitems | l props o Hl Hc Hprops ];
    subst; simpl; try (left; reflexivity).
  - unfold Store.bind, Store.read. rewrite Hc.
    apply every_represented.
    eapply Forall_impl; [exact (represented_items _ _ Hitems)|].
    intros x Hx. apply IH, Hx.
  - unfold Store.bind, Store.read. rewrite Hc.
    apply every_represented.
    eapply Forall_impl;
      [exact (represented_props _ _ (repr_props_Object_entries _ _ Hprops))|].
    intros x Hx. apply IH, Hx.
Qed.

End Represented.

Lemma repr_props_keeps P h h' o props :
  keeps P h h' -> repr_props P h o props -> repr_props P h' o props.
Proof.
  intros Hk H. induction H as [|x y o props [Hxy Hr] _ IH]; constructor;
    [split; [exact Hxy|eapply repr_keeps; eassumption]|exact IH].
Qed.

Lemma repr_items_keeps P h h' js items :
  keeps P h h' -> Forall2 (repr P h) js items -> Forall2 (repr P h') js items.
Proof.
  intros Hk H. induction H; constructor; [eapply repr_keeps; eassumption|assumption].
Qed.

(** The [Set] at [visited] holds the strings of [vis]. *)
Definition visited_ok (h : gmap nat Store.Cell) (visited : nat)
    (vis : gset string) : Prop :=
  exists ms, h !! visited = Some (Store.CSet (map Store.VStr ms)) /\
             list_to_set ms = vis.

(** The cell at [table] holds the schema table of [spec]; there is no cell
    when [spec] has no table. *)
Definition table_ok (P : gset nat) (h : gmap nat Store.Cell)
    (table : option nat) (spec : OpenAPISpec) : Prop :=
  match table, schemas spec with
  | Some t, Some tbl => repr P h (JObj tbl) (Store.VRef t)
  | None, None => True
  | _, _ => False
  end.

(** What a run over the store ends in, against a run over values: the
    same outcome, the value returned held by the store that is left, and
    the set with the same members.  A run over the store may also stop for
    want of fuel in [isJsonValue]. *)
Definition sim {A B} (R : A -> B -> Prop) (h' : gmap nat Store.Cell)
    (visited : nat) (o : Store.Outcome B) (r : Resolution A) : Prop :=
  match o with
  | Store.Returned b =>
      exists a vis', r = Resolved a vis' /\ R a b /\ visited_ok h' visited vis'
  | Store.Thrown e => r = Failed e
  | Store.BeyondModel => r = BeyondModel
  | Store.OutOfFuel => True
  end.

Lemma keeps_unchanged P h h' visited vis :
  visited_ok h visited vis -> unchanged_except {[visited]} h h' -> keeps P h h'.
Proof.
  intros (ms & Hv & _) [Hu _] l c _ Hc Hd. apply Hu; [exact Hc|].
  rewrite elem_of_singleton. intros ->. rewrite Hv in Hc.
  injection Hc as <-. exact Hd.
Qed.

Lemma keeps_insert P (h : gmap nat Store.Cell) l c :
  (l ∈ P \/ h !! l = None \/ exists ms, h !! l = Some (Store.CSet ms)) ->
  keeps P h (<[l := c]> h).
Proof.
  intros Hl l' c' Hp Hc Hd. rewrite lookup_insert_ne; [exact Hc|].
  intros ->. destruct Hl as [Hl | [Hl | [ms Hl]]];
    [contradiction | congruence |].
  rewrite Hl in Hc. injection Hc as <-. exact Hd.
Qed.

Lemma table_ok_keeps P h h' table spec :
  keeps P h h' -> table_ok P h table spec -> table_ok P h' table spec.
Proof.
  unfold table_ok. intros Hk. destruct table, (schemas spec); auto.
  apply repr_keeps, Hk.
Qed.

Lemma visited_ok_insert h visited vis l c :
  l <> visited -> visited_ok h visited vis -> visited_ok (<[l := c]> h) visited vis.
Proof.
  intros Hne (ms & Hv & Hs). exists ms. split; [|exact Hs].
  rewrite lookup_insert_ne; assumption.
Qed.

Lemma visited_ok_member h visited vis r :
  visited_ok h visited vis ->
  exists members, h !! visited = Some (Store.CSet members) /\
    (Store.VStr r ∈ members <-> r ∈ vis) /\
    (forall v, (forall s, v <> Store.VStr s) -> v ∉ members) /\
    visited_ok (<[visited := Store.CSet (members ++ [Store.VStr r])]> h)
      visited ({[r]} ∪ vis).
Proof.
  intros (ms & Hv & Hs). exists (map Store.VStr ms). split; [exact Hv|].
  split; [|split].
  - rewrite <- Hs, elem_of_list_to_set, list_elem_of_fmap. split.
    + intros (x & [= ->] & Hx). exact Hx.
    + intros Hx. exists r. split; [reflexivity|exact Hx].
  - intros v Hv' Hin. apply list_elem_of_fmap in Hin as (x & -> & _).
    exact (Hv' x eq_refl).
  - exists (ms ++ [r]). split.
    + rewrite lookup_insert_eq, map_app. reflexivity.
    + rewrite <- Hs, list_to_set_app_L. simpl.
      apply set_eq. intros x.
      rewrite !elem_of_union, elem_of_singleton, elem_of_empty. tauto.
Qed.

Section Agreement.

Variable spec : OpenAPISpec.
Variable table : option nat.
Variable visited : nat.

(** The state a call starts in: the cells under construction exist, the
    table and the set are where the call looks for them. *)
Definition ready (P : gset nat) (h : gmap nat Store.Cell) (vis : gset string) : Prop :=
  P ⊆ dom h /\ table_ok P h table spec /\ visited_ok h visited vis.

(** [sself] over the store does what [pself] does over values. *)
Definition agrees (sself : Store.Value -> Store.Run Store.Value)
    (pself : JsonValue -> gset string -> Resolution JsonValue) : Prop :=
  forall P h vis j v o h',
    ready P h vis -> repr P h j v -> sself v h = (o, h') ->
    sim (repr P h') h' visited o (pself j vis).

Variable sself : Store.Value -> Store.Run Store.Value.
Variable pself : JsonValue -> gset string -> Resolution JsonValue.
Hypothesis sself_frames : forall v, frames {[visited]} (sself v).
Hypothesis self_agrees : agrees sself pself.

Lemma ready_step P h h' vis vis' :
  ready P h vis -> unchanged_except {[visited]} h h' ->
  visited_ok h' visited vis' -> ready P h' vis'.
Proof.
  intros (Hd & Ht & Hv) Hu Hv'. split; [|split].
  - etrans; [exact Hd|apply Hu].
  - eapply table_ok_keeps; [|exact Ht]. eapply keeps_unchanged; eassumption.
  - exact Hv'.
Qed.

Lemma map_items_agrees P js items :
  forall h vis o h',
    ready P h vis -> Forall2 (repr P h) js items ->
    Store.map_items sself items h = (o, h') ->
    sim (fun js' items' => Forall2 (repr P h') js' items') h' visited o
      (map_items pself js vis).
Proof.
  revert js. induction items as [|v items IH]; intros js h vis o h' Hready Hjs.
  - inversion Hjs; subst. simpl. intros [= <- <-].
    exists [], vis. split; [reflexivity|]. split; [constructor|apply Hready].
  - inversion Hjs as [|j ? js0 ? Hjv Hrest]; subst. simpl.
    unfold Store.bind at 1.
    destruct (sself v h) as [[v'| | |] h1] eqn:E1;
      pose proof (self_agrees _ _ _ _ _ _ _ Hready Hjv E1) as S1;
      pose proof (sself_frames _ _ _ _ E1) as U1; simpl in S1;
      try (intros [= <- <-]; simpl; try rewrite S1; try reflexivity; exact I).
    destruct S1 as (j' & vis1 & -> & Hr1 & Hv1). simpl.
    assert (K1 : keeps P h h1)
      by (eapply keeps_unchanged; [apply Hready|exact U1]).
    assert (R1 : ready P h1 vis1) by (eapply ready_step; eassumption).
    unfold Store.bind.
    destruct (Store.map_items sself items h1) as [[items'| | |] h2] eqn:E2;
      pose proof (IH _ _ _ _ _ R1 (repr_items_keeps _ _ _ _ _ K1 Hrest) E2) as S2;
      pose proof (frames_map_items _ _ _ sself_frames _ _ _ E2) as U2;
      simpl in S2;
      try (intros [= <- <-]; simpl; try rewrite S2; try reflexivity; exact I).
    destruct S2 as (js' & vis2 & -> & Hr2 & Hv2). simpl.
    intros [= <- <-]. exists (j' :: js'), vis2.
    split; [reflexivity|]. split; [|exact Hv2]. constructor; [|exact Hr2].
    eapply repr_keeps; [|exact Hr1]. eapply keeps_unchanged; eassumption.
Qed.

Lemma assign_entries_agrees fuel P resolved :
  resolved ∈ P ->
  forall entsv ents h vis acc accp o h',
    ready P h vis ->
    h !! resolved = Some (Store.CObject accp) -> repr_props P h acc accp ->
    repr_props P h ents entsv ->
    Store.assign_entries fuel sself entsv resolved h = (o, h') ->
    sim (fun acc' (_ : unit) =>
           exists accp', h' !! resolved = Some (Store.CObject accp') /\
                         repr_props P h' acc' accp')
      h' visited o (assign_entries pself ents acc vis).
Proof.
  intros HP. induction entsv as [|[k v] entsv IH];
    intros ents h vis acc accp o h' Hready Hres Hacc Hents.
  - inversion Hents; subst. simpl. intros [= <- <-].
    exists acc, vis. split; [reflexivity|]. split; [eauto|apply Hready].
  - inversion Hents as [|[k0 j] ? ents0 ? [Hk Hjv] Hrest]; subst.
    simpl in Hk, Hjv. subst k0. simpl. rewrite isJsonValue_true.
    unfold Store.bind at 1.
    destruct (isJsonValue_represented P h fuel v (ex_intro _ j Hjv)) as [-> | ->];
      [|intros [= <- <-]; exact I].
    unfold Store.bind at 1.
    destruct (sself v h) as [[v'| | |] h1] eqn:E1;
      pose proof (self_agrees _ _ _ _ _ _ _ Hready Hjv E1) as S1;
      pose proof (sself_frames _ _ _ _ E1) as U1; simpl in S1;
      try (intros [= <- <-]; simpl; try rewrite S1; try reflexivity; exact I).
    destruct S1 as (j' & vis1 & -> & Hr1 & Hv1). simpl.
    assert (K1 : keeps P h h1)
      by (eapply keeps_unchanged; [apply Hready|exact U1]).
    assert (R1 : ready P h1 vis1) by (eapply ready_step; eassumption).
    assert (Hres1 : h1 !! resolved = Some (Store.CObject accp)).
    { apply U1; [exact Hres|]. rewrite elem_of_singleton. intros ->.
      destruct Hready as (_ & _ & ms & Hms & _). congruence. }
    destruct (String.eqb k "__proto__").
    + inversion Hr1; subst; simpl;
        try (intros [= <- <-]; reflexivity);
        (eapply IH; [exact R1 | exact Hres1
                    | eapply repr_props_keeps; eassumption
                    | eapply repr_props_keeps; eassumption]).
    + unfold Store.bind at 1, Store.read. rewrite Hres1.
      unfold Store.bind at 1, Store.write.
      assert (K2 : keeps P h1
                (<[resolved := Store.CObject (Js.obj_set accp k v')]> h1))
        by (apply keeps_insert; left; exact HP).
      eapply IH.
      * destruct R1 as (Hd & Ht & Hv). split; [|split].
        -- etrans; [exact Hd|]. rewrite dom_insert. apply union_subseteq_r.
        -- eapply table_ok_keeps; eassumption.
        -- apply visited_ok_insert; [|exact Hv].
           intros ->. destruct Hv as (ms & Hms & _). congruence.
      * apply lookup_insert_eq.
      * apply repr_props_obj_set.
        -- eapply repr_props_keeps; [exact K2|].
           eapply repr_props_keeps; eassumption.
        -- eapply repr_keeps; eassumption.
      * eapply repr_props_keeps; [exact K2|].
        eapply repr_props_keeps; eassumption.
Qed.

Lemma alloc_result P h vis (c : Store.Cell) j :
  ready P h vis ->
  (forall l, h !! l = None -> l ∉ P ->
     repr P (<[l := c]> h) j (Store.VRef l)) ->
  sim (repr P (<[fresh (dom h) := c]> h)) (<[fresh (dom h) := c]> h) visited
    (Store.Returned (Store.VRef (fresh (dom h)))) (Resolved j vis).
Proof.
  intros (Hd & _ & Hv) Hj.
  assert (Hf : h !! fresh (dom h) = None) by (apply not_elem_of_dom; apply is_fresh).
  exists j, vis. split; [reflexivity|]. split.
  - apply Hj; [exact Hf|]. intros Hin. apply Hd in Hin.
    apply (is_fresh (dom h)), Hin.
  - apply visited_ok_insert; [|exact Hv].
    intros E. destruct Hv as (ms & Hms & _). congruence.
Qed.

Lemma resolve_body_agrees fuel :
  agrees (Store.resolve_body fuel sself table visited) (resolve_body pself spec).
Proof.
  intros P h vis j v o h' Hready Hjv.
  inversion Hjv as [ | | | | l items js Hl Hc Hitems | l props ob Hl Hc Hprops ];
    subst; simpl;
    try (intros [= <- <-]; eexists _, vis;
         split; [reflexivity|]; split; [constructor|apply Hready]).
  - (* an array *)
    unfold Store.bind at 1, Store.read. rewrite Hc. unfold Store.bind at 1.
    destruct (Store.map_items sself items h) as [[items'| | |] h1] eqn:E1;
      pose proof (map_items_agrees _ _ _ _ _ _ _ Hready Hitems E1) as S1;
      pose proof (frames_map_items _ _ _ sself_frames _ _ _ E1) as U1;
      simpl in S1;
      try (intros [= <- <-]; simpl; try rewrite S1; try reflexivity; exact I).
    destruct S1 as (js' & vis1 & -> & Hr1 & Hv1). simpl.
    unfold Store.bind, Store.alloc, Store.ret. intros [= <- <-].
    apply alloc_result; [eapply ready_step; eassumption|].
    intros l' Hl' HP. econstructor; [exact HP|apply lookup_insert_eq|].
    eapply repr_items_keeps; [|exact Hr1].
    apply keeps_insert. right. left. exact Hl'.
  - (* an object *)
    unfold Store.bind at 1, Store.read. rewrite Hc.
    pose proof (repr_props_own_get _ _ _ _ "$ref" Hprops) as Hg.
    destruct (Js.own_get props "$ref") as [ref|] eqn:Eref,
             (Js.own_get ob "$ref") as [jref|] eqn:Ejref; try contradiction.
    + (* a reference *)
      destruct Hready as (Hd & Ht & Hv).
      destruct (visited_ok_member _ _ _ match jref with JStr r => r | _ => "" end Hv)
        as (members & Hm & Hin & Hout & Hadd).
      unfold Store.bind at 1, Store.read. rewrite Hm.
      assert (Hset : forall c, keeps P h (<[visited := c]> h))
        by (intros c; apply keeps_insert; right; right; eauto).
      inversion Hg; subst;
        try solve [ rewrite decide_False by (apply Hout; intros s'; discriminate);
                    unfold Store.bind, Store.write; simpl;
                    intros [= <- <-]; reflexivity ].
      (* a string *)
      destruct (decide (Store.VStr s ∈ members)) as [Hmem | Hmem].
      * rewrite decide_True by (apply Hin, Hmem).
        unfold Store.bind, Store.alloc, Store.ret. intros [= <- <-].
        apply alloc_result; [split; [|split]; assumption|].
        intros l' Hl' HP. econstructor; [exact HP|apply lookup_insert_eq|].
        constructor; [|constructor]. split; [reflexivity|constructor].
      * rewrite decide_False by (intros Hs; apply Hmem, Hin, Hs).
        unfold Store.bind at 1, Store.write.
        set (h1 := <[visited := Store.CSet (members ++ [Store.VStr s])]> h).
        assert (K1 : keeps P h h1) by apply Hset.
        assert (R1 : ready P h1 ({[s]} ∪ vis)).
        { split; [|split]; [|eapply table_ok_keeps; eassumption|exact Hadd].
          etrans; [exact Hd|]. unfold h1. rewrite dom_insert.
          apply union_subseteq_r. }
        assert (Hobj : repr P h1 (JObj ob) (Store.VRef l))
          by (eapply repr_keeps; eassumption).
        assert (Hsame : forall o0 h0, (Store.Returned (Store.VRef l), h1) = (o0, h0) ->
                  sim (repr P h0) h0 visited o0 (Resolved (JObj ob) ({[s]} ∪ vis))).
        { intros o0 h0 [= <- <-]. exists (JObj ob), ({[s]} ∪ vis).
          split; [reflexivity|]. split; [exact Hobj|exact Hadd]. }
        destruct (schema_name_of_ref s) as [schemaName|]; [|apply Hsame].
        unfold table_ok in Ht.
        destruct table as [t|], (schemas spec) as [tbl|]; try contradiction;
          [|apply Hsame].
        assert (Ht1 : repr P h1 (JObj tbl) (Store.VRef t))
          by (eapply repr_keeps; eassumption).
        inversion Ht1 as [ | | | | | ? schemasv ? Htl Htc Htp ]; subst.
        unfold Store.bind, Store.read. rewrite Htc.
        pose proof (repr_props_js_get _ _ _ _ schemaName Htp) as Hget.
        destruct (Js.js_get tbl schemaName) as [rs| |],
                 (Js.js_get schemasv schemaName) as [rv| |];
          try contradiction; [| intros [= <- <-]; reflexivity | apply Hsame].
        rewrite (repr_truthy _ _ _ _ Hget).
        destruct (Js.truthy rs); [|apply Hsame].
        intros Hrun. exact (self_agrees _ _ _ _ _ _ _ R1 Hget Hrun).
    + (* a plain object *)
      unfold Store.bind at 1, Store.alloc.
      set (resolved := fresh (dom h)).
      set (h0 := <[resolved := Store.CObject []]> h).
      assert (Hf : h !! resolved = None) by (apply not_elem_of_dom; apply is_fresh).
      assert (Hnew : resolved ∉ P).
      { intros Hin. apply Hready in Hin. apply (is_fresh (dom h)), Hin. }
      assert (K0 : keeps (P ∪ {[resolved]}) h h0)
        by (apply keeps_insert; right; left; exact Hf).
      assert (R0 : ready (P ∪ {[resolved]}) h0 vis).
      { destruct Hready as (Hd & Ht & Hv). split; [|split].
        - unfold h0. rewrite dom_insert. apply union_least.
          + etrans; [exact Hd|]. apply union_subseteq_r.
          + apply union_subseteq_l.
        - eapply table_ok_keeps; [exact K0|].
          unfold table_ok in *. destruct table, (schemas spec); auto.
          apply repr_fresh; assumption.
        - apply visited_ok_insert; [|exact Hv].
          intros E. destruct Hv as (ms & Hms & _). congruence. }
      unfold Store.bind at 1.
      destruct (Store.assign_entries fuel sself (Js.Object_entries props) resolved h0)
        as [[[]| | |] h1] eqn:E1.
      all: epose proof (assign_entries_agrees fuel (P ∪ {[resolved]}) resolved
             ltac:(apply elem_of_union_r, elem_of_singleton; reflexivity)
             _ (Js.Object_entries ob) _ _ [] [] _ _ R0
             ltac:(apply lookup_insert_eq) ltac:(constructor) _ E1) as S1.
      all: simpl in S1.
      all: try (intros [= <- <-]; simpl; try rewrite S1; try reflexivity; exact I).
      destruct S1 as (acc & vis1 & -> & (accp & Hres & Hacc) & Hv1).
      simpl. intros [= <- <-]. exists (JObj acc), vis1.
      split; [reflexivity|]. split; [|exact Hv1].
      econstructor; [exact Hnew|exact Hres|].
      eapply Forall2_impl; [exact Hacc|].
      intros x y [Hk Hr]. split; [exact Hk|].
      eapply repr_weaken; [|exact Hr]. apply union_subseteq_l.
      Unshelve.
      all: apply repr_props_Object_entries;
           eapply repr_props_keeps; [exact K0|];
           eapply Forall2_impl; [exact Hprops|];
           intros x y [Hk Hr]; split; [exact Hk|apply repr_fresh; assumption].
Qed.

End Agreement.

Lemma resolveSchemaReferences_agrees spec table visited fuel :
  agrees spec table visited
    (Store.resolveSchemaReferences fuel table visited)
    (resolveSchemaReferences fuel spec).
Proof.
  induction fuel as [|fuel IH].
  - intros P h vis j v o h' _ _. simpl. intros [= <- <-]. exact I.
  - simpl. apply resolve_body_agrees; [|exact IH].
    apply frames_resolveSchemaReferences.
Qed.

(** A top-level call over the store ends as the call over values does:
    with the same error, or with a reference to cells that hold the value
    the other returns.  Only for want of fuel may the run over the store
    stop where the other goes on, [isJsonValue] drawing on the same
    fuel. *)
Theorem resolve_agrees (fuel : nat) (spec : OpenAPISpec) (table : option nat)
    (j : JsonValue) (v : Store.Value) (h h' : gmap nat Store.Cell)
    (o : Store.Outcome Store.Value) :
  table_ok ∅ h table spec -> repr ∅ h j v ->
  Store.resolve fuel table v h = (o, h') ->
  match o with
  | Store.Returned v' =>
      exists j' vis, resolve fuel spec j = Resolved j' vis /\ repr ∅ h' j' v'
  | Store.Thrown e => resolve fuel spec j = Failed e
  | Store.BeyondModel => resolve fuel spec j = BeyondModel
  | Store.OutOfFuel => True
  end.
Proof.
  intros Ht Hj. unfold Store.resolve, Store.bind, Store.alloc.
  set (visited := fresh (dom h)). intros Hrun.
  assert (Hf : h !! visited = None) by (apply not_elem_of_dom; apply is_fresh).
  assert (K : keeps ∅ h (<[visited := Store.CSet []]> h))
    by (apply keeps_insert; right; left; exact Hf).
  assert (R : ready spec table visited ∅ (<[visited := Store.CSet []]> h) ∅).
  { split; [apply empty_subseteq|]. split; [eapply table_ok_keeps; eassumption|].
    exists []. split; [apply lookup_insert_eq|reflexivity]. }
  pose proof (resolveSchemaReferences_agrees spec table visited fuel
                _ _ _ _ _ _ _ R (repr_keeps _ _ _ _ K _ Hj) Hrun) as S.
  unfold resolve. destruct o as [v'| | |]; simpl in S; try exact S.
  destruct S as (j' & vis & E & Hr & _). eauto.
Qed.

Lemma keeps_fresh_only P h h' : unchanged_except ∅ h h' -> keeps P h h'.
Proof.
  intros [Hu _] l c _ Hc _. apply Hu; [exact Hc|apply not_elem_of_empty].
Qed.

(** Laying a value out gives cells that hold it, and writes to no cell
    there was. *)
Lemma store_value_repr (j : JsonValue) :
  forall h, exists v h',
    Store.store_value j h = (Store.Returned v, h') /\
    repr ∅ h' j v /\ unchanged_except ∅ h h'.
Proof.
  induction j as [ | b | n | s | items IH | o IH ] using JsonValue_nested_ind;
    intros h;
    try (eexists _, h; split; [reflexivity|];
         split; [constructor|apply unchanged_refl]).
  - assert (Hgo : forall h, exists items' h',
              (fix go (l : list JsonValue) : Store.Run (list Store.Value) :=
                 match l with
                 | [] => Store.ret []
                 | x :: l' => Store.bind (Store.store_value x) (fun x' =>
                              Store.bind (go l') (fun r => Store.ret (x' :: r)))
                 end) items h = (Store.Returned items', h') /\
              Forall2 (repr ∅ h') items items' /\ unchanged_except ∅ h h').
    { clear h. induction IH as [|x rest Hx _ IHrest]; intros h.
      - exists [], h. split; [reflexivity|].
        split; [constructor|apply unchanged_refl].
      - destruct (Hx h) as (x' & h1 & E1 & R1 & U1).
        destruct (IHrest h1) as (r & h2 & E2 & R2 & U2).
        exists (x' :: r), h2. split; [|split].
        + unfold Store.bind at 1. rewrite E1.
          unfold Store.bind at 1. rewrite E2. reflexivity.
        + constructor; [|exact R2].
          eapply repr_keeps; [apply keeps_fresh_only; exact U2|exact R1].
        + eapply unchanged_trans; eassumption. }
    destruct (Hgo h) as (items' & h1 & E1 & R1 & U1).
    assert (Hf : h1 !! fresh (dom h1) = None)
      by (apply not_elem_of_dom; apply is_fresh).
    exists (Store.VRef (fresh (dom h1))), (<[fresh (dom h1) := Store.CArray items']> h1).
    split; [|split].
    + simpl. unfold Store.bind at 1. rewrite E1. reflexivity.
    + econstructor; [apply not_elem_of_empty|apply lookup_insert_eq|].
      eapply repr_items_keeps; [|exact R1].
      apply keeps_insert. right. left. exact Hf.
    + eapply unchanged_trans; [exact U1|].
      apply unchanged_insert. intros [c Hc]. congruence.
  - assert (Hgo : forall h, exists props h',
              (fix go (l : list (string * JsonValue))
                 : Store.Run (list (string * Store.Value)) :=
                 match l with
                 | [] => Store.ret []
                 | (k, x) :: l' => Store.bind (Store.store_value x) (fun x' =>
                                   Store.bind (go l') (fun r => Store.ret ((k, x') :: r)))
                 end) o h = (Store.Returned props, h') /\
              repr_props ∅ h' o props /\ unchanged_except ∅ h h').
    { clear h. induction IH as [|[k x] rest Hx _ IHrest]; intros h.
      - exists [], h. split; [reflexivity|].
        split; [constructor|apply unchanged_refl].
      - destruct (Hx h) as (x' & h1 & E1 & R1 & U1).
        destruct (IHrest h1) as (r & h2 & E2 & R2 & U2).
        exists ((k, x') :: r), h2. split; [|split].
        + unfold Store.bind at 1. simpl in E1. rewrite E1.
          unfold Store.bind at 1. rewrite E2. reflexivity.
        + constructor; [|exact R2]. split; [reflexivity|].
          eapply repr_keeps; [apply keeps_fresh_only; exact U2|exact R1].
        + eapply unchanged_trans; eassumption. }
    destruct (Hgo h) as (props & h1 & E1 & R1 & U1).
    assert (Hf : h1 !! fresh (dom h1) = None)
      by (apply not_elem_of_dom; apply is_fresh).
    exists (Store.VRef (fresh (dom h1))), (<[fresh (dom h1) := Store.CObject props]> h1).
    split; [|split].
    + simpl. unfold Store.bind at 1. rewrite E1. reflexivity.
    + econstructor; [apply not_elem_of_empty|apply lookup_insert_eq|].
      eapply repr_props_keeps; [|exact R1].
      apply keeps_insert. right. left. exact Hf.
    + eapply unchanged_trans; [exact U1|].
      apply unchanged_insert. intros [c Hc]. congruence.
Qed.

(** The schema table and a node laid out in a store, then resolved there:
    the run ends as the run over values does. *)
Corollary laid_out_resolution_agrees (fuel : nat) (spec : OpenAPISpec)
    (tbl : list (string * JsonValue)) (node : JsonValue) (h : gmap nat Store.Cell) :
  schemas spec = Some tbl ->
  exists t n h1 h2,
    Store.store_value (JObj tbl) h = (Store.Returned (Store.VRef t), h1) /\
    Store.store_value node h1 = (Store.Returned n, h2) /\
    forall o h', Store.resolve fuel (Some t) n h2 = (o, h') ->
      match o with
      | Store.Returned v' =>
          exists j' vis, resolve fuel spec node = Resolved j' vis /\ repr ∅ h' j' v'
      | Store.Thrown e => resolve fuel spec node = Failed e
      | Store.BeyondModel => resolve fuel spec node = BeyondModel
      | Store.OutOfFuel => True
      end.
Proof.
  intros Hs.
  destruct (store_value_repr (JObj tbl) h) as (tv & h1 & E1 & R1 & _).
  destruct (store_value_repr node h1) as (n & h2 & E2 & R2 & U2).
  inversion R1 as [ | | | | | t props ? Ht Hc Hp ]; subst.
  exists t, n, h1, h2. split; [exact E1|]. split; [exact E2|].
  intros o h'. apply resolve_agrees; [|exact R2].
  unfold table_ok. rewrite Hs.
  eapply repr_keeps; [apply keeps_fresh_only; exact U2|exact R1].
Qed.

(* ===================================================================== *)
(** ** More about the reference resolver *)
(* ===================================================================== *)

(** X1. Reference resolution terminates on every document, node and
    visited set, cyclic schemas included: some recursion depth is enough
    for the call to end (in a value or in an error), and no larger depth
    changes what it ends in. *)
Theorem resolution_always_ends
    (spec : OpenAPISpec) (node : JsonValue) (visited : gset string) :
  exists fuel,
    resolveSchemaReferences fuel spec node visited <> OutOfFuel /\
    forall fuel', fuel <= fuel' ->
      resolveSchemaReferences fuel' spec node visited =
      resolveSchemaReferences fuel spec node visited.
Proof. exact (resolve_terminates spec node visited). Qed.

(** *** Nodes without references *)

(** No object of the value has a [$ref] or a [__proto__] property. *)
Fixpoint reference_free (v : JsonValue) : bool :=
  match v with
  | JArr items => forallb reference_free items
  | JObj o =>
      match Js.own_get o "$ref" with Some _ => false | None => true end
      && forallb (fun kv => negb (String.eqb (fst kv) "__proto__")) o
      && forallb (fun kv => reference_free (snd kv)) o
  | _ => true
  end.

(** The representation invariant of objects, at every depth: property keys
    are pairwise distinct. *)
Fixpoint distinct_properties (v : JsonValue) : bool :=
  match v with
  | JArr items => forallb distinct_properties items
  | JObj o =>
      bool_decide (NoDup (Js.keys o))
      && forallb (fun kv => distinct_properties (snd kv)) o
  | _ => true
  end.

(** The value with the properties of every object listed in the order
    [Object.entries] enumerates them. *)
Fixpoint enumerated (v : JsonValue) : JsonValue :=
  match v with
  | JArr items => JArr (map enumerated items)
  | JObj o => JObj (Js.Object_entries (map (fun kv => (fst kv, enumerated (snd kv))) o))
  | _ => v
  end.

Section Enumeration.
Context {A B : Type}.
Variable f : A -> B.

Let on_value (kv : string * A) : string * B := (fst kv, f (snd kv)).

Lemma insert_index_map n kv (l : list (N * (string * A))) :
  Js.insert_index n (on_value kv) (map (fun x => (fst x, on_value (snd x))) l) =
  map (fun x => (fst x, on_value (snd x))) (Js.insert_index n kv l).
Proof.
  induction l as [|[m kv'] l IH]; simpl; [reflexivity|].
  destruct (n <? m)%N; simpl; [reflexivity|]. rewrite IH. reflexivity.
Qed.

Lemma index_entries_map (o : list (string * A)) :
  Js.index_entries (map on_value o) =
  map (fun x => (fst x, on_value (snd x))) (Js.index_entries o).
Proof.
  induction o as [|[k a] o IH]; simpl; [reflexivity|].
  destruct (JsString.array_index k); [|exact IH].
  rewrite IH. apply (insert_index_map n (k, a)).
Qed.

(** The order of enumeration depends on the keys only. *)
Lemma Object_entries_map (o : list (string * A)) :
  Js.Object_entries (map on_value o) = map on_value (Js.Object_entries o).
Proof.
  unfold Js.Object_entries. rewrite map_app, index_entries_map, !map_map.
  f_equal. unfold Js.is_index.
  induction o as [|[k a] o IH]; simpl; [reflexivity|].
  destruct (JsString.array_index k); simpl; [exact IH|]. rewrite IH. reflexivity.
Qed.

End Enumeration.

Section EnumerationOrder.
Context {A : Type}.
Implicit Types (o : list (string * A)).

Lemma insert_index_Permutation n (kv : string * A) l :
  Permutation (Js.insert_index n kv l) ((n, kv) :: l).
Proof.
  induction l as [|[m kv'] l IH]; simpl; [reflexivity|].
  destruct (n <? m)%N; [reflexivity|].
  rewrite IH. apply perm_swap.
Qed.

(** Enumeration lists every property once. *)
Lemma Object_entries_Permutation o : Permutation (Js.Object_entries o) o.
Proof.
  unfold Js.Object_entries, Js.is_index.
  induction o as [|[k a] o IH]; simpl; [reflexivity|].
  destruct (JsString.array_index k) as [n|]; simpl.
  - rewrite insert_index_Permutation. simpl. constructor. exact IH.
  - rewrite <- Permutation_middle. constructor. exact IH.
Qed.

Lemma Object_entries_NoDup o :
  NoDup (Js.keys o) -> NoDup (Js.keys (Js.Object_entries o)).
Proof.
  unfold Js.keys. intros H.
  rewrite (Permutation_map fst (Object_entries_Permutation o)). exact H.
Qed.

Lemma own_get_Object_entries o k :
  NoDup (Js.keys o) -> Js.own_get (Js.Object_entries o) k = Js.own_get o k.
Proof.
  intros H. destruct (Js.own_get o k) as [a|] eqn:E.
  - apply In_own_get; [apply Object_entries_NoDup, H|].
    apply In_Object_entries, own_get_In, E.
  - apply own_get_None. apply own_get_None in E. intros Hin. apply E.
    unfold Js.keys in *. apply in_map_iff in Hin as (kv & <- & Hkv).
    apply in_map, In_Object_entries, Hkv.
Qed.

Lemma obj_set_new o k (a : A) :
  ~ In k (Js.keys o) -> Js.obj_set o k a = o ++ [(k, a)].
Proof.
  induction o as [|[k' a'] o IH]; simpl; [reflexivity|]. intros Hn.
  destruct (String.eqb k' k) eqn:E.
  - apply String.eqb_eq in E. tauto.
  - rewrite IH by tauto. reflexivity.
Qed.

End EnumerationOrder.

Lemma map_items_plain f (g : JsonValue -> JsonValue) items :
  (forall x visited, In x items -> f x visited = Resolved (g x) visited) ->
  forall visited, map_items f items visited = Resolved (map g items) visited.
Proof.
  induction items as [|x rest IH]; intros Hf visited; simpl; [reflexivity|].
  rewrite Hf by (left; reflexivity). simpl.
  rewrite IH by (intros y vis Hy; apply Hf; right; exact Hy). reflexivity.
Qed.

Lemma assign_entries_plain f (g : JsonValue -> JsonValue) entries :
  (forall kv visited, In kv entries -> f (snd kv) visited = Resolved (g (snd kv)) visited) ->
  (forall kv, In kv entries -> String.eqb (fst kv) "__proto__" = false) ->
  forall resolved visited,
    assign_entries f entries resolved visited =
    Resolved
      (fold_left (fun acc kv => Js.obj_set acc (fst kv) (g (snd kv))) entries resolved)
      visited.
Proof.
  induction entries as [|[k x] rest IH]; intros Hf Hk resolved visited; simpl;
    [reflexivity|].
  rewrite isJsonValue_true.
  pose proof (Hf (k, x) visited (or_introl eq_refl)) as Hx.
  pose proof (Hk (k, x) (or_introl eq_refl)) as Hp.
  simpl in Hx, Hp. rewrite Hx. simpl. rewrite Hp.
  apply IH; intros kv; intros; [apply Hf|apply Hk]; right; assumption.
Qed.

Lemma fold_obj_set_new {A B} (g : A -> B) (entries : list (string * A)) :
  forall acc : list (string * B),
    NoDup (Js.keys acc ++ Js.keys entries) ->
    fold_left (fun acc kv => Js.obj_set acc (fst kv) (g (snd kv))) entries acc =
    acc ++ map (fun kv => (fst kv, g (snd kv))) entries.
Proof.
  induction entries as [|[k x] rest IH]; intros acc Hnd; simpl.
  - rewrite app_nil_r. reflexivity.
  - simpl in Hnd. apply NoDup_app in Hnd as (Ha & Hdisj & Hr).
    apply NoDup_cons in Hr as [Hk Hr].
    rewrite obj_set_new.
    + rewrite IH; [rewrite <- app_assoc; reflexivity|].
      unfold Js.keys. rewrite map_app. simpl. rewrite <- app_assoc. simpl.
      apply NoDup_app. split; [exact Ha|]. split.
      * intros y Hy Hin. apply (Hdisj y Hy). exact Hin.
      * apply NoDup_cons. split; assumption.
    + intros Hin. apply (Hdisj k); [apply list_elem_of_In, Hin|left].
Qed.

(** X2. A node in which no object has a [$ref] (or [__proto__]) property
    resolves to a copy of itself, each object listing its properties in
    [Object.entries] order: nothing is dropped, nothing is looked up in the
    document, and the visited set is left as it was. *)
Theorem reference_free_node_resolves_to_itself
    (spec : OpenAPISpec) (node : JsonValue) (visited : gset string) (fuel : nat) :
  reference_free node = true ->
  distinct_properties node = true ->
  height node <= fuel ->
  resolveSchemaReferences fuel spec node visited = Resolved (enumerated node) visited.
Proof.
  revert visited fuel.
  induction node as [ | b | n | s | items IH | o IH ] using JsonValue_nested_ind;
    intros visited fuel Hfree Hdist Hfuel;
    (destruct fuel as [|fuel]; [simpl in Hfuel; lia|]); try reflexivity.
  - simpl. rewrite (map_items_plain _ enumerated); [reflexivity|].
    intros x vis Hx. rewrite Forall_forall in IH.
    simpl in Hfree, Hdist. rewrite forallb_forall in Hfree, Hdist.
    apply IH; [apply list_elem_of_In, Hx|apply Hfree, Hx|apply Hdist, Hx|].
    pose proof (height_item x items Hx). lia.
  - simpl in Hfree, Hdist.
    apply andb_prop in Hfree as [Hfree Hvals]. apply andb_prop in Hfree as [Href Hproto].
    apply andb_prop in Hdist as [Hnd Hdist]. apply bool_decide_eq_true in Hnd.
    rewrite forallb_forall in Hvals, Hproto, Hdist.
    simpl. destruct (Js.own_get o "$ref"); [discriminate|].
    rewrite (assign_entries_plain _ enumerated).
    + simpl. rewrite fold_obj_set_new
        by (simpl; apply Object_entries_NoDup, Hnd).
      simpl. rewrite Object_entries_map. reflexivity.
    + intros kv vis Hkv. apply (proj1 (In_Object_entries _ _)) in Hkv.
      rewrite Forall_forall in IH.
      apply IH; [apply list_elem_of_In, Hkv|apply Hvals, Hkv|apply Hdist, Hkv|].
      pose proof (height_prop kv o Hkv). lia.
    + intros kv Hkv. apply (proj1 (In_Object_entries _ _)) in Hkv.
      apply negb_true_iff, Hproto, Hkv.
Qed.

Definition plain_schema : JsonValue :=
  JObj [("type", JStr "object");
        ("required", JArr [JStr "name"]);
        ("properties", JObj [("name", JObj [("type", JStr "string")])])].

Lemma reference_free_node_resolves_to_itself_witness :
  resolveSchemaReferences 4 diamond_spec plain_schema ∅ = Resolved plain_schema ∅.
Proof.
  apply (reference_free_node_resolves_to_itself diamond_spec plain_schema ∅ 4);
    [reflexivity | vm_compute; reflexivity | simpl; lia].
Defined.

(* ===================================================================== *)
(** ** More about the endpoint index *)
(* ===================================================================== *)

(** The number of endpoints a bucket table lists. *)
Definition listed (buckets : list (string * list EndpointSummary)) : nat :=
  sum_list (map (fun tb => length (snd tb)) buckets).

Lemma keys_obj_set {A} (o : list (string * A)) k a :
  Js.keys (Js.obj_set o k a) =
  match Js.own_get o k with Some _ => Js.keys o | None => Js.keys o ++ [k] end.
Proof.
  induction o as [|[k' a'] o IH]; simpl; [reflexivity|].
  destruct (String.eqb k' k); simpl; [reflexivity|].
  rewrite IH. destruct (Js.own_get o k); reflexivity.
Qed.

Lemma listed_obj_set buckets tag bucket :
  listed (Js.obj_set buckets tag bucket) + length (default [] (Js.own_get buckets tag)) =
  listed buckets + length bucket.
Proof.
  unfold listed. induction buckets as [|[t b] rest IH]; simpl; [lia|].
  destruct (String.eqb t tag); simpl; lia.
Qed.

Lemma In_obj_set {A} (o : list (string * A)) k a kv :
  In kv (Js.obj_set o k a) -> kv = (k, a) \/ In kv o.
Proof.
  induction o as [|[k' a'] o IH]; simpl.
  - intros [<-|[]]. left. reflexivity.
  - destruct (String.eqb k' k) eqn:E; simpl.
    + apply String.eqb_eq in E. subst k'. intros [<-|H]; [left; reflexivity|tauto].
    + intros [H|H]; [tauto|]. apply IH in H. tauto.
Qed.

(** What the grouping loop keeps: tags are distinct, no bucket is empty,
    and each round lists one endpoint more. *)
Lemma group_endpoints_invariant endpoints :
  forall g0 g, group_endpoints g0 endpoints = Returned g ->
    NoDup (Js.keys g0) ->
    (forall tag bucket, In (tag, bucket) g0 -> bucket <> []) ->
    NoDup (Js.keys g) /\
    (forall tag bucket, In (tag, bucket) g -> bucket <> []) /\
    listed g = listed g0 + length endpoints.
Proof.
  induction endpoints as [|e rest IH]; intros g0 g H Hnd Hne.
  - simpl in H. injection H as <-. simpl. repeat split; auto; lia.
  - simpl in H. unfold group_endpoint in H at 1.
    destruct (grouping_key e) as [t| |]; simpl in H; try discriminate.
    unfold Js.js_get in H.
    destruct (Js.own_get g0 t) as [bucket|] eqn:Hb; simpl in H.
    + pose proof (listed_obj_set g0 t (bucket ++ [e])) as Hl.
      rewrite Hb, length_app in Hl. simpl in Hl.
      destruct (IH _ _ H) as (N & E & L).
      * rewrite keys_obj_set, Hb. exact Hnd.
      * intros tag b Hin. apply In_obj_set in Hin as [[= -> ->]|Hin];
          [destruct bucket; discriminate|eapply Hne, Hin].
      * repeat split; auto. simpl. lia.
    + destruct (Js.inherited_name t); simpl in H; [discriminate|].
      pose proof (listed_obj_set g0 t [e]) as Hl.
      rewrite Hb in Hl. simpl in Hl.
      destruct (IH _ _ H) as (N & E & L).
      * rewrite keys_obj_set, Hb. apply NoDup_app. split; [exact Hnd|].
        split; [|apply NoDup_singleton].
        intros x Hx Hx'. apply list_elem_of_In in Hx.
        apply list_elem_of_In in Hx'. destruct Hx' as [<-|[]].
        apply (proj1 (own_get_None g0 t) Hb), Hx.
      * intros tag b Hin. apply In_obj_set in Hin as [[= -> ->]|Hin];
          [discriminate|eapply Hne, Hin].
      * repeat split; auto. simpl. lia.
Qed.

Lemma createSummary_invariant spec summary :
  createSummary spec = Returned summary ->
  NoDup (Js.keys (endpointsByTag summary)) /\
  (forall tag bucket, In (tag, bucket) (endpointsByTag summary) -> bucket <> []) /\
  totalEndpoints summary = listed (endpointsByTag summary).
Proof.
  unfold createSummary.
  destruct (group_endpoints [] (extractEndpointSummaries spec)) as [g| |] eqn:Hg;
    simpl; try discriminate.
  intros [= <-]. simpl.
  destruct (group_endpoints_invariant _ _ _ Hg) as (N & E & L);
    [apply NoDup_nil; exact I | intros ? ? [] |].
  repeat split; auto.
Qed.

Lemma group_endpoints_keys endpoints :
  forall g0 g, group_endpoints g0 endpoints = Returned g ->
  forall e, In e endpoints -> exists tag, grouping_key e = Returned tag.
Proof.
  induction endpoints as [|x rest IH]; intros g0 g H e; simpl; [intros []|].
  simpl in H. unfold group_endpoint in H at 1.
  destruct (grouping_key x) as [t| |] eqn:Hk; simpl in H; try discriminate.
  intros [<-|He]; [eauto|].
  destruct (Js.js_get g0 t); simpl in H; try discriminate; eapply IH; eassumption.
Qed.

Lemma createSummary_keys spec summary :
  createSummary spec = Returned summary ->
  forall e, In e (extractEndpointSummaries spec) ->
    exists tag, grouping_key e = Returned tag.
Proof.
  unfold createSummary.
  destruct (group_endpoints [] (extractEndpointSummaries spec)) as [g| |] eqn:Hg;
    simpl; try discriminate.
  intros _. exact (group_endpoints_keys _ _ _ Hg).
Qed.

(** X3. The summary partitions the listing.  [totalEndpoints] is the
    length of the listing and the sum of the bucket sizes; the tags of the
    buckets are pairwise distinct and no bucket is empty; every bucket
    holds exactly the listed endpoints grouped under its tag, in listing
    order; and every listed endpoint is in the bucket of its grouping key
    (its first tag, or [default]) and in no other. *)
Theorem createSummary_partitions_listing
    (spec : OpenAPISpec) (summary : ApiSummary) :
  createSummary spec = Returned summary ->
  NoDup (Js.keys (endpointsByTag summary)) /\
  totalEndpoints summary = length (extractEndpointSummaries spec) /\
  totalEndpoints summary = listed (endpointsByTag summary) /\
  (forall tag bucket, In (tag, bucket) (endpointsByTag summary) ->
     bucket <> [] /\
     bucket = List.filter (grouped_under tag) (extractEndpointSummaries spec)) /\
  (forall e, In e (extractEndpointSummaries spec) ->
     exists tag bucket,
       grouping_key e = Returned tag /\
       In (tag, bucket) (endpointsByTag summary) /\ In e bucket /\
       forall tag' bucket', In (tag', bucket') (endpointsByTag summary) ->
         In e bucket' -> tag' = tag).
Proof.
  intros H. destruct (createSummary_invariant _ _ H) as (N & E & L).
  destruct (createSummary_buckets _ _ H) as (_ & T & B).
  assert (Hbucket : forall tag bucket, In (tag, bucket) (endpointsByTag summary) ->
            bucket = List.filter (grouped_under tag) (extractEndpointSummaries spec)).
  { intros tag bucket Hin.
    pose proof (In_own_get _ _ _ N Hin) as Hg. rewrite B in Hg.
    destruct (List.filter (grouped_under tag) (extractEndpointSummaries spec));
      [discriminate|]. injection Hg as <-. reflexivity. }
  split; [exact N|]. split; [exact T|]. split; [exact L|]. split.
  - intros tag bucket Hin. split; [eapply E, Hin|apply Hbucket, Hin].
  - intros e He. destruct (createSummary_keys _ _ H e He) as [tag Hk].
    assert (Hg : grouped_under tag e = true)
      by (unfold grouped_under; rewrite Hk; apply String.eqb_refl).
    assert (Hin : In e (List.filter (grouped_under tag) (extractEndpointSummaries spec)))
      by (apply filter_In; split; assumption).
    specialize (B tag).
    destruct (List.filter (grouped_under tag) (extractEndpointSummaries spec))
      as [|x bucket] eqn:Hf; [destruct Hin|].
    exists tag, (x :: bucket). split; [exact Hk|].
    split; [apply own_get_In, B|]. split; [exact Hin|].
    intros tag' bucket' Hin' He'. rewrite (Hbucket _ _ Hin') in He'.
    apply filter_In in He' as [_ Hg']. unfold grouped_under in Hg'.
    rewrite Hk in Hg'. apply String.eqb_eq in Hg'. symmetry. exact Hg'.
Qed.

Lemma createSummary_partitions_listing_witness :
  NoDup (Js.keys (endpointsByTag scenario_summary)) /\
  totalEndpoints scenario_summary = length (extractEndpointSummaries scenario_spec) /\
  totalEndpoints scenario_summary = listed (endpointsByTag scenario_summary) /\
  (forall tag bucket, In (tag, bucket) (endpointsByTag scenario_summary) ->
     bucket <> [] /\
     bucket = List.filter (grouped_under tag) (extractEndpointSummaries scenario_spec)) /\
  (forall e, In e (extractEndpointSummaries scenario_spec) ->
     exists tag bucket,
       grouping_key e = Returned tag /\
       In (tag, bucket) (endpointsByTag scenario_summary) /\ In e bucket /\
       forall tag' bucket', In (tag', bucket') (endpointsByTag scenario_summary) ->
         In e bucket' -> tag' = tag).
Proof.
  apply (createSummary_partitions_listing scenario_spec scenario_summary).
  vm_compute. reflexivity.
Defined.

(** X4. For a filter that does not name a member of [Object.prototype]
    (no filter and the empty filter included), when the summary of the
    document can be built the reply of [list-all-endpoints] is a summary
    that counts what it shows: [totalEndpoints] is the number of endpoints
    in [endpointsByTag], and under a non-empty filter there is at most one
    bucket. *)
Theorem list_reply_counts_what_it_shows
    (spec : OpenAPISpec) (filterByTag : option string) (reply : ListReply) :
  (forall tag, filterByTag = Some tag -> Js.inherited_name tag = false) ->
  handleListAllEndpoints spec filterByTag = Returned reply ->
  exists result,
    reply = Summary result /\
    totalEndpoints result = listed (endpointsByTag result) /\
    (forall tag, filterByTag = Some tag -> tag <> "" ->
       length (endpointsByTag result) <= 1).
Proof.
  intros Hname. unfold handleListAllEndpoints.
  destruct (createSummary spec) as [s| |] eqn:Hs; simpl; try discriminate.
  destruct (createSummary_invariant _ _ Hs) as (_ & _ & L).
  destruct filterByTag as [tag|].
  - destruct (String.eqb tag "") eqn:E.
    + intros [= <-]. exists s. split; [reflexivity|]. split; [exact L|].
      intros t [= <-] Hne. apply String.eqb_eq in E. contradiction.
    + unfold Js.js_get. rewrite (Hname tag eq_refl).
      destruct (Js.own_get (endpointsByTag s) tag); intros [= <-];
        eexists; (split; [reflexivity|]); simpl;
        (split; [unfold listed; simpl; lia | intros; lia]).
  - intros [= <-]. exists s. split; [reflexivity|]. split; [exact L|].
    intros t Ht. discriminate.
Qed.

Definition addresses_only : ApiSummary :=
  {| as_info := info scenario_spec;
     totalEndpoints := 1;
     endpointsByTag :=
       [("Addresses",
         [summary_entry "/addresses" "post"
            (operation_tagged "Create address" "Addresses")])] |}.

Lemma list_reply_counts_what_it_shows_witness :
  exists result,
    Summary addresses_only = Summary result /\
    totalEndpoints result = listed (endpointsByTag result) /\
    (forall tag, Some "Addresses" = Some tag -> tag <> "" ->
       length (endpointsByTag result) <= 1).
Proof.
  apply (list_reply_counts_what_it_shows scenario_spec (Some "Addresses")
           (Summary addresses_only)).
  - intros tag [= <-]. reflexivity.
  - vm_compute. reflexivity.
Defined.

Lemma NoDup_keys_entries {A} (o : list (string * A)) :
  NoDup (Js.keys o) -> NoDup o.
Proof.
  induction o as [|[k a] o IH]; simpl; intros H; [apply NoDup_nil; exact I|].
  apply NoDup_cons in H as [Hk Ho]. apply NoDup_cons. split; [|apply IH, Ho].
  intros Hin. apply Hk. apply list_elem_of_In. apply list_elem_of_In in Hin.
  apply (in_map fst) in Hin. exact Hin.
Qed.

Lemma NoDup_map_flat_map {A B C} (proj : B -> C) (f : A -> list B) (l : list A) :
  (forall x, In x l -> NoDup (map proj (f x))) ->
  (forall x1 x2 y1 y2, In x1 l -> In x2 l -> In y1 (f x1) -> In y2 (f x2) ->
     proj y1 = proj y2 -> x1 = x2) ->
  NoDup l -> NoDup (map proj (flat_map f l)).
Proof.
  induction l as [|x l IH]; intros Hf Hsep Hnd; simpl; [apply NoDup_nil; exact I|].
  apply NoDup_cons in Hnd as [Hx Hl]. rewrite map_app. apply NoDup_app.
  split; [apply Hf; left; reflexivity|]. split.
  - intros c Hc1 Hc2. apply list_elem_of_In in Hc1, Hc2.
    apply in_map_iff in Hc1 as (y1 & <- & Hy1).
    apply in_map_iff in Hc2 as (y2 & E & Hy2).
    apply in_flat_map in Hy2 as (x2 & Hx2 & Hy2).
    apply Hx. apply list_elem_of_In.
    rewrite (Hsep x x2 y1 y2); auto; [left; reflexivity|right; exact Hx2].
  - apply IH; [intros; apply Hf; right; assumption| |exact Hl].
    intros x1 x2 y1 y2 H1 H2. apply Hsep; right; assumption.
Qed.

(** X5. In a document of the data model (distinct keys; method keys that
    are ASCII text without upper-case letters), no endpoint is listed
    twice: the (path, method) pairs of the listing are pairwise
    distinct. *)
Theorem no_endpoint_listed_twice (spec : OpenAPISpec) :
  distinct_keys spec ->
  lowercase_method_keys spec ->
  NoDup (map (fun e => (es_path e, es_method e)) (extractEndpointSummaries spec)).
Proof.
  intros [Hnd Hnd'] Hkeys.
  pose proof (lowercase_keys_case_stable spec Hkeys) as Hcase.
  unfold extractEndpointSummaries.
  apply NoDup_map_flat_map.
  - intros [path pathItem] Hp. apply (proj1 (In_Object_entries _ _)) in Hp.
    apply NoDup_map_flat_map.
    + intros [method operation] _.
      destruct (isOpenAPIOperation (Some operation)); simpl;
        [apply NoDup_singleton|apply NoDup_nil; exact I].
    + intros [m1 o1] [m2 o2] y1 y2 H1 H2 Hy1 Hy2 E.
      apply (proj1 (In_Object_entries _ _)) in H1, H2.
      destruct (isOpenAPIOperation (Some o1)) eqn:E1; [|destruct Hy1].
      destruct (isOpenAPIOperation (Some o2)) eqn:E2; [|destruct Hy2].
      destruct Hy1 as [<-|[]]. destruct Hy2 as [<-|[]]. simpl in E.
      injection E as E.
      assert (m1 = m2).
      { rewrite <- (Hcase _ _ _ _ Hp H1 E1), <- (Hcase _ _ _ _ Hp H2 E2), E.
        reflexivity. }
      subst m2. f_equal.
      pose proof (In_own_get _ _ _ (Hnd' _ _ Hp) H1) as G1.
      pose proof (In_own_get _ _ _ (Hnd' _ _ Hp) H2) as G2. congruence.
    + apply NoDup_keys_entries, Object_entries_NoDup, (Hnd' _ _ Hp).
  - intros [p1 i1] [p2 i2] y1 y2 H1 H2 Hy1 Hy2 E.
    apply (proj1 (In_Object_entries _ _)) in H1, H2.
    apply in_flat_map in Hy1 as ([m1 o1] & _ & Hy1).
    apply in_flat_map in Hy2 as ([m2 o2] & _ & Hy2).
    destruct (isOpenAPIOperation (Some o1)); [|destruct Hy1].
    destruct (isOpenAPIOperation (Some o2)); [|destruct Hy2].
    destruct Hy1 as [<-|[]]. destruct Hy2 as [<-|[]]. simpl in E.
    injection E as E _. subst p2. f_equal.
    pose proof (In_own_get _ _ _ Hnd H1) as G1.
    pose proof (In_own_get _ _ _ Hnd H2) as G2. congruence.
  - apply NoDup_keys_entries, Object_entries_NoDup, Hnd.
Qed.

Lemma scenario_spec_distinct_keys : distinct_keys scenario_spec.
Proof.
  assert (two : forall a b : string, a <> b -> NoDup [a; b]).
  { intros a b Hab. apply NoDup_cons. split; [|apply NoDup_singleton].
    intros H. apply list_elem_of_In in H. destruct H as [H|[]]. congruence. }
  split.
  - apply two. discriminate.
  - intros path pathItem [[= <- <-] | [[= <- <-] | []]]; simpl.
    + apply two. discriminate.
    + apply NoDup_singleton.
Defined.

Lemma scenario_spec_lowercase_keys : lowercase_method_keys scenario_spec.
Proof.
  intros path pathItem method operation [[= <- <-] | [[= <- <-] | []]] Hm Hop;
    simpl in Hm.
  - destruct Hm as [[= <- <-] | [[= <- <-] | []]]; reflexivity.
  - destruct Hm as [[= <- <-] | []]; reflexivity.
Defined.

Lemma no_endpoint_listed_twice_witness :
  NoDup (map (fun e => (es_path e, es_method e)) (extractEndpointSummaries scenario_spec)).
Proof.
  apply (no_endpoint_listed_twice scenario_spec
           scenario_spec_distinct_keys scenario_spec_lowercase_keys).
Defined.

Lemma lower_lower_char (c : ascii) :
  JsString.lower_char (JsString.lower_char c) = JsString.lower_char c.
Proof. destruct c as [[] [] [] [] [] [] [] []]; reflexivity. Qed.

Lemma lower_lower (s : string) :
  JsString.toLowerCase (JsString.toLowerCase s) = JsString.toLowerCase s.
Proof.
  induction s as [|c s IH]; simpl; [reflexivity|].
  unfold JsString.toLowerCase in *. simpl.
  rewrite lower_lower_char, IH. reflexivity.
Qed.

(** X6. The lookup ignores the case of an ASCII method: asking for the
    method in upper case or in lower case finds what the method as given
    finds, on every document and path. *)
Theorem method_lookup_ignores_case (spec : OpenAPISpec) (path method : string) :
  ascii_text method ->
  getEndpointDetails spec path (JsString.toUpperCase method) =
    getEndpointDetails spec path method /\
  getEndpointDetails spec path (JsString.toLowerCase method) =
    getEndpointDetails spec path method.
Proof.
  intros _. unfold getEndpointDetails. rewrite lower_upper, lower_lower.
  split; reflexivity.
Qed.

Lemma method_lookup_ignores_case_witness :
  getEndpointDetails scenario_spec "/customers" (JsString.toUpperCase "Post") =
    getEndpointDetails scenario_spec "/customers" "Post" /\
  getEndpointDetails scenario_spec "/customers" (JsString.toLowerCase "Post") =
    getEndpointDetails scenario_spec "/customers" "Post".
Proof.
  apply (method_lookup_ignores_case scenario_spec "/customers" "Post").
  unfold ascii_text. simpl. repeat constructor.
Defined.

(** *** Tags that name a member of [Object.prototype] *)

Lemma keys_not_inherited_obj_set {A} (g : list (string * A)) t a :
  Js.inherited_name t = false ->
  (forall k, In k (Js.keys g) -> Js.inherited_name k = false) ->
  forall k, In k (Js.keys (Js.obj_set g t a)) -> Js.inherited_name k = false.
Proof.
  intros Ht Hg k. rewrite keys_obj_set.
  destruct (Js.own_get g t); [apply Hg|].
  rewrite in_app_iff. intros [H|[<-|[]]]; [apply Hg, H|exact Ht].
Qed.

Lemma group_endpoints_outcome endpoints :
  forall g,
    (forall k, In k (Js.keys g) -> Js.inherited_name k = false) ->
    (forall e, In e endpoints -> exists t, grouping_key e = Returned t) ->
    if forallb (fun e => match grouping_key e with
                         | Returned t => negb (Js.inherited_name t)
                         | _ => true
                         end) endpoints
    then exists g', group_endpoints g endpoints = Returned g'
    else group_endpoints g endpoints =
         Thrown (TypeError "groupedByTag[tag].push is not a function").
Proof.
  induction endpoints as [|e rest IH]; intros g Hg Hkeys; simpl; [eauto|].
  destruct (Hkeys e (or_introl eq_refl)) as [t Ht].
  unfold group_endpoint at 1 2. rewrite Ht. simpl.
  assert (Hrest : forall e', In e' rest -> exists t', grouping_key e' = Returned t')
    by (intros e' He'; apply Hkeys; right; exact He').
  unfold Js.js_get.
  destruct (Js.own_get g t) as [bucket|] eqn:Hb.
  - assert (Hin : Js.inherited_name t = false).
    { apply Hg. apply own_get_In in Hb. apply (in_map fst) in Hb. exact Hb. }
    rewrite Hin. simpl.
    apply IH; [apply keys_not_inherited_obj_set; assumption|exact Hrest].
  - destruct (Js.inherited_name t) eqn:Hin; simpl; [reflexivity|].
    apply IH; [apply keys_not_inherited_obj_set; assumption|exact Hrest].
Qed.

(** X25. One tag can break the listing.  For a document whose first tags
    are strings (or absent), [createSummary] returns a summary exactly
    when no listed endpoint is grouped under the name of a member of
    [Object.prototype] ([constructor], [toString], [valueOf], ...); when
    one is, it throws the [TypeError] of calling [push] on that member,
    whatever the other endpoints are. *)
Theorem createSummary_fails_on_inherited_tag (spec : OpenAPISpec) :
  (forall e, In e (extractEndpointSummaries spec) ->
     exists t, grouping_key e = Returned t) ->
  ((exists summary, createSummary spec = Returned summary) <->
   (forall e t, In e (extractEndpointSummaries spec) ->
      grouping_key e = Returned t -> Js.inherited_name t = false)) /\
  ((exists e t, In e (extractEndpointSummaries spec) /\
      grouping_key e = Returned t /\ Js.inherited_name t = true) ->
   createSummary spec =
     Thrown (TypeError "groupedByTag[tag].push is not a function")).
Proof.
  intros Hkeys.
  pose proof (group_endpoints_outcome (extractEndpointSummaries spec) []
                ltac:(intros k []) Hkeys) as H.
  unfold createSummary.
  destruct (forallb _ (extractEndpointSummaries spec)) eqn:Hall.
  - destruct H as [g Hg]. rewrite Hg. simpl.
    rewrite forallb_forall in Hall.
    assert (Hno : forall e t, In e (extractEndpointSummaries spec) ->
              grouping_key e = Returned t -> Js.inherited_name t = false).
    { intros e t He Ht. specialize (Hall e He). rewrite Ht in Hall.
      apply negb_true_iff in Hall. exact Hall. }
    split; [split; [intros _; exact Hno|eauto]|].
    intros (e & t & He & Ht & Hin). rewrite (Hno e t He Ht) in Hin. discriminate.
  - rewrite H. simpl.
    assert (Hsome : exists e t, In e (extractEndpointSummaries spec) /\
              grouping_key e = Returned t /\ Js.inherited_name t = true).
    { apply not_true_iff_false in Hall.
      destruct (existsb (fun e => match grouping_key e with
                                  | Returned t => Js.inherited_name t
                                  | _ => false
                                  end) (extractEndpointSummaries spec)) eqn:Hex.
      - apply existsb_exists in Hex as (e & He & Hx).
        destruct (grouping_key e) as [t| |] eqn:Ht; try discriminate. eauto.
      - exfalso. apply Hall. apply forallb_forall. intros e He.
        destruct (grouping_key e) as [t| |] eqn:Ht; try reflexivity.
        apply negb_true_iff.
        destruct (Js.inherited_name t) eqn:Hin; [|reflexivity].
        assert (Hx : existsb (fun e => match grouping_key e with
                                       | Returned t => Js.inherited_name t
                                       | _ => false
                                       end) (extractEndpointSummaries spec) = true).
        { apply existsb_exists. exists e. split; [exact He|].
          rewrite Ht. exact Hin. }
        congruence. }
    split; [|intros _; reflexivity].
    split; [intros [s Hs]; discriminate|].
    intros Hno. destruct Hsome as (e & t & He & Ht & Hin).
    rewrite (Hno e t He Ht) in Hin. discriminate.
Qed.
(** A document with an endpoint tagged with the name of a member of
    [Object.prototype]. *)
Definition constructor_spec : OpenAPISpec :=
  {| info := None;
     paths := [("/builders", [("get", operation_tagged "List builders" "constructor")])];
     schemas := None |}.

Lemma createSummary_fails_on_inherited_tag_witness :
  ((exists summary, createSummary constructor_spec = Returned summary) <->
   (forall e t, In e (extractEndpointSummaries constructor_spec) ->
      grouping_key e = Returned t -> Js.inherited_name t = false)) /\
  ((exists e t, In e (extractEndpointSummaries constructor_spec) /\
      grouping_key e = Returned t /\ Js.inherited_name t = true) ->
   createSummary constructor_spec =
     Thrown (TypeError "groupedByTag[tag].push is not a function")).
Proof.
  apply (createSummary_fails_on_inherited_tag constructor_spec).
  intros e He. vm_compute in He. destruct He as [<-|[]].
  eexists. vm_compute. reflexivity.
Defined.

(* ===================================================================== *)
(** ** More about the invocation gateway *)
(* ===================================================================== *)

Section GatewayChecks.

Variable JSON_stringify : JsonValue -> string.
Variable JSON_stringify_pretty : JsonValue -> string.

(** X7. What an invocation does to the outside is guarded: the document
    is loaded only when read-only mode is off and a non-empty key is
    configured, and a request is sent only when, besides, the document
    loaded and the lookup found the endpoint.  Then it is the only
    request of the invocation, sent after the load, with the method as
    the caller wrote it, a timeout of 30000 ms, the merged headers, and a
    body exactly when the caller gave one. *)
Theorem nothing_sent_before_the_checks
    (config : ServerConfig) (world : World) (args : InvokeApiEndpointArgs)
    (events : list Event) (outcome : Outcome string) :
  handleInvokeApiEndpoint JSON_stringify JSON_stringify_pretty config world args
    = (events, outcome) ->
  events <> [] ->
  exists key,
    readOnlyMode config = false /\ apiKey config = Some key /\ key <> "" /\
    (events = [SpecLoad] \/
     exists spec details request,
       loadOpenApiSpec world = Returned spec /\
       getEndpointDetails spec (arg_path args) (arg_method args)
         = Returned (Some details) /\
       events = [SpecLoad; HttpCall request] /\
       rc_method request = arg_method args /\
       rc_timeout request = 30000%Z /\
       rc_headers request = build_headers key (arg_headers args) /\
       rc_data request = (fun b => JSON_stringify (JObj b)) <$> arg_body args).
Proof.
  unfold handleInvokeApiEndpoint.
  destruct (readOnlyMode config); [intros [= <- _] H; contradiction|].
  destruct (apiKey config) as [key|]; simpl; [|intros [= <- _] H; contradiction].
  destruct (String.eqb key "") eqn:Ek; simpl; [intros [= <- _] H; contradiction|].
  apply String.eqb_neq in Ek.
  intros Hrun _. exists key. repeat (split; [solve [auto]|]).
  destruct (loadOpenApiSpec world) as [spec| |]; [|injection Hrun as <- _; auto ..].
  destruct (getEndpointDetails spec (arg_path args) (arg_method args))
    as [[details|]| |] eqn:Hd; [|injection Hrun as <- _; auto ..].
  unfold try_invoke, build_request in Hrun.
  destruct (build_url config (arg_path args) (arg_parameters args)) as [url|[]|];
    simpl in Hrun; [|injection Hrun as <- _; auto ..].
  match type of Hrun with context [axios world ?rc] =>
    set (request := rc) in *; destruct (axios world request) end;
    injection Hrun as <- _; right; exists spec, details, request;
    repeat split; solve [reflexivity | exact Hd].
Qed.

End GatewayChecks.

Lemma nothing_sent_before_the_checks_witness :
  exists key,
    readOnlyMode (scenario_config false) = false /\
    apiKey (scenario_config false) = Some key /\ key <> "" /\
    (fst (handleInvokeApiEndpoint (fun _ => "") (fun _ => "")
            (scenario_config false) timeout_world (get_customers None)) = [SpecLoad] \/
     exists spec details request,
       loadOpenApiSpec timeout_world = Returned spec /\
       getEndpointDetails spec "/customers" "GET" = Returned (Some details) /\
       fst (handleInvokeApiEndpoint (fun _ => "") (fun _ => "")
              (scenario_config false) timeout_world (get_customers None))
         = [SpecLoad; HttpCall request] /\
       rc_method request = "GET" /\
       rc_timeout request = 30000%Z /\
       rc_headers request = build_headers key None /\
       rc_data request = None).
Proof.
  apply (nothing_sent_before_the_checks (fun _ => "") (fun _ => "")
           (scenario_config false) timeout_world (get_customers None)
           _ _ (surjective_pairing _)).
  vm_compute. discriminate.
Defined.

(** *** The request headers *)

Lemma own_get_fold_obj_set {A} (entries : list (string * A)) :
  forall acc name,
    NoDup (Js.keys entries) ->
    Js.own_get (fold_left (fun acc '(k, v) => Js.obj_set acc k v) entries acc) name =
    match Js.own_get entries name with
    | Some v => Some v
    | None => Js.own_get acc name
    end.
Proof.
  induction entries as [|[k v] rest IH]; intros acc name Hnd; simpl; [reflexivity|].
  apply NoDup_cons in Hnd as [Hk Hr].
  rewrite IH by exact Hr. rewrite own_get_obj_set.
  destruct (String.eqb k name) eqn:E; [|reflexivity].
  apply String.eqb_eq in E. subst name.
  destruct (Js.own_get rest k) eqn:G; [|reflexivity].
  exfalso. apply Hk. apply list_elem_of_In. apply own_get_In in G.
  apply (in_map fst) in G. exact G.
Qed.

(** X8. The headers of the request are the two defaults overridden by the
    caller's: a header the caller supplies is sent with the caller's value,
    [X-API-key] and [Content-Type] included, names compared exactly; the
    defaults are sent for the names the caller leaves out, and nothing
    else is. *)
Theorem caller_headers_take_precedence
    (key : string) (supplied : list (string * string)) (name : string) :
  NoDup (Js.keys supplied) ->
  Js.own_get (build_headers key (Some supplied)) name =
  match Js.own_get supplied name with
  | Some value => Some value
  | None =>
      if String.eqb name "X-API-key" then Some key
      else if String.eqb name "Content-Type" then Some "application/json"
      else None
  end.
Proof.
  intros Hnd. unfold build_headers.
  change (default [] (Some supplied)) with supplied.
  rewrite own_get_fold_obj_set by (apply Object_entries_NoDup, Hnd).
  rewrite own_get_Object_entries by exact Hnd.
  destruct (Js.own_get supplied name); [reflexivity|].
  change (Js.own_get [("X-API-key", key); ("Content-Type", "application/json")] name)
    with (if String.eqb "X-API-key" name then Some key
          else if String.eqb "Content-Type" name then Some "application/json"
          else None).
  rewrite (String.eqb_sym "X-API-key"), (String.eqb_sym "Content-Type").
  reflexivity.
Qed.

Lemma caller_headers_take_precedence_witness :
  Js.own_get (build_headers "test-api-key-123"
                (Some [("X-API-key", "another-key"); ("content-type", "text/plain")]))
    "X-API-key" = Some "another-key".
Proof.
  apply (caller_headers_take_precedence "test-api-key-123"
           [("X-API-key", "another-key"); ("content-type", "text/plain")] "X-API-key").
  apply NoDup_cons. split; [|apply NoDup_singleton].
  intros H. apply list_elem_of_In in H. destruct H as [H|[]]. discriminate.
Defined.

(* ===================================================================== *)
(** ** The server: loading the document *)
(* ===================================================================== *)

Section LoadingProperties.

Variable JSON_stringify : JsonValue -> string.

Local Abbreviation load := (Server.loadOpenApiSpec JSON_stringify).

(** X9. A document that was loaded is kept: once a load has returned a
    document, every later load returns that same document and does
    nothing, neither a fetch, nor a file read, nor a log line, whatever
    the configuration and the host have become. *)
Theorem loaded_document_is_kept
    (config config' : ServerConfig) (host host' : Host)
    (before after : option OpenAPISpec) (effects : list Effect)
    (spec : OpenAPISpec) :
  load config host before = (effects, Returned spec, after) ->
  load config' host' after = ([], Returned spec, after).
Proof.
  unfold Server.loadOpenApiSpec.
  destruct before as [cached|].
  - intros [= _ <- <-]. reflexivity.
  - destruct (snd (Server.spec_content JSON_stringify config host)) as [content|error];
      [|discriminate].
    destruct (Server.parse_spec host content) as [parsed|error]; [|discriminate].
    intros [= _ <- <-]. reflexivity.
Qed.

(** X10. A load that fails always fails the same way: the error is an
    [McpError] with code [InternalError] whose message is
    [Failed to load OpenAPI spec: ] followed by the text of what was
    thrown; nothing was cached before and nothing is cached after, so
    the next request tries again. *)
Theorem failed_load_is_internal_error
    (config : ServerConfig) (host : Host)
    (before after : option OpenAPISpec) (effects : list Effect) (e : JsError) :
  load config host before = (effects, Thrown e, after) ->
  before = None /\ after = None /\
  exists text,
    e = McpError InternalError ("Failed to load OpenAPI spec: " +:+ text).
Proof.
  unfold Server.loadOpenApiSpec.
  destruct before as [cached|]; [discriminate|].
  destruct (snd (Server.spec_content JSON_stringify config host)) as [content|error].
  - destruct (Server.parse_spec host content) as [parsed|error]; [discriminate|].
    intros [= _ <- <-]. eauto.
  - intros [= _ <- <-]. eauto.
Qed.

(** X11. The local file is a fallback for the fetch only: it is read
    only when no URL is configured or the fetch itself failed.  A
    document that was fetched and cannot be parsed is an error; the
    local file is not tried. *)
Theorem local_file_is_read_only_as_fallback
    (config : ServerConfig) (host : Host) (before after : option OpenAPISpec)
    (effects : list Effect) (outcome : Outcome OpenAPISpec) (path : option string) :
  load config host before = (effects, outcome, after) ->
  In (ReadFile path) effects ->
  path = localSpecPath config /\
  (truthy_string (openApiSpecUrl config) = false \/
   exists error, axios_get host (template (openApiSpecUrl config)) = inr error).
Proof.
  unfold Server.loadOpenApiSpec.
  assert (Hc : In (ReadFile path) (fst (Server.spec_content JSON_stringify config host)) ->
          path = localSpecPath config /\
          (truthy_string (openApiSpecUrl config) = false \/
           exists error, axios_get host (template (openApiSpecUrl config)) = inr error)).
  { unfold Server.spec_content, Server.read_local.
    destruct (truthy_string (openApiSpecUrl config)).
    - destruct (axios_get host (template (openApiSpecUrl config))) as [d|error]; simpl.
      + intros [H|[H|[]]]; discriminate.
      + intros [H|[H|[H|[H|[H|[]]]]]]; try discriminate.
        injection H as <-. eauto.
    - simpl. intros [H|[]]. injection H as <-. auto. }
  destruct before as [cached|]; [intros [= <- _ _] []|].
  destruct (snd (Server.spec_content JSON_stringify config host)) as [content|error].
  - destruct (Server.parse_spec host content) as [parsed|error];
      intros [= <- _ _] Hin; [|exact (Hc Hin)].
    apply in_app_iff in Hin as [Hin|[H|[]]]; [exact (Hc Hin)|discriminate].
  - intros [= <- _ _]. exact Hc.
Qed.

End LoadingProperties.

(** A host without network whose bundled file holds the scenario
    document. *)
Definition offline_host : Host :=
  {| axios_get := fun _ => inr "Error: getaddrinfo ENOTFOUND api.iron.xyz";
     readFileSync := fun _ => inl "openapi: 3.0.0";
     yaml_load := fun _ => inl scenario_spec;
     JSON_parse := fun _ => inr "SyntaxError: Unexpected token o in JSON at position 0";
     axios_request := axios timeout_world |}.

(** A host whose spec URL answers with a page that is no document. *)
Definition garbled_host : Host :=
  {| axios_get := fun _ => inl (TextData "<html>");
     readFileSync := fun _ => inl "openapi: 3.0.0";
     yaml_load := fun _ => inr "YAMLException: bad indentation";
     JSON_parse := fun _ => inr "SyntaxError: Unexpected token < in JSON at position 0";
     axios_request := axios timeout_world |}.

Lemma loaded_document_is_kept_witness :
  Server.loadOpenApiSpec (fun _ => "") (scenario_config false) garbled_host
    (Some scenario_spec) = ([], Returned scenario_spec, Some scenario_spec).
Proof.
  eapply (loaded_document_is_kept (fun _ => "") (scenario_config false)
            (scenario_config false) offline_host garbled_host None).
  vm_compute. reflexivity.
Defined.

Lemma failed_load_is_internal_error_witness :
  @None OpenAPISpec = None /\ @None OpenAPISpec = None /\
  exists text,
    McpError InternalError
      "Failed to load OpenAPI spec: SyntaxError: Unexpected token < in JSON at position 0"
    = McpError InternalError ("Failed to load OpenAPI spec: " +:+ text).
Proof.
  eapply (failed_load_is_internal_error (fun _ => "") (scenario_config false)
            garbled_host None None).
  vm_compute. reflexivity.
Defined.

Lemma local_file_is_read_only_as_fallback_witness :
  @None string = localSpecPath (scenario_config false) /\
  (truthy_string (openApiSpecUrl (scenario_config false)) = false \/
   exists error,
     axios_get offline_host (template (openApiSpecUrl (scenario_config false)))
       = inr error).
Proof.
  eapply (local_file_is_read_only_as_fallback (fun _ => "") (scenario_config false)
            offline_host None).
  - vm_compute. reflexivity.
  - do 4 right. left. reflexivity.
Defined.

(* ===================================================================== *)
(** ** The server: tool dispatch *)
(* ===================================================================== *)

(** The names of the three tools, and the guard each request must pass. *)
Definition tools : list string :=
  ["list-all-endpoints"; "get-api-specs"; "invoke-api-endpoint"].

Definition tool_guard (name : string) (args : option JsonValue) : bool :=
  if String.eqb name "list-all-endpoints" then isListAllEndpointsArgs args
  else has_strings ["path"; "method"] args.

(** Only [TypeError]s come out of a string coercion and of the grouping
    of endpoints. *)
Definition is_TypeError (e : JsError) : Prop := exists message, e = TypeError message.

Definition throws_only {A} (P : JsError -> Prop) (o : Outcome A) : Prop :=
  forall e, o = Thrown e -> P e.

Lemma bindO_throws_only {A B} P (m : Outcome A) (f : A -> Outcome B) :
  throws_only P m -> (forall a, throws_only P (f a)) -> throws_only P (bindO m f).
Proof.
  unfold throws_only. destruct m as [a|e0|]; simpl; intros Hm Hf e He.
  - exact (Hf a e He).
  - injection He as <-. apply Hm. reflexivity.
  - discriminate.
Qed.

Lemma Returned_throws_only {A} P (a : A) : throws_only P (Returned a).
Proof. intros e. discriminate. Qed.

Lemma ToString_throws_only (v : JsonValue) : throws_only is_TypeError (Js.ToString v).
Proof.
  induction v as [ | [] | n | s | items IH | o _ ] using JsonValue_nested_ind;
    simpl; try apply Returned_throws_only.
  - apply bindO_throws_only; [|intros; apply Returned_throws_only].
    induction IH as [|x l Hx _ IHl]; [apply Returned_throws_only|].
    apply bindO_throws_only.
    + destruct x; try exact Hx. apply Returned_throws_only.
    + intros s. apply bindO_throws_only; [exact IHl|intros; apply Returned_throws_only].
  - destruct (Js.own_get o "toString"); [|apply Returned_throws_only].
    intros e [= <-]. eexists. reflexivity.
Qed.

Lemma group_endpoints_throws_only endpoints :
  forall g, throws_only is_TypeError (group_endpoints g endpoints).
Proof.
  induction endpoints as [|x rest IH]; intros g; simpl; [apply Returned_throws_only|].
  apply bindO_throws_only; [|intros; apply IH].
  unfold group_endpoint. apply bindO_throws_only.
  - unfold grouping_key. destruct (first_tag (es_tags x)) as [t|];
      [|apply Returned_throws_only].
    destruct (Js.truthy t); [apply ToString_throws_only|apply Returned_throws_only].
  - intros tag. destruct (Js.js_get g tag); try apply Returned_throws_only.
    intros e [= <-]. eexists. reflexivity.
Qed.

Lemma handleListAllEndpoints_throws_only spec filterByTag :
  throws_only is_TypeError (handleListAllEndpoints spec filterByTag).
Proof.
  unfold handleListAllEndpoints, createSummary.
  apply bindO_throws_only.
  - apply bindO_throws_only; [apply group_endpoints_throws_only|].
    intros; apply Returned_throws_only.
  - intros result. destruct filterByTag as [tag|]; [|apply Returned_throws_only].
    destruct (String.eqb tag ""); [apply Returned_throws_only|].
    destruct (Js.js_get (endpointsByTag result) tag); apply Returned_throws_only.
Qed.

Lemma getEndpointDetails_throws_nothing spec path method :
  throws_only (fun _ => False) (getEndpointDetails spec path method).
Proof.
  unfold getEndpointDetails. intros e.
  destruct (Js.js_get (paths spec) path) as [pathItem| |]; try discriminate.
  destruct (Js.js_get pathItem (JsString.toLowerCase method)) as [operation| |];
    try discriminate.
  destruct (Js.truthy operation); discriminate.
Qed.

Section DispatchProperties.

Variable JSON_stringify : JsonValue -> string.
Variable JSON_stringify_pretty : JsonValue -> string.
Variable config : ServerConfig.
Variable host : Host.

Local Abbreviation call :=
  (Server.callTool JSON_stringify JSON_stringify_pretty config host).
Local Abbreviation load := (Server.loadOpenApiSpec JSON_stringify config host).

(** X12. A request the server cannot take is refused before anything
    happens.  A name that is none of the three tools gives
    [MethodNotFound] with [Unknown tool: ] and the name; arguments that
    fail the guard of the tool (no object for [list-all-endpoints]; no
    string [path] and [method] for the other two) give [InvalidParams].
    In both cases nothing is loaded, logged or sent and the cached
    document is what it was. *)
Theorem ill_formed_requests_change_nothing
    (name : string) (args : option JsonValue) (openApiSpec : option OpenAPISpec) :
  (~ In name tools ->
   call name args openApiSpec =
     ([], Thrown (McpError MethodNotFound ("Unknown tool: " +:+ name)), openApiSpec))
  /\
  (In name tools -> tool_guard name args = false ->
   call name args openApiSpec =
     ([], Thrown (McpError InvalidParams ("Invalid arguments for " +:+ name)),
      openApiSpec)).
Proof.
  unfold Server.callTool, tool_guard, tools. split.
  - intros Hn.
    destruct (String.eqb name "list-all-endpoints") eqn:E1;
      [apply String.eqb_eq in E1; exfalso; apply Hn; subst; simpl; auto|].
    destruct (String.eqb name "get-api-specs") eqn:E2;
      [apply String.eqb_eq in E2; exfalso; apply Hn; subst; simpl; auto|].
    destruct (String.eqb name "invoke-api-endpoint") eqn:E3;
      [apply String.eqb_eq in E3; exfalso; apply Hn; subst; simpl; auto|].
    reflexivity.
  - intros [<-|[<-|[<-|[]]]]; simpl; intros Hg.
    + destruct args as [v|]; [rewrite Hg|]; reflexivity.
    + unfold isGetApiSpecsArgs. rewrite Hg. reflexivity.
    + unfold isInvokeApiEndpointArgs. rewrite Hg. reflexivity.
Qed.

Lemma load_sends_nothing openApiSpec request :
  ~ In (AxiosRequest request) (fst (fst (load openApiSpec))).
Proof.
  unfold Server.loadOpenApiSpec.
  assert (Hc : ~ In (AxiosRequest request)
                 (fst (Server.spec_content JSON_stringify config host))).
  { unfold Server.spec_content, Server.read_local.
    destruct (truthy_string (openApiSpecUrl config)); simpl;
      [destruct (axios_get host (template (openApiSpecUrl config))); simpl|];
      intuition discriminate. }
  destruct openApiSpec as [cached|]; simpl; [tauto|].
  destruct (snd (Server.spec_content JSON_stringify config host)) as [content|error];
    [|exact Hc].
  destruct (Server.parse_spec host content); simpl; [|exact Hc].
  rewrite in_app_iff. simpl. intuition discriminate.
Qed.

Lemma rethrow_effects {S} what (run : list Effect * Outcome string * S) :
  fst (fst (Server.rethrow what run)) = fst (fst run).
Proof. destruct run as [[effects [text|e0|]] s]; reflexivity. Qed.

Lemma with_spec_effects openApiSpec handler :
  fst (fst (Server.with_spec JSON_stringify config host openApiSpec handler)) =
  fst (fst (load openApiSpec)).
Proof.
  unfold Server.with_spec. destruct (load openApiSpec) as [[effects loaded] c].
  reflexivity.
Qed.

Lemma request_sent_by_invoke
    (name : string) (args : option JsonValue) (openApiSpec : option OpenAPISpec)
    (request : RequestConfig) :
  In (AxiosRequest request) (fst (fst (call name args openApiSpec))) ->
  name = "invoke-api-endpoint" /\
  readOnlyMode config = false /\
  truthy_string (apiKey config) = true.
Proof.
  unfold Server.callTool. rewrite rethrow_effects.
  destruct (String.eqb name "list-all-endpoints").
  { destruct args as [v|]; [|intros []].
    destruct (isListAllEndpointsArgs (Some v)); [|intros []].
    rewrite with_spec_effects. intros H. destruct (load_sends_nothing _ _ H). }
  destruct (String.eqb name "get-api-specs").
  { destruct (isGetApiSpecsArgs args); [|intros []].
    rewrite with_spec_effects. intros H. destruct (load_sends_nothing _ _ H). }
  destruct (String.eqb name "invoke-api-endpoint") eqn:E; [|intros []].
  apply String.eqb_eq in E.
  destruct (isInvokeApiEndpointArgs args); [|intros []].
  destruct (Server.invoke_arguments args) as [typed|]; [|intros []].
  unfold Server.invoke.
  pose proof (load_sends_nothing openApiSpec request) as Hload.
  destruct (load openApiSpec) as [[effects loaded] c]. simpl in Hload.
  unfold handleInvokeApiEndpoint.
  destruct (readOnlyMode config); [intros []|].
  destruct (truthy_string (apiKey config)); simpl; [|intros []].
  intros _. auto.
Qed.

(** X14. Only [invoke-api-endpoint] sends a request to the API, and only
    with read-only mode off and a key configured: [list-all-endpoints],
    [get-api-specs] and every refused call send none, whatever their
    arguments. *)
Theorem only_invoke_sends_requests
    (name : string) (args : option JsonValue) (openApiSpec : option OpenAPISpec)
    (request : RequestConfig) :
  In (AxiosRequest request) (fst (fst (call name args openApiSpec))) ->
  name = "invoke-api-endpoint" /\
  readOnlyMode config = false /\
  truthy_string (apiKey config) = true.
Proof. apply request_sent_by_invoke. Qed.

Lemma load_outcome openApiSpec :
  match snd (fst (load openApiSpec)) with
  | Returned _ => True
  | Thrown e => exists text, e = McpError InternalError text
  | Unmodelled => False
  end.
Proof.
  unfold Server.loadOpenApiSpec. destruct openApiSpec as [cached|]; simpl; [exact I|].
  destruct (snd (Server.spec_content JSON_stringify config host)) as [content|error];
    simpl; [|eauto].
  destruct (Server.parse_spec host content); simpl; eauto.
Qed.

Lemma list_all_endpoints_throws_only spec v :
  throws_only is_TypeError
    (Server.list_all_endpoints JSON_stringify_pretty spec v).
Proof.
  unfold Server.list_all_endpoints.
  assert (H : forall f, throws_only is_TypeError
            (bindO (handleListAllEndpoints spec f) (fun r =>
               match r with
               | Summary result =>
                   Returned (JSON_stringify_pretty (summary_json result))
               | InheritedBucket _ _ _ => Unmodelled
               end))).
  { intros f. apply bindO_throws_only; [apply handleListAllEndpoints_throws_only|].
    intros [result|i m t]; [apply Returned_throws_only|intros e; discriminate]. }
  destruct (Js.field v "filterByTag") as [[ | b | n | tag | items | o ]|];
    simpl; try apply H; try (intros e; discriminate).
  - destruct b; [intros e; discriminate|apply H].
  - destruct (negb (n =? 0)%Z); [intros e; discriminate|apply H].
Qed.

Lemma handleGetApiSpecs_throws_only spec path method :
  throws_only (fun e => exists text, e = McpError InvalidRequest text)
    (Server.handleGetApiSpecs JSON_stringify_pretty spec path method).
Proof.
  unfold Server.handleGetApiSpecs. apply bindO_throws_only.
  - intros e He. destruct (getEndpointDetails_throws_nothing _ _ _ e He).
  - intros [d|]; [apply Returned_throws_only|].
    intros e [= <-]. eauto.
Qed.

Lemma handleInvokeApiEndpoint_thrown world args e :
  snd (handleInvokeApiEndpoint JSON_stringify JSON_stringify_pretty config world args)
    = Thrown e ->
  (exists text, e = McpError InvalidRequest text) \/ loadOpenApiSpec world = Thrown e.
Proof.
  unfold handleInvokeApiEndpoint.
  destruct (readOnlyMode config); [intros [= <-]; eauto|].
  destruct (negb (truthy_string (apiKey config))); [intros [= <-]; eauto|].
  destruct (loadOpenApiSpec world) as [spec|e0|]; simpl; [|intros [= <-]; auto|discriminate].
  pose proof (getEndpointDetails_throws_nothing spec (arg_path args) (arg_method args)) as Hd.
  destruct (getEndpointDetails spec (arg_path args) (arg_method args))
    as [[details|]|e0|]; simpl.
  - destruct (try_invoke _ _ _ _ _ _ _) as [events [text|thrown|]]; discriminate.
  - intros [= <-]. eauto.
  - destruct (Hd e0 eq_refl).
  - discriminate.
Qed.

(** X15. The code of the error a tool call throws tells what happened:
    [MethodNotFound] only for a name that is no tool, [InvalidParams]
    only for a tool whose guard the arguments fail, [InvalidRequest]
    only from [get-api-specs] and [invoke-api-endpoint] after their guard
    passed (endpoint not found, read-only mode, no key), and
    [InternalError] only for a tool whose guard passed (the document did
    not load, or a handler failed). *)
Theorem error_code_tells_the_cause
    (name : string) (args : option JsonValue) (openApiSpec : option OpenAPISpec)
    (code : ErrorCode) (message : string) :
  snd (fst (call name args openApiSpec)) = Thrown (McpError code message) ->
  match code with
  | MethodNotFound => ~ In name tools
  | InvalidParams => In name tools /\ tool_guard name args = false
  | InvalidRequest =>
      (name = "get-api-specs" \/ name = "invoke-api-endpoint") /\
      tool_guard name args = true
  | InternalError => In name tools /\ tool_guard name args = true
  end.
Proof.
  unfold Server.callTool, tool_guard, tools.
  assert (Hwith : forall handler P,
            (forall spec, throws_only P (handler spec)) ->
            forall e, snd (fst (Server.with_spec JSON_stringify config host
                                  openApiSpec handler)) = Thrown e ->
            P e \/ exists text, e = McpError InternalError text).
  { intros handler P Hh e. unfold Server.with_spec.
    pose proof (load_outcome openApiSpec) as Hl.
    destruct (load openApiSpec) as [[effects [spec|e0|]] c]; simpl in *.
    - intros He. left. exact (Hh spec e He).
    - intros [= <-]. right. exact Hl.
    - contradiction. }
  assert (Hre : forall (run : list Effect * Outcome string * option OpenAPISpec),
            snd (fst (Server.rethrow "Tool execution failed: " run))
              = Thrown (McpError code message) ->
            exists e, snd (fst run) = Thrown e /\
                      Server.wrap_error "Tool execution failed: " e
                        = McpError code message).
  { intros [[effects [text|e0|]] c]; simpl; try discriminate.
    intros [= E]. eauto. }
  intros Hrun. apply Hre in Hrun as (e & Hrun & Hwrap).
  destruct (String.eqb name "list-all-endpoints") eqn:E1.
  { apply String.eqb_eq in E1. subst name.
    assert (Hin : In "list-all-endpoints"
                    ["list-all-endpoints"; "get-api-specs"; "invoke-api-endpoint"])
      by (left; reflexivity).
    destruct args as [v|].
    - destruct (isListAllEndpointsArgs (Some v)) eqn:G.
      + apply (Hwith _ _ (fun spec => list_all_endpoints_throws_only spec v)) in Hrun.
        destruct Hrun as [[m ->]|[text ->]]; simpl in Hwrap;
          injection Hwrap as <- _; auto.
      + simpl in Hrun. injection Hrun as <-. simpl in Hwrap.
        injection Hwrap as <- _. auto.
    - simpl in Hrun. injection Hrun as <-. simpl in Hwrap.
      injection Hwrap as <- _. auto. }
  destruct (String.eqb name "get-api-specs") eqn:E2.
  { apply String.eqb_eq in E2. subst name.
    assert (Hin : In "get-api-specs"
                    ["list-all-endpoints"; "get-api-specs"; "invoke-api-endpoint"])
      by (right; left; reflexivity).
    unfold isGetApiSpecsArgs in Hrun.
    destruct (has_strings ["path"; "method"] args) eqn:G.
    - apply (Hwith _ _ (fun spec => handleGetApiSpecs_throws_only spec _ _)) in Hrun.
      destruct Hrun as [[m ->]|[text ->]]; simpl in Hwrap;
        injection Hwrap as <- _; auto.
    - simpl in Hrun. injection Hrun as <-. simpl in Hwrap.
      injection Hwrap as <- _. auto. }
  destruct (String.eqb name "invoke-api-endpoint") eqn:E3.
  { apply String.eqb_eq in E3. subst name.
    assert (Hin : In "invoke-api-endpoint"
                    ["list-all-endpoints"; "get-api-specs"; "invoke-api-endpoint"])
      by (right; right; left; reflexivity).
    unfold isInvokeApiEndpointArgs in Hrun.
    destruct (has_strings ["path"; "method"] args) eqn:G.
    - destruct (Server.invoke_arguments args) as [typed|]; [|discriminate].
      unfold Server.invoke in Hrun.
      pose proof (load_outcome openApiSpec) as Hl.
      destruct (load openApiSpec) as [[effects loaded] c]. simpl in Hl.
      match type of Hrun with
      | context [handleInvokeApiEndpoint ?a ?b ?c ?w ?t] =>
          pose proof (handleInvokeApiEndpoint_thrown w t e) as Hi;
          destruct (handleInvokeApiEndpoint a b c w t) as [events outcome]
      end.
      simpl in Hrun, Hi. destruct (Hi Hrun) as [[text ->]|Hload].
      + simpl in Hwrap. injection Hwrap as <- _. auto.
      + simpl in Hload. subst loaded. destruct Hl as [text ->].
        simpl in Hwrap. injection Hwrap as <- _. auto.
    - simpl in Hrun. injection Hrun as <-. simpl in Hwrap.
      injection Hwrap as <- _. auto. }
  simpl in Hrun. injection Hrun as <-. simpl in Hwrap. injection Hwrap as <- _.
  apply String.eqb_neq in E1, E2, E3. simpl. intuition congruence.
Qed.

End DispatchProperties.

Lemma only_invoke_sends_requests_witness :
  "invoke-api-endpoint" = "invoke-api-endpoint" /\
  readOnlyMode (scenario_config false) = false /\
  truthy_string (apiKey (scenario_config false)) = true.
Proof.
  eapply (only_invoke_sends_requests (fun _ => "") (fun _ => "")
            (scenario_config false) offline_host
            "invoke-api-endpoint"
            (Some (JObj [("path", JStr "/customers"); ("method", JStr "GET")]))
            None).
  vm_compute. do 6 right. left. reflexivity.
Defined.

Lemma error_code_tells_the_cause_witness :
  In "list-all-endpoints" tools /\
  tool_guard "list-all-endpoints" (Some (JObj [])) = true.
Proof.
  apply (error_code_tells_the_cause (fun _ => "") (fun _ => "")
           (scenario_config true) offline_host
           "list-all-endpoints" (Some (JObj [])) (Some constructor_spec)
           InternalError
           "Tool execution failed: groupedByTag[tag].push is not a function").
  vm_compute. reflexivity.
Defined.

(* ===================================================================== *)
(** ** The server: configuration and the two lookups *)
(* ===================================================================== *)

Lemma build_url_prefix config path parameters url :
  build_url config path parameters = Returned url ->
  exists rest, url = (template (baseUrl config) +:+ path) +:+ rest.
Proof.
  unfold build_url.
  assert (H0 : forall u : string, exists rest, u = u +:+ rest)
    by (intros u; exists ""; symmetry; apply append_empty_r).
  destruct parameters as [ps|]; [|intros [= <-]; apply H0].
  destruct (0 <? length (Js.Object_entries ps))%nat; [|intros [= <-]; apply H0].
  destruct (append_parameters [] (Js.Object_entries ps)) as [urlParams| |];
    simpl; try discriminate.
  destruct (negb (String.eqb (URLSearchParams.toString urlParams) ""));
    intros [= <-]; [eauto|apply H0].
Qed.

Section Lookups.

Variable JSON_stringify : JsonValue -> string.
Variable JSON_stringify_pretty : JsonValue -> string.

Local Abbreviation handle := (handleInvokeApiEndpoint JSON_stringify JSON_stringify_pretty).

Lemma http_call_url
    (config : ServerConfig) (world : World) (args : InvokeApiEndpointArgs)
    (request : RequestConfig) :
  In (HttpCall request) (fst (handle config world args)) ->
  exists rest,
    rc_url request =
    (match baseUrl config with Some base => base | None => "undefined" end
     +:+ arg_path args) +:+ rest.
Proof.
  unfold handleInvokeApiEndpoint.
  destruct (readOnlyMode config); [intros []|].
  destruct (negb (truthy_string (apiKey config))); [intros []|].
  destruct (loadOpenApiSpec world) as [spec| |]; simpl; try (intros [H|[]]; discriminate).
  destruct (getEndpointDetails spec (arg_path args) (arg_method args))
    as [[details|]| |]; simpl; try (intros [H|[]]; discriminate).
  unfold try_invoke, build_request.
  pose proof (build_url_prefix config (arg_path args) (arg_parameters args)) as Hu.
  destruct (build_url config (arg_path args) (arg_parameters args)) as [url|[]|];
    simpl; try (intros [H|[]]; discriminate).
  destruct (Hu url eq_refl) as [rest Hrest].
  match goal with |- context [axios world ?rc] => destruct (axios world rc) end;
    simpl; (intros [H|[H|[]]]; [discriminate|]); injection H as <-; simpl;
    exists rest; exact Hrest.
Qed.

(** X16. The address of a request starts with the configured base URL
    followed by the path as the caller wrote it; whatever follows is the
    query string.  A configuration without base URL is not refused: the
    address then starts with the text [undefined]. *)
Theorem request_url_starts_with_base
    (config : ServerConfig) (world : World) (args : InvokeApiEndpointArgs)
    (request : RequestConfig) :
  In (HttpCall request) (fst (handle config world args)) ->
  exists rest,
    rc_url request =
    (match baseUrl config with Some base => base | None => "undefined" end
     +:+ arg_path args) +:+ rest.
Proof. apply http_call_url. Qed.

(** X17. [get-api-specs] and [invoke-api-endpoint] agree on which
    endpoints exist: with read-only mode off, a key configured and the
    document loaded, the invocation throws exactly when [get-api-specs]
    throws for the same path and method, and it throws the same
    [Endpoint not found] error. *)
Theorem lookups_agree_on_unknown_endpoints
    (config : ServerConfig) (world : World) (args : InvokeApiEndpointArgs)
    (spec : OpenAPISpec) (e : JsError) :
  readOnlyMode config = false ->
  truthy_string (apiKey config) = true ->
  loadOpenApiSpec world = Returned spec ->
  Server.handleGetApiSpecs JSON_stringify_pretty spec (arg_path args) (arg_method args)
    = Thrown e
  <-> snd (handle config world args) = Thrown e.
Proof.
  intros Hro Hkey Hload.
  unfold handleInvokeApiEndpoint, Server.handleGetApiSpecs.
  rewrite Hro, Hkey, Hload. simpl.
  pose proof (getEndpointDetails_throws_nothing spec (arg_path args) (arg_method args)) as Hd.
  destruct (getEndpointDetails spec (arg_path args) (arg_method args))
    as [[details|]|e0|]; simpl.
  - destruct (try_invoke _ _ _ _ _ _ _) as [events [text|thrown|]]; simpl;
      split; discriminate.
  - tauto.
  - destruct (Hd e0 eq_refl).
  - split; discriminate.
Qed.

End Lookups.

Lemma request_url_starts_with_base_witness :
  exists rest,
    "https://api.iron.xyz/api/customers" = ("https://api.iron.xyz/api" +:+ "/customers") +:+ rest.
Proof.
  apply (request_url_starts_with_base (fun _ => "") (fun _ => "")
           (scenario_config false) timeout_world (get_customers None)
           {| rc_method := "GET"; rc_url := "https://api.iron.xyz/api/customers";
              rc_headers := build_headers "test-api-key-123" None;
              rc_data := None; rc_timeout := 30000 |}).
  vm_compute. right. left. reflexivity.
Defined.

Definition get_orders : InvokeApiEndpointArgs :=
  {| arg_path := "/orders"; arg_method := "GET";
     arg_parameters := None; arg_body := None; arg_headers := None |}.

Lemma lookups_agree_on_unknown_endpoints_witness :
  Server.handleGetApiSpecs (fun _ => "") scenario_spec "/orders" "GET"
    = Thrown (McpError InvalidRequest "Endpoint not found: GET /orders")
  <-> snd (handleInvokeApiEndpoint (fun _ => "") (fun _ => "")
             (scenario_config false) timeout_world get_orders)
    = Thrown (McpError InvalidRequest "Endpoint not found: GET /orders").
Proof.
  apply (lookups_agree_on_unknown_endpoints (fun _ => "") (fun _ => "")
           (scenario_config false) timeout_world get_orders scenario_spec);
    reflexivity.
Defined.

(** The base URL of a declared environment. *)
Definition base_of (e : Environment) : string :=
  match e with
  | sandbox => "https://api.sandbox.iron.xyz/api"
  | production => "https://api.iron.xyz/api"
  end.

(** X18. The environment decides where requests go.  With
    [IRON_ENVIRONMENT] set to [sandbox] or [production] and no
    [IRON_BASE_URL] (unset or empty), the configuration loads, and every
    request of an invocation under it is addressed to the API of that
    environment: its address starts with that environment's base URL
    followed by the path. *)
Theorem environment_decides_the_host
    (JSON_stringify JSON_stringify_pretty : JsonValue -> string)
    (env : Server.Env) (bundledSpecPath : string) (e : Environment) :
  env "IRON_ENVIRONMENT" = Some (environment_name e) ->
  truthy_string (env "IRON_BASE_URL") = false ->
  exists c config,
    Server.loadConfig env bundledSpecPath = Returned c /\
    Server.server_config c = Some config /\
    environment config = e /\
    forall world args request,
      In (HttpCall request)
         (fst (handleInvokeApiEndpoint JSON_stringify JSON_stringify_pretty
                 config world args)) ->
      exists rest, rc_url request = (base_of e +:+ arg_path args) +:+ rest.
Proof.
  intros He Hb. unfold Server.loadConfig, Server.variable_or_default.
  rewrite He, Hb.
  destruct e; simpl;
    (destruct (truthy_string (env "IRON_OPENAPI_SPEC_URL")); simpl;
     eexists _, _; (split; [reflexivity|]); (split; [reflexivity|]);
     (split; [reflexivity|]);
     intros world args request Hin;
     apply (http_call_url JSON_stringify JSON_stringify_pretty) in Hin;
     exact Hin).
Qed.

(** The variables of a sandbox installation. *)
Definition sandbox_env : Server.Env :=
  fun name =>
    if String.eqb name "IRON_ENVIRONMENT" then Some "sandbox"
    else if String.eqb name "IRON_API_KEY" then Some "test-api-key-123"
    else if String.eqb name "IRON_READ_ONLY_MODE" then Some "true"
    else None.

Lemma environment_decides_the_host_witness :
  exists c config,
    Server.loadConfig sandbox_env "/srv/ironxyz-openapi-spec.yaml" = Returned c /\
    Server.server_config c = Some config /\
    environment config = sandbox /\
    forall world args request,
      In (HttpCall request)
         (fst (handleInvokeApiEndpoint (fun _ => "") (fun _ => "") config world args)) ->
      exists rest,
        rc_url request = ("https://api.sandbox.iron.xyz/api" +:+ arg_path args) +:+ rest.
Proof.
  apply (environment_decides_the_host (fun _ => "") (fun _ => "")
           sandbox_env "/srv/ironxyz-openapi-spec.yaml" sandbox); reflexivity.
Defined.

(** X19. An environment name that is not declared is not refused and
    gets no defaults: with [IRON_ENVIRONMENT] set to a name other than
    [sandbox] and [production] (and not the name of a member of
    [Object.prototype]), and neither URL variable set, the configuration
    has that name as its environment, no spec URL and no base URL; only
    the local spec path has a value.  There is no fallback to
    [production]. *)
Theorem undeclared_environment_gets_no_urls
    (env : Server.Env) (bundledSpecPath name : string) :
  env "IRON_ENVIRONMENT" = Some name ->
  name <> "" -> name <> "sandbox" -> name <> "production" ->
  Js.inherited_name name = false ->
  truthy_string (env "IRON_OPENAPI_SPEC_URL") = false ->
  truthy_string (env "IRON_BASE_URL") = false ->
  exists c,
    Server.loadConfig env bundledSpecPath = Returned c /\
    Server.cfg_environment c = name /\
    Server.cfg_openApiSpecUrl c = None /\
    Server.cfg_baseUrl c = None /\
    Server.cfg_localSpecPath c <> None /\
    Server.server_config c = None.
Proof.
  intros He Hn Hs Hp Hi Hu Hb.
  unfold Server.loadConfig, Server.variable_or_default. rewrite He, Hu, Hb.
  apply String.eqb_neq in Hn, Hs, Hp.
  assert (Henv : default "production"
                   (Server.or_else (Some name) (Some "production")) = name).
  { unfold Server.or_else. simpl. rewrite Hn. reflexivity. }
  rewrite Henv.
  assert (Hget : forall url1 url2 : string,
            Js.js_get [("sandbox", url1); ("production", url2)] name = Js.Undefined).
  { intros url1 url2. unfold Js.js_get.
    change (Js.own_get [("sandbox", url1); ("production", url2)] name)
      with (if String.eqb "sandbox" name then Some url1
            else if String.eqb "production" name then Some url2 else None).
    rewrite (String.eqb_sym "sandbox"), (String.eqb_sym "production"), Hs, Hp, Hi.
    reflexivity. }
  unfold Server.defaultSpecUrls, Server.defaultBaseUrls. rewrite !Hget. simpl.
  eexists. split; [reflexivity|]. simpl. repeat split.
  - unfold Server.or_else.
    destruct (truthy_string (env "IRON_LOCAL_SPEC_PATH")) eqn:El; [|discriminate].
    destruct (env "IRON_LOCAL_SPEC_PATH"); discriminate.
  - unfold Server.server_config, Server.declared_environment. simpl.
    rewrite Hs, Hp. reflexivity.
Qed.

Definition staging_env : Server.Env :=
  fun name =>
    if String.eqb name "IRON_ENVIRONMENT" then Some "staging"
    else if String.eqb name "IRON_API_KEY" then Some "test-api-key-123"
    else None.

Lemma undeclared_environment_gets_no_urls_witness :
  exists c,
    Server.loadConfig staging_env "/srv/ironxyz-openapi-spec.yaml" = Returned c /\
    Server.cfg_environment c = "staging" /\
    Server.cfg_openApiSpecUrl c = None /\
    Server.cfg_baseUrl c = None /\
    Server.cfg_localSpecPath c <> None /\
    Server.server_config c = None.
Proof.
  apply (undeclared_environment_gets_no_urls staging_env
           "/srv/ironxyz-openapi-spec.yaml" "staging");
    solve [reflexivity | discriminate].
Defined.

(** X20. Read-only mode set in the environment holds for the whole
    server: with [IRON_READ_ONLY_MODE] set to [true], under the
    configuration that [loadConfig] builds no tool call sends a request to
    the API, whatever the tool, the arguments, the cached document and the
    host.  Only the exact text counts: any other value of the variable
    leaves read-only mode off. *)
Theorem read_only_environment_sends_nothing
    (JSON_stringify JSON_stringify_pretty : JsonValue -> string)
    (env : Server.Env) (bundledSpecPath : string)
    (c : Server.Configuration) (config : ServerConfig) :
  Server.loadConfig env bundledSpecPath = Returned c ->
  Server.server_config c = Some config ->
  (readOnlyMode config = true <-> env "IRON_READ_ONLY_MODE" = Some "true") /\
  (env "IRON_READ_ONLY_MODE" = Some "true" ->
   forall host name args openApiSpec request,
     ~ In (AxiosRequest request)
         (fst (fst (Server.callTool JSON_stringify JSON_stringify_pretty config host
                      name args openApiSpec)))).
Proof.
  intros Hc Hs.
  assert (Hro : readOnlyMode config =
                match env "IRON_READ_ONLY_MODE" with
                | Some v => String.eqb v "true"
                | None => false
                end).
  { unfold Server.loadConfig in Hc.
    destruct (Server.variable_or_default _ _ _) as [u| |]; simpl in Hc; try discriminate.
    destruct (Server.variable_or_default _ _ _) as [b| |]; simpl in Hc; try discriminate.
    injection Hc as <-. unfold Server.server_config in Hs. simpl in Hs.
    destruct (Server.declared_environment _); simpl in Hs; [|discriminate].
    injection Hs as <-. reflexivity. }
  assert (Hiff : readOnlyMode config = true <-> env "IRON_READ_ONLY_MODE" = Some "true").
  { rewrite Hro. destruct (env "IRON_READ_ONLY_MODE") as [v|].
    - rewrite String.eqb_eq. split; [intros ->; reflexivity|intros [= ->]; reflexivity].
    - split; discriminate. }
  split; [exact Hiff|].
  intros Ht host name args openApiSpec request Hin.
  apply request_sent_by_invoke in Hin as (_ & Hoff & _).
  apply Hiff in Ht. congruence.
Qed.

Lemma read_only_environment_sends_nothing_witness :
  exists config,
    (readOnlyMode config = true <-> sandbox_env "IRON_READ_ONLY_MODE" = Some "true") /\
    (sandbox_env "IRON_READ_ONLY_MODE" = Some "true" ->
     forall host name args openApiSpec request,
       ~ In (AxiosRequest request)
           (fst (fst (Server.callTool (fun _ => "") (fun _ => "") config host
                        name args openApiSpec)))).
Proof.
  eexists.
  eapply (read_only_environment_sends_nothing (fun _ => "") (fun _ => "")
            sandbox_env "/srv/ironxyz-openapi-spec.yaml"); reflexivity.
Defined.

(* ===================================================================== *)
(** ** The server: the cached document, and the argument guards *)
(* ===================================================================== *)

Definition is_request (effect : Effect) : bool :=
  match effect with AxiosRequest _ => true | _ => false end.

Section CachedDocument.

Variable JSON_stringify : JsonValue -> string.
Variable JSON_stringify_pretty : JsonValue -> string.
Variable config : ServerConfig.
Variable host : Host.

(** X21. Once a document is cached, every tool call is served from it:
    whatever the tool and its arguments, the call fetches nothing,
    reads no file and logs nothing (its only possible effect is the
    request of an invocation), and the cached document is still the
    same afterwards.  The document is never reloaded. *)
Theorem cached_document_serves_every_call
    (name : string) (args : option JsonValue) (spec : OpenAPISpec) :
  let run := Server.callTool JSON_stringify JSON_stringify_pretty config host
               name args (Some spec) in
  forallb is_request (fst (fst run)) = true /\ snd run = Some spec.
Proof.
  unfold Server.callTool.
  assert (Hre : forall run : list Effect * Outcome string * option OpenAPISpec,
            forallb is_request (fst (fst run)) = true /\ snd run = Some spec ->
            forallb is_request (fst (fst (Server.rethrow "Tool execution failed: " run)))
              = true /\
            snd (Server.rethrow "Tool execution failed: " run) = Some spec).
  { intros [[effects [text|e|]] c]; simpl; auto. }
  apply Hre.
  destruct (String.eqb name "list-all-endpoints").
  { destruct args as [v|]; [|split; reflexivity].
    destruct (isListAllEndpointsArgs (Some v)); split; reflexivity. }
  destruct (String.eqb name "get-api-specs").
  { destruct (isGetApiSpecsArgs args); split; reflexivity. }
  destruct (String.eqb name "invoke-api-endpoint"); [|split; reflexivity].
  destruct (isInvokeApiEndpointArgs args); [|split; reflexivity].
  destruct (Server.invoke_arguments args) as [typed|]; [|split; reflexivity].
  unfold Server.invoke. simpl.
  unfold handleInvokeApiEndpoint.
  destruct (readOnlyMode config); [split; reflexivity|].
  destruct (negb (truthy_string (apiKey config))); [split; reflexivity|].
  simpl.
  destruct (getEndpointDetails spec (arg_path typed) (arg_method typed))
    as [[details|]| |]; simpl; try (split; reflexivity).
  unfold try_invoke.
  destruct (of_outcome (build_request JSON_stringify config _ typed))
    as [request|thrown|]; simpl; try (split; reflexivity).
  destruct (axios_request host request); simpl; split; reflexivity.
Qed.

End CachedDocument.

(** X22. The argument guards accept exactly the objects that have every
    required property as a string: [path] and [method] for
    [get-api-specs], [invoke-api-endpoint] and the [test-endpoint] prompt,
    [goal] for [find-endpoint], [response_data], [endpoint_path] and
    [endpoint_method] for [analyze-response].  Missing arguments, [null],
    arrays and other values are refused; further properties ([parameters],
    [body], [headers], an optional [goal]) are not looked at. *)
Theorem guards_accept_objects_with_string_properties
    (names : list string) (args : option JsonValue) :
  names <> [] ->
  has_strings names args = true <->
  exists o, args = Some (JObj o) /\
    forall name, In name names -> exists s, Js.own_get o name = Some (JStr s).
Proof.
  intros Hnames. unfold has_strings. split.
  - destruct args as [[ | b | n | s | items | o ]|]; simpl; try discriminate.
    + destruct names as [|name rest]; simpl; [contradiction|discriminate].
    + intros H. apply andb_prop in H as [_ H].
      exists o. split; [reflexivity|]. intros name Hin.
      rewrite forallb_forall in H. specialize (H name Hin).
      unfold is_string in H. simpl in H.
      destruct (Js.own_get o name) as [[ | | | s | | ]|]; try discriminate. eauto.
  - intros (o & -> & H). simpl.
    apply andb_true_intro. split; apply forallb_forall; intros name Hin;
      destruct (H name Hin) as [s Hs]; simpl; rewrite Hs; reflexivity.
Qed.

Lemma guards_accept_objects_with_string_properties_witness :
  isInvokeApiEndpointArgs
    (Some (JObj [("path", JStr "/customers"); ("method", JStr "GET");
                 ("parameters", JStr "limit=10")])) = true <->
  exists o,
    Some (JObj [("path", JStr "/customers"); ("method", JStr "GET");
                ("parameters", JStr "limit=10")]) = Some (JObj o) /\
    forall name, In name ["path"; "method"] -> exists s, Js.own_get o name = Some (JStr s).
Proof.
  apply (guards_accept_objects_with_string_properties ["path"; "method"]).
  discriminate.
Defined.


(* ===================================================================== *)
(** ** The server: where the error of a tool call comes from *)
(* ===================================================================== *)

Section ErrorOrigin.

Variable JSON_stringify : JsonValue -> string.
Variable JSON_stringify_pretty : JsonValue -> string.
Variable config : ServerConfig.
Variable host : Host.

Local Abbreviation call :=
  (Server.callTool JSON_stringify JSON_stringify_pretty config host).
Local Abbreviation load := (Server.loadOpenApiSpec JSON_stringify config host).








End ErrorOrigin.


(* ===================================================================== *)
(** ** The find-endpoint prompt *)
(* ===================================================================== *)

(** The words of a goal the prompt reacts to. *)
Definition goal_keywords : list string :=
  ["create"; "get"; "list"; "update"; "delete"; "customer"; "transaction";
   "autoramp"; "payment"; "address"; "webhook"].

Lemma relevantEndpoints_none goalLower endpoints kept :
  (forall e, In e endpoints ->
     forall keep, FindEndpoint.relevant goalLower e = Returned keep -> keep = false) ->
  FindEndpoint.relevantEndpoints goalLower endpoints = Returned kept -> kept = [].
Proof.
  revert kept. induction endpoints as [|e rest IH]; intros kept Hno; simpl.
  - intros [= <-]. reflexivity.
  - destruct (FindEndpoint.relevant goalLower e) as [keep| |] eqn:Hk;
      simpl; try discriminate.
    rewrite (Hno e (or_introl eq_refl) keep Hk).
    destruct (FindEndpoint.relevantEndpoints goalLower rest) as [kept'| |];
      simpl; try discriminate.
    intros [= <-]. apply IH; [|reflexivity].
    intros e' He'. apply Hno. right. exact He'.
Qed.

(** X23. A goal that contains none of the eleven keywords (in any case)
    gets no recommendation, whatever the document holds: the list of
    matches is empty, so the prompt shows the list of categories
    instead. *)
Theorem goal_without_keyword_matches_nothing
    (goal : string) (summary : ApiSummary)
    (found : list (string * list EndpointSummary)) :
  ascii_text goal ->
  (forall keyword, In keyword goal_keywords ->
     FindEndpoint.includes (JsString.toLowerCase goal) keyword = false) ->
  FindEndpoint.matches goal summary = Returned found ->
  found = [] /\ FindEndpoint.shown found = [] /\ FindEndpoint.exampleEndpoint found = None.
Proof.
  intros _ Hno. unfold FindEndpoint.matches.
  assert (Hrel : forall e keep,
            FindEndpoint.relevant (JsString.toLowerCase goal) e = Returned keep ->
            keep = false).
  { intros e keep. unfold FindEndpoint.relevant.
    destruct (FindEndpoint.searchText e) as [text| |]; simpl; try discriminate.
    rewrite !Hno by (unfold goal_keywords; simpl; tauto). simpl.
    intros [= <-]. reflexivity. }
  assert (Hall : forall entries ms,
            FindEndpoint.collect (JsString.toLowerCase goal) entries = Returned ms ->
            ms = []).
  { induction entries as [|[category endpoints] rest IH]; intros ms; simpl.
    - intros [= <-]. reflexivity.
    - destruct (FindEndpoint.relevantEndpoints _ endpoints) as [kept| |] eqn:Hk;
        simpl; try discriminate.
      apply relevantEndpoints_none in Hk; [|intros e _; apply Hrel]. subst kept.
      destruct (FindEndpoint.collect _ rest) as [ms'| |]; simpl; try discriminate.
      intros [= <-]. apply IH. reflexivity. }
  intros H. apply Hall in H. subst found. repeat split.
Qed.

Lemma goal_without_keyword_matches_nothing_witness :
  @nil (string * list EndpointSummary) = [] /\
  FindEndpoint.shown [] = [] /\ FindEndpoint.exampleEndpoint [] = None.
Proof.
  apply (goal_without_keyword_matches_nothing "Show me the pricing" scenario_summary []).
  - unfold ascii_text. simpl. repeat constructor.
  - intros keyword Hin. unfold goal_keywords in Hin. simpl in Hin.
    repeat (destruct Hin as [<-|Hin]; [vm_compute; reflexivity|]). destruct Hin.
  - vm_compute. reflexivity.
Defined.

Lemma relevantEndpoints_kept goalLower endpoints kept :
  FindEndpoint.relevantEndpoints goalLower endpoints = Returned kept ->
  sublist kept endpoints /\
  forall e, In e kept -> FindEndpoint.relevant goalLower e = Returned true.
Proof.
  revert kept. induction endpoints as [|x rest IH]; intros kept; simpl.
  - intros [= <-]. split; [constructor|intros e []].
  - destruct (FindEndpoint.relevant goalLower x) as [keep| |] eqn:Hk;
      simpl; try discriminate.
    destruct (FindEndpoint.relevantEndpoints goalLower rest) as [kept'| |];
      simpl; try discriminate.
    destruct (IH kept' eq_refl) as [Hs Hr].
    intros [= <-]. destruct keep.
    + split; [constructor; exact Hs|].
      intros e [<-|He]; [exact Hk|apply Hr, He].
    + split; [constructor; exact Hs|exact Hr].
Qed.

Lemma collect_from_entries goalLower entries found :
  FindEndpoint.collect goalLower entries = Returned found ->
  forall category kept, In (category, kept) found ->
    kept <> [] /\
    exists bucket, In (category, bucket) entries /\
      FindEndpoint.relevantEndpoints goalLower bucket = Returned kept.
Proof.
  revert found. induction entries as [|[c endpoints] rest IH]; intros found; simpl.
  - intros [= <-] category kept [].
  - destruct (FindEndpoint.relevantEndpoints goalLower endpoints) as [k| |] eqn:Hk;
      simpl; try discriminate.
    destruct (FindEndpoint.collect goalLower rest) as [ms| |]; simpl; try discriminate.
    specialize (IH ms eq_refl).
    intros [= <-] category kept Hin.
    assert (Hrest : In (category, kept) ms ->
              kept <> [] /\
              exists bucket, In (category, bucket) ((c, endpoints) :: rest) /\
                FindEndpoint.relevantEndpoints goalLower bucket = Returned kept).
    { intros H. destruct (IH _ _ H) as (Hne & bucket & Hb & Hr).
      split; [exact Hne|]. exists bucket. split; [right; exact Hb|exact Hr]. }
    destruct k as [|e k]; simpl in Hin; [exact (Hrest Hin)|].
    destruct Hin as [[= <- <-]|Hin]; [|exact (Hrest Hin)].
    split; [discriminate|]. exists endpoints. split; [left; reflexivity|exact Hk].
Qed.

Lemma In_firstn {A} (x : A) n l : In x (firstn n l) -> In x l.
Proof.
  intros H. apply list_elem_of_In. apply list_elem_of_In in H.
  eapply elem_of_sublist; [exact H|apply sublist_take].
Qed.

(** X24. What the prompt recommends comes from the document and is
    relevant: it shows at most two categories with at most two endpoints
    each; every category shown is a tag of the summary, and the endpoints
    shown under it are endpoints of that bucket, in the order of the
    bucket, none of them empty-handed: each passed the keyword test for
    the goal. *)
Theorem recommendations_come_from_the_summary
    (goal : string) (summary : ApiSummary)
    (found : list (string * list EndpointSummary)) :
  FindEndpoint.matches goal summary = Returned found ->
  length (FindEndpoint.shown found) <= 2 /\
  forall category endpoints, In (category, endpoints) (FindEndpoint.shown found) ->
    endpoints <> [] /\ length endpoints <= 2 /\
    exists bucket,
      In (category, bucket) (endpointsByTag summary) /\
      sublist endpoints bucket /\
      forall e, In e endpoints ->
        FindEndpoint.relevant (JsString.toLowerCase goal) e = Returned true.
Proof.
  unfold FindEndpoint.matches, FindEndpoint.shown. intros H. split.
  - rewrite length_map. apply firstn_le_length.
  - intros category endpoints Hin.
    apply in_map_iff in Hin as ([c kept] & [= <- <-] & Hin). simpl.
    apply In_firstn in Hin.
    destruct (collect_from_entries _ _ _ H _ _ Hin) as (Hne & bucket & Hb & Hr).
    apply (proj1 (In_Object_entries _ _)) in Hb.
    apply relevantEndpoints_kept in Hr as [Hs Hrel].
    split; [destruct kept; [contradiction|discriminate]|].
    split; [apply firstn_le_length|].
    exists bucket. split; [exact Hb|]. split.
    + etrans; [apply sublist_take|exact Hs].
    + intros e He. apply Hrel. eapply In_firstn, He.
Qed.

(** What the goal of creating a customer finds in the scenario document:
    both categories, the word [create] being in every summary. *)
Definition create_customer_matches : list (string * list EndpointSummary) :=
  [("Customer",
    [summary_entry "/customers" "post"
       (operation_tagged "Create a new customer" "Customer");
     summary_entry "/customers" "get"
       (operation_tagged "List customers" "Customer")]);
   ("Addresses",
    [summary_entry "/addresses" "post"
       (operation_tagged "Create address" "Addresses")])].

Lemma recommendations_come_from_the_summary_witness :
  length (FindEndpoint.shown create_customer_matches) <= 2 /\
  forall category endpoints,
    In (category, endpoints) (FindEndpoint.shown create_customer_matches) ->
    endpoints <> [] /\ length endpoints <= 2 /\
    exists bucket,
      In (category, bucket) (endpointsByTag scenario_summary) /\
      sublist endpoints bucket /\
      forall e, In e endpoints ->
        FindEndpoint.relevant (JsString.toLowerCase "Create a Customer") e
          = Returned true.
Proof.
  apply (recommendations_come_from_the_summary "Create a Customer" scenario_summary).
  vm_compute. reflexivity.
Defined.
